(** * The split view allocation engine (class [SplitView])

    A shallow embedding of the one-dimensional constrained layout engine of
    [packages/splitview/src/splitview/core/splitview.ts] and the properties
    its specification states about it.

    JavaScript numbers are modelled as exact extended rationals: a finite
    value is a canonical rational ([Qc]), next to the two infinities and
    NaN.  The rounding of IEEE-754 doubles, their overflow and the sign
    of zero are not modelled.  On the integers the item contract speaks
    of, double arithmetic is exact: a property that depends on the values
    computed is stated for safe integers ([safe_integer], [safe_items]),
    a property of bounds, which holds whatever the rounding, for
    magnitudes at which nothing overflows ([bounded]), and a property
    that names a computed value does so by the expression the code
    computes it with.  A method of the class is a function from the
    engine state to an outcome: it returns normally, or it throws (a
    [TypeError] on a property access of [undefined]) with the state as the
    mutations made so far left it. *)

From Stdlib Require Import ZArith QArith Qcanon Qround Lqa Lia List Bool
  Permutation.
Import ListNotations.

Set Implicit Arguments.

(** ** JavaScript numbers *)

Inductive num : Type :=
  | Fin (q : Qc)
  | PInf
  | NInf
  | NaN.

Declare Scope num_scope.
Delimit Scope num_scope with num.
Bind Scope num_scope with num.

Definition numZ (z : Z) : num := Fin (Q2Qc (inject_Z z)).

Definition zero : num := numZ 0.

Definition num_add (a b : num) : num :=
  match a, b with
  | NaN, _ | _, NaN => NaN
  | Fin x, Fin y => Fin (x + y)
  | PInf, NInf | NInf, PInf => NaN
  | PInf, _ | _, PInf => PInf
  | NInf, _ | _, NInf => NInf
  end.

Definition num_neg (a : num) : num :=
  match a with
  | Fin x => Fin (- x)
  | PInf => NInf
  | NInf => PInf
  | NaN => NaN
  end.

Definition num_sub (a b : num) : num := num_add a (num_neg b).

(** [a < b]; every comparison with NaN is false. *)
Definition num_ltb (a b : num) : bool :=
  match a, b with
  | NaN, _ | _, NaN => false
  | Fin x, Fin y => if Qclt_le_dec x y then true else false
  | NInf, NInf | PInf, _ | _, NInf => false
  | NInf, _ | _, PInf => true
  end.

(** [a === b] on numbers. *)
Definition num_eqb (a b : num) : bool :=
  match a, b with
  | Fin x, Fin y => if Qc_eq_dec x y then true else false
  | PInf, PInf | NInf, NInf => true
  | _, _ => false
  end.

Definition num_leb (a b : num) : bool := num_ltb a b || num_eqb a b.
Definition num_gtb (a b : num) : bool := num_ltb b a.
Definition num_geb (a b : num) : bool := num_leb b a.

(** [Math.max] and [Math.min] of two numbers: NaN as soon as one is. *)
Definition num_max (a b : num) : num :=
  match a, b with
  | NaN, _ | _, NaN => NaN
  | _, _ => if num_ltb a b then b else a
  end.

Definition num_min (a b : num) : num :=
  match a, b with
  | NaN, _ | _, NaN => NaN
  | _, _ => if num_ltb b a then b else a
  end.

Definition num_sign (a : num) : comparison :=
  if num_ltb zero a then Gt else if num_ltb a zero then Lt else Eq.

Definition num_mul (a b : num) : num :=
  match a, b with
  | NaN, _ | _, NaN => NaN
  | Fin x, Fin y => Fin (x * y)
  | _, _ =>
      match num_sign a, num_sign b with
      | Eq, _ | _, Eq => NaN
      | Gt, Gt | Lt, Lt => PInf
      | _, _ => NInf
      end
  end.

Definition num_div (a b : num) : num :=
  match a, b with
  | NaN, _ | _, NaN => NaN
  | Fin x, Fin y =>
      if Qc_eq_dec y 0 then
        match num_sign a with Gt => PInf | Lt => NInf | Eq => NaN end
      else Fin (x / y)
  | Fin _, _ => zero
  | _, Fin _ =>
      match num_sign a, num_sign b with
      | Gt, Lt | Lt, Gt | Lt, Eq => NInf
      | _, _ => PInf
      end
  | _, _ => NaN
  end.

(** [Math.floor] and [Math.round] (round half up). *)
Definition num_floor (a : num) : num :=
  match a with
  | Fin x => numZ (Qfloor x)
  | _ => a
  end.

Definition half : Qc := Q2Qc (1 # 2).

Definition num_round (a : num) : num :=
  match a with
  | Fin x => numZ (Qfloor (x + half)%Qc)
  | _ => a
  end.

Infix "+" := num_add : num_scope.
Infix "-" := num_sub : num_scope.
Infix "*" := num_mul : num_scope.
Infix "/" := num_div : num_scope.
Infix "<?" := num_ltb : num_scope.
Infix "<=?" := num_leb : num_scope.
Infix ">?" := num_gtb : num_scope.
Infix ">=?" := num_geb : num_scope.
Infix "=?" := num_eqb : num_scope.

(** [undefined] where a number is expected coerces to NaN. *)
Definition toNumber (o : option num) : num :=
  match o with
  | Some n => n
  | None => NaN
  end.

(** ** Arrays *)

(** [a[i]] for an integer [i]: [undefined] out of range. *)
Definition at_index {A : Type} (a : list A) (i : Z) : option A :=
  if (i <? 0)%Z then None else nth_error a (Z.to_nat i).

(** The start position [Array.prototype.splice] computes from its first
    argument: a negative start counts from the end. *)
Definition splice_start (len : nat) (start : Z) : nat :=
  if (start <? 0)%Z then Z.to_nat (Z.max (Z.of_nat len + start) 0)
  else Nat.min (Z.to_nat start) len.

(** [a.splice(start, 0, x)]: the array after the insertion. *)
Definition splice_insert {A : Type} (a : list A) (start : Z) (x : A) : list A :=
  let k := splice_start (length a) start in
  firstn k a ++ x :: skipn k a.

(** [a.splice(start, 1)]: the removed elements and the array left. *)
Definition splice_remove {A : Type} (a : list A) (start : Z)
  : list A * list A :=
  let k := splice_start (length a) start in
  (firstn 1 (skipn k a), firstn k a ++ skipn (S k) a).

(** [a.indexOf(x)] on an array of integers, [None] for -1. *)
Fixpoint indexOf (a : list Z) (x : Z) : option nat :=
  match a with
  | [] => None
  | y :: r => if (y =? x)%Z then Some O else option_map S (indexOf r x)
  end.

(** ** The helpers of [../util]

    The engine imports [clamp], [clampView], [range], [pushToStart] and
    [pushToEnd] from a module that is not part of the sources at hand. *)

(** Modelled from the spec: [clamp(value, min, max)] of [../util] is
    missing; a value is "clamped into" the range from [min] to [max]. *)
Definition clamp (value min max : num) : num :=
  num_min max (num_max value min).

(** The sizable item contract, [IBaseView]/[IView]: [snapSize] is
    optional. What an item does with the size handed to its [layout], and
    its change notifications, lie outside the engine. *)
Record IView : Type := {
  minimumSize : num;
  maximumSize : num;
  snapSize : option num
}.

(** Modelled from the spec: [clampView(view, size)] of [../util] is
    missing. A size is clamped to the item's bounds; an item that declares
    a snap size is, for a size under its minimum, collapsed to zero when
    the size is below the snap threshold and held at its minimum
    otherwise. *)
Definition clampView (view : IView) (size : num) : num :=
  match snapSize view with
  | None => clamp size (minimumSize view) (maximumSize view)
  | Some snap =>
      if (size >=? minimumSize view)%num
      then clamp size (minimumSize view) (maximumSize view)
      else if (size <? snap)%num then zero else minimumSize view
  end.

(** Modelled from the spec: [range(from, to)] of [../util] is missing.
    [resize] builds the up side with [range(index, -1)], the items from
    [index] down to 0, and the down side with
    [range(index + 1, length)], the items from [index + 1] to the end:
    the integers from [from] towards [to], [to] excluded. *)
Definition range (from to : Z) : list Z :=
  if (from <=? to)%Z
  then map (fun k => (from + Z.of_nat k)%Z) (seq 0 (Z.to_nat (to - from)))
  else map (fun k => (from - Z.of_nat k)%Z) (seq 0 (Z.to_nat (from - to))).

Definition remove_at {A : Type} (k : nat) (a : list A) : list A :=
  firstn k a ++ skipn (S k) a.

(** Modelled from the spec: [pushToStart(arr, value)] of [../util] is
    missing. The spec only says that a priority index is moved within its
    side's processing order; the direction is the one the identifier
    names: a value present in the array is taken out and put at the
    start, an absent value changes nothing. *)
Definition pushToStart (arr : list Z) (value : Z) : list Z :=
  match indexOf arr value with
  | Some k => value :: remove_at k arr
  | None => arr
  end.

(** Modelled from the spec: [pushToEnd(arr, value)] of [../util] is
    missing; as [pushToStart], towards the end of the array. *)
Definition pushToEnd (arr : list Z) (value : Z) : list Z :=
  match indexOf arr value with
  | Some k => remove_at k arr ++ [value]
  | None => arr
  end.

(** ** The data model *)

Inductive Orientation : Type := HORIZONTAL | VERTICAL.

(** [IViewItem]: the managed item. [container] and [dispose] belong to
    the DOM side. *)
Record IViewItem : Type := {
  view : IView;
  size : num
}.

(** [ISashItem]: a divider, known by the DOM element made for it. *)
Record ISashItem : Type := {
  container : nat
}.

Inductive Sizing : Type :=
  | distribute
  | split (index : Z).

(** The [size] argument of [addView], [number | Sizing]. *)
Inductive SizeArg : Type :=
  | size_number (n : num)
  | size_sizing (s : Sizing).

Record ViewDescriptor : Type := {
  descriptor_view_size : num;
  descriptor_view : IView
}.

Record ISplitViewDescriptor : Type := {
  descriptor_size : num;
  descriptor_views : list ViewDescriptor
}.

(** The fields of the class. [this_size] is the field [size] of the class
    (the container's size along the axis); it, [orthogonalSize],
    [contentSize] and [_proportions] are [undefined] until first assigned.
    [elements] counts the DOM elements made, to name the next one. *)
Record SplitView : Type := {
  views : list IViewItem;
  sashes : list ISashItem;
  orientation : Orientation;
  this_size : option num;
  orthogonalSize : option num;
  contentSize : option num;
  _proportions : option (list num);
  elements : nat
}.

Definition set_views (vs : list IViewItem) (this : SplitView) : SplitView :=
  {| views := vs; sashes := sashes this; orientation := orientation this;
     this_size := this_size this; orthogonalSize := orthogonalSize this;
     contentSize := contentSize this; _proportions := _proportions this;
     elements := elements this |}.

Definition set_sashes (ss : list ISashItem) (this : SplitView) : SplitView :=
  {| views := views this; sashes := ss; orientation := orientation this;
     this_size := this_size this; orthogonalSize := orthogonalSize this;
     contentSize := contentSize this; _proportions := _proportions this;
     elements := elements this |}.

Definition set_this_size (n : num) (this : SplitView) : SplitView :=
  {| views := views this; sashes := sashes this;
     orientation := orientation this;
     this_size := Some n; orthogonalSize := orthogonalSize this;
     contentSize := contentSize this; _proportions := _proportions this;
     elements := elements this |}.

Definition set_orthogonalSize (n : num) (this : SplitView) : SplitView :=
  {| views := views this; sashes := sashes this;
     orientation := orientation this;
     this_size := this_size this; orthogonalSize := Some n;
     contentSize := contentSize this; _proportions := _proportions this;
     elements := elements this |}.

Definition set_contentSize (n : num) (this : SplitView) : SplitView :=
  {| views := views this; sashes := sashes this;
     orientation := orientation this;
     this_size := this_size this; orthogonalSize := orthogonalSize this;
     contentSize := Some n; _proportions := _proportions this;
     elements := elements this |}.

Definition set_proportions (ps : list num) (this : SplitView) : SplitView :=
  {| views := views this; sashes := sashes this;
     orientation := orientation this;
     this_size := this_size this; orthogonalSize := orthogonalSize this;
     contentSize := contentSize this; _proportions := Some ps;
     elements := elements this |}.

Definition set_orientation (o : Orientation) (this : SplitView) : SplitView :=
  {| views := views this; sashes := sashes this; orientation := o;
     this_size := this_size this; orthogonalSize := orthogonalSize this;
     contentSize := contentSize this; _proportions := _proportions this;
     elements := elements this |}.

Definition set_elements (n : nat) (this : SplitView) : SplitView :=
  {| views := views this; sashes := sashes this;
     orientation := orientation this;
     this_size := this_size this; orthogonalSize := orthogonalSize this;
     contentSize := contentSize this; _proportions := _proportions this;
     elements := n |}.

(** ** Methods: state and exceptions *)

Inductive outcome (A : Type) : Type :=
  | Returns (a : A) (this : SplitView)
  | Throws (this : SplitView).

Arguments Throws {A} this.

Definition M (A : Type) : Type := SplitView -> outcome A.

Definition ret {A : Type} (a : A) : M A := fun this => Returns a this.

Definition bind {A B : Type} (m : M A) (k : A -> M B) : M B :=
  fun this =>
    match m this with
    | Returns a this' => k a this'
    | Throws this' => Throws this'
    end.

Definition throw {A : Type} : M A := fun this => Throws this.
Definition get : M SplitView := fun this => Returns this this.
Definition modify (f : SplitView -> SplitView) : M unit :=
  fun this => Returns tt (f this).

Declare Scope method_scope.
Delimit Scope method_scope with method.
Notation "x <- m ;; k" := (bind m (fun x => k))
  (at level 61, m at next level, right associativity) : method_scope.
Notation "m ;; k" := (bind m (fun _ => k))
  (at level 61, right associativity) : method_scope.

(** The state an outcome leaves the engine in. *)
Definition state_of {A : Type} (o : outcome A) : SplitView :=
  match o with
  | Returns _ this => this
  | Throws this => this
  end.

Definition sizes_of (vs : list IViewItem) : list num := map size vs.

(** [views.reduce((r, i) => r + i.size, 0)] *)
Definition sum_sizes (vs : list IViewItem) : num :=
  fold_left (fun r i => (r + size i)%num) vs zero.

(** [item.size = sz] for the item at position [i]. *)
Fixpoint set_size_nat (i : nat) (sz : num) (vs : list IViewItem)
  : list IViewItem :=
  match vs with
  | [] => []
  | v :: r =>
      match i with
      | O => {| view := view v; size := sz |} :: r
      | S k => v :: set_size_nat k sz r
      end
  end.

Definition set_size (i : Z) (sz : num) (vs : list IViewItem)
  : list IViewItem :=
  if (i <? 0)%Z then vs else set_size_nat (Z.to_nat i) sz vs.

(** ** The methods of [SplitView] *)

Local Open Scope method_scope.

(** [get length()] *)
Definition length_ (this : SplitView) : Z := Z.of_nat (length (views this)).

(** [get minimumSize()] *)
Definition get_minimumSize (this : SplitView) : num :=
  fold_left (fun r item => (r + minimumSize (view item))%num) (views this) zero.

(** [get maximumSize()] *)
Definition get_maximumSize (this : SplitView) : num :=
  if (length_ this =? 0)%Z then PInf
  else fold_left (fun r item => (r + maximumSize (view item))%num)
         (views this) zero.

(** [getViewSize(index)] *)
Definition getViewSize (index : Z) (this : SplitView) : num :=
  if (index <? 0)%Z || (index >=? length_ this)%Z then numZ (-1)
  else toNumber (option_map size (at_index (views this) index)).

(** [layoutViews()]: the content size is recorded, then each sash between
    two items is positioned, which is a property access on
    [this.sashes[i]] for every [i < views.length - 1]; the style
    assignments and the items' own [layout] leave the engine as it is. *)
Definition layoutViews : M unit := fun this =>
  let this := set_contentSize (sum_sizes (views this)) this in
  if (length (sashes this) <? length (views this) - 1)%nat
  then Throws this
  else Returns tt this.

(** [saveProportions()] *)
Definition saveProportions : M unit := fun this =>
  if (toNumber (contentSize this) >? zero)%num
  then Returns tt
         (set_proportions
            (map (fun i => (size i / toNumber (contentSize this))%num)
               (views this)) this)
  else Returns tt this.

(** The four [reduce] calls of [resize] over a list of indexes: each step
    reads [this.views[i].view], a [TypeError] when [this.views[i]] is
    [undefined], and [sizes[i]]. *)
Fixpoint reduce_indexes (f : num -> IView -> num -> num) (indexes : list Z)
    (vs : list IViewItem) (sizes : list num) (acc : num) : option num :=
  match indexes with
  | [] => Some acc
  | i :: rest =>
      match at_index vs i with
      | None => None
      | Some item =>
          reduce_indexes f rest vs sizes
            (f acc (view item) (toNumber (at_index sizes i)))
      end
  end.

(** [typeof view.snapSize === "number" ? 0 : view.minimumSize] *)
Definition snapOrMinimum (v : IView) : num :=
  match snapSize v with
  | Some _ => zero
  | None => minimumSize v
  end.

(** The first loop of [resize], over the up side: [upIndexes] holds the
    positions of [upItems], [sizes] the baseline. The result is the items
    and [actualDelta]. *)
Fixpoint resize_up (upIndexes : list Z) (sizes : list num)
    (vs : list IViewItem) (deltaUp actualDelta : num)
  : option (list IViewItem * num) :=
  match upIndexes with
  | [] => Some (vs, actualDelta)
  | i :: rest =>
      match at_index vs i with
      | None => None
      | Some item =>
          let upSize := toNumber (at_index sizes i) in
          let size := clampView (view item) (upSize + deltaUp)%num in
          let viewDelta := (size - upSize)%num in
          resize_up rest sizes (set_size i size vs)
            (deltaUp - viewDelta)%num (actualDelta + viewDelta)%num
      end
  end.

(** The second loop of [resize], over the down side. *)
Fixpoint resize_down (downIndexes : list Z) (sizes : list num)
    (vs : list IViewItem) (deltaDown : num) : option (list IViewItem) :=
  match downIndexes with
  | [] => Some vs
  | i :: rest =>
      match at_index vs i with
      | None => None
      | Some item =>
          let downSize := toNumber (at_index sizes i) in
          let size := clampView (view item) (downSize - deltaDown)%num in
          let viewDelta := (size - downSize)%num in
          resize_down rest sizes (set_size i size vs)
            (deltaDown + viewDelta)%num
      end
  end.

(** The two loops, from the clamped delta on. *)
Definition resize_apply (upIndexes downIndexes : list Z) (sizes : list num)
    (vs : list IViewItem) (tentativeDelta : num) : option (list IViewItem) :=
  match resize_up upIndexes sizes vs tentativeDelta zero with
  | None => None
  | Some (vs', actualDelta) => resize_down downIndexes sizes vs' actualDelta
  end.

(** The processing order of one side once the priorities are applied. *)
Definition prioritize (indexes : list Z)
    (lowPriorityIndexes highPriorityIndexes : option (list Z)) : list Z :=
  let indexes :=
    match highPriorityIndexes with
    | Some high => fold_left pushToStart high indexes
    | None => indexes
    end in
  match lowPriorityIndexes with
  | Some low => fold_left pushToEnd low indexes
  | None => indexes
  end.

Definition resize_upIndexes (index : Z)
    (lowPriorityIndexes highPriorityIndexes : option (list Z)) : list Z :=
  prioritize (range index (-1)) lowPriorityIndexes highPriorityIndexes.

Definition resize_downIndexes (index : Z) (this : SplitView)
    (lowPriorityIndexes highPriorityIndexes : option (list Z)) : list Z :=
  prioritize (range (index + 1) (length_ this))
    lowPriorityIndexes highPriorityIndexes.

(** [tentativeDelta], the delta [resize] hands to its two loops; [None]
    when one of the sums throws. *)
Definition resize_tentativeDelta (upIndexes downIndexes : list Z)
    (sizes : list num) (vs : list IViewItem) (delta : num) : option num :=
  match
    reduce_indexes (fun acc v s => (acc + snapOrMinimum v - s)%num)
      upIndexes vs sizes zero,
    reduce_indexes (fun acc v s => (acc + maximumSize v - s)%num)
      upIndexes vs sizes zero,
    (if (length downIndexes =? 0)%nat then Some PInf
     else reduce_indexes (fun acc v s => (acc + s - snapOrMinimum v)%num)
            downIndexes vs sizes zero),
    (if (length downIndexes =? 0)%nat then Some NInf
     else reduce_indexes (fun acc v s => (acc + s - maximumSize v)%num)
            downIndexes vs sizes zero)
  with
  | Some minDeltaUp, Some maxDeltaUp, Some maxDeltaDown, Some minDeltaDown =>
      let minDelta := num_max minDeltaUp minDeltaDown in
      let maxDelta := num_min maxDeltaDown maxDeltaUp in
      Some (clamp delta minDelta maxDelta)
  | _, _, _, _ => None
  end.

(** [resize(index, delta, sizes, lowPriorityIndexes, highPriorityIndexes)];
    an omitted [sizes] is the items' current sizes. *)
Definition resize (index : Z) (delta : num) (sizes : option (list num))
    (lowPriorityIndexes highPriorityIndexes : option (list Z)) : M unit :=
  fun this =>
    if (index <? 0)%Z || (index >? length_ this)%Z then Returns tt this
    else
      let sizes :=
        match sizes with
        | Some sizes => sizes
        | None => sizes_of (views this)
        end in
      let upIndexes :=
        resize_upIndexes index lowPriorityIndexes highPriorityIndexes in
      let downIndexes :=
        resize_downIndexes index this lowPriorityIndexes highPriorityIndexes in
      match
        resize_tentativeDelta upIndexes downIndexes sizes (views this) delta
      with
      | None => Throws this
      | Some tentativeDelta =>
          match
            resize_apply upIndexes downIndexes sizes (views this)
              tentativeDelta
          with
          | None => Throws this
          | Some vs => Returns tt (set_views vs this)
          end
      end.

(** [relayout(lowPriorityIndexes, highPriorityIndexes)] *)
Definition relayout (lowPriorityIndexes highPriorityIndexes : option (list Z))
  : M unit :=
  this <- get ;;
  let contentSize := sum_sizes (views this) in
  resize (length_ this - 1) (toNumber (this_size this) - contentSize)%num
    None lowPriorityIndexes highPriorityIndexes ;;
  layoutViews ;;
  saveProportions.

(** The loop of [distributeEmptySpace]: [n] is [i + 1] for the loop
    variable [i], which runs down to 0 while [emptyDelta !== 0]. *)
Fixpoint distributeEmptySpace_loop (n : nat) (vs : list IViewItem)
    (emptyDelta : num) : list IViewItem :=
  match n with
  | O => vs
  | S i =>
      if (emptyDelta =? zero)%num then vs
      else
        match nth_error vs i with
        | None => vs
        | Some item =>
            let size' := clampView (view item) (size item + emptyDelta)%num in
            let viewDelta := (size' - size item)%num in
            distributeEmptySpace_loop i (set_size_nat i size' vs)
              (emptyDelta - viewDelta)%num
        end
  end.

(** [distributeEmptySpace()] *)
Definition distributeEmptySpace : M unit := fun this =>
  let contentSize := sum_sizes (views this) in
  let emptyDelta := (toNumber (this_size this) - contentSize)%num in
  Returns tt
    (set_views
       (distributeEmptySpace_loop (length (views this)) (views this)
          emptyDelta) this).

(** The loop of [layout]: item [i] gets its share of the new size. *)
Fixpoint layout_loop (i : nat) (vs : list IViewItem) (proportions : list num)
    (size : num) : list IViewItem :=
  match vs with
  | [] => []
  | item :: rest =>
      Build_IViewItem (view item)
        (clampView (view item)
           (num_round (toNumber (nth_error proportions i) * size)%num))
      :: layout_loop (S i) rest proportions size
  end.

(** [layout(size, orthogonalSize)]; reading [this._proportions[i]] throws
    while [_proportions] is [undefined]. *)
Definition layout (size orthogonalSize : num) : M unit :=
  modify (set_this_size size) ;;
  modify (set_orthogonalSize orthogonalSize) ;;
  this <- get ;;
  match views this, _proportions this with
  | [], _ => ret tt
  | _ :: _, None => throw
  | vs, Some proportions =>
      modify (set_views (layout_loop 0 vs proportions size))
  end ;;
  distributeEmptySpace ;;
  layoutViews.

(** [resizeView(index, size)] *)
Definition resizeView (index : Z) (size : num) : M unit :=
  this <- get ;;
  if (index <? 0)%Z || (index >=? length_ this)%Z then ret tt
  else
    match at_index (views this) index with
    | None => throw
    | Some item =>
        let size := num_round size in
        let size :=
          clamp size (minimumSize (view item))
            (num_min (maximumSize (view item)) (toNumber (this_size this))) in
        modify (set_views (set_size index size (views this))) ;;
        relayout None None
    end.

(** [onDidChange(item, size)], the handler of an item's own change
    notification; [index] is what [this.views.indexOf(item)] finds, -1 for
    an item that is not in the engine, and an absent [size] is
    [undefined]. *)
Definition onDidChange (index : Z) (size_arg : option num) : M unit :=
  this <- get ;;
  if (index <? 0)%Z || (index >=? length_ this)%Z then ret tt
  else
    match at_index (views this) index with
    | None => throw
    | Some item =>
        let size :=
          match size_arg with
          | Some n => n
          | None => size item
          end in
        let size :=
          clamp size (minimumSize (view item)) (maximumSize (view item)) in
        modify (set_views (set_size index size (views this))) ;;
        this <- get ;;
        let contentSize := sum_sizes (views this) in
        resize (length_ this - 1)
          (toNumber (this_size this) - contentSize)%num None
          (Some [index]) None ;;
        distributeEmptySpace ;;
        layoutViews ;;
        saveProportions
    end.

(** The loop of [distributeViewSizes] that collects the flexible items:
    their positions, in order, and the sum of their sizes. *)
Fixpoint flexibleViewItems (i : nat) (vs : list IViewItem) (flexibleSize : num)
  : list nat * num :=
  match vs with
  | [] => ([], flexibleSize)
  | item :: rest =>
      if (maximumSize (view item) - minimumSize (view item) >? zero)%num
      then
        let '(items, total) :=
          flexibleViewItems (S i) rest (flexibleSize + size item)%num in
        (i :: items, total)
      else flexibleViewItems (S i) rest flexibleSize
  end.

(** The loop that hands every flexible item its share. *)
Fixpoint distribute_loop (items : list nat) (share : num)
    (vs : list IViewItem) : list IViewItem :=
  match items with
  | [] => vs
  | i :: rest =>
      match nth_error vs i with
      | None => vs
      | Some item =>
          distribute_loop rest share
            (set_size_nat i
               (clamp share (minimumSize (view item))
                  (maximumSize (view item))) vs)
      end
  end.

(** [distributeViewSizes()] *)
Definition distributeViewSizes : M unit :=
  this <- get ;;
  let '(items, flexibleSize) := flexibleViewItems 0 (views this) zero in
  let share :=
    num_floor (flexibleSize / numZ (Z.of_nat (length items)))%num in
  modify (set_views (distribute_loop items share (views this))) ;;
  relayout None None.

(** [addView(view, size, index, skipLayout)]. An omitted [size] is
    [undefined], whose [type] cannot be read; an omitted [index] is
    [this.views.length]. *)
Definition addView (v : IView) (size : option SizeArg) (index : option Z)
    (skipLayout : bool) : M unit :=
  this <- get ;;
  let index :=
    match index with
    | Some index => index
    | None => length_ this
    end in
  match size with
  | None => throw
  | Some size =>
      let viewSize :=
        match size with
        | size_number n => n
        | size_sizing (split i) => (getViewSize i this / numZ 2)%num
        | size_sizing distribute => minimumSize v
        end in
      let viewItem := Build_IViewItem v viewSize in
      modify (set_elements (S (elements this))) ;;
      modify (set_views (splice_insert (views this) index viewItem)) ;;
      this <- get ;;
      (if (1 <? length (views this))%nat
       then
         let sashItem := {| container := elements this |} in
         modify (set_elements (S (elements this))) ;;
         modify (set_sashes (sashes this ++ [sashItem]))
       else ret tt) ;;
      (if negb skipLayout then relayout (Some [index]) None else ret tt) ;;
      match size with
      | size_sizing distribute =>
          if negb skipLayout then distributeViewSizes else ret tt
      | _ => ret tt
      end
  end.

(** [removeView(index, sizing)]: [splice(index, 1)[0]] is [undefined]
    when nothing is removed, and so is the sash at a position that holds
    none; calling a method of either throws. *)
Definition removeView (index : Z) (sizing : option Sizing) : M IView :=
  this <- get ;;
  let '(removed, rest) := splice_remove (views this) index in
  modify (set_views rest) ;;
  match removed with
  | [] => throw
  | viewItem :: _ =>
      this <- get ;;
      (if (1 <=? length (views this))%nat
       then
         let sashIndex := Z.max (index - 1) 0 in
         let '(removedSashes, restSashes) :=
           splice_remove (sashes this) sashIndex in
         modify (set_sashes restSashes) ;;
         match removedSashes with
         | [] => throw
         | _ :: _ => ret tt
         end
       else ret tt) ;;
      relayout None None ;;
      distributeEmptySpace ;;
      match sizing with
      | Some distribute => distributeViewSizes
      | _ => ret tt
      end ;;
      ret (view viewItem)
  end.

(** [moveView(from, to)] *)
Definition moveView (from to : Z) : M unit :=
  this <- get ;;
  let sizing := getViewSize from this in
  v <- removeView from None ;;
  addView v (Some (size_number sizing)) (Some to) false.

(** [setOrientation(orientation)] *)
Definition setOrientation (o : Orientation) : M unit :=
  modify (set_orientation o).

(** The constructor: the engine starts empty, with its container and the
    two containers for views and sashes made; a descriptor gives the size
    and the views to add at once, without layout. *)
Definition empty_SplitView (o : Orientation) : SplitView :=
  {| views := []; sashes := []; orientation := o;
     this_size := None; orthogonalSize := None; contentSize := None;
     _proportions := None; elements := 3 |}.

Fixpoint add_descriptor_views (ds : list ViewDescriptor) (index : Z)
  : M unit :=
  match ds with
  | [] => ret tt
  | d :: rest =>
      addView (descriptor_view d)
        (Some (size_number (descriptor_view_size d))) (Some index) true ;;
      add_descriptor_views rest (index + 1)%Z
  end.

Definition new_SplitView (o : Orientation)
    (descriptor : option ISplitViewDescriptor) : outcome unit :=
  match descriptor with
  | None => Returns tt (empty_SplitView o)
  | Some d =>
      (modify (set_this_size (descriptor_size d)) ;;
       add_descriptor_views (descriptor_views d) 0 ;;
       this <- get ;;
       modify (set_contentSize (sum_sizes (views this))) ;;
       saveProportions) (empty_SplitView o)
  end.

Local Close Scope method_scope.

(** ** Auxiliary notions for the statements *)

(** The value of a finite number. *)
Definition fin_value (n : num) : Qc :=
  match n with
  | Fin q => q
  | _ => Q2Qc 0
  end.

(** Equality of lists of numbers, decided by [===]. *)
Fixpoint nums_eqb (a b : list num) : bool :=
  match a, b with
  | [], [] => true
  | x :: a', y :: b' => (x =? y)%num && nums_eqb a' b'
  | _, _ => false
  end.

(** A position that holds an element. *)
Definition in_range {A : Type} (a : list A) (i : Z) : Prop :=
  (0 <= i < Z.of_nat (length a))%Z.

(** ** States for the scenarios *)

(** An item by its bounds, snap size and current size. *)
Definition item (minimum maximum : num) (snap : option num) (sz : num)
  : IViewItem :=
  {| view := {| minimumSize := minimum; maximumSize := maximum;
                snapSize := snap |};
     size := sz |}.

(** An engine holding the given items in a container of the given size,
    with one sash between each two neighbours. *)
Definition engine (vs : list IViewItem) (total : num) : SplitView :=
  {| views := vs;
     sashes := map Build_ISashItem (seq 0 (length vs - 1));
     orientation := HORIZONTAL;
     this_size := Some total; orthogonalSize := None;
     contentSize := Some (sum_sizes vs); _proportions := None;
     elements := length vs - 1 |}.

(** Sash count = max(itemCount - 1, 0). *)
Definition sash_invariant (this : SplitView) : Prop :=
  Z.of_nat (length (sashes this)) = Z.max (length_ this - 1) 0.

(** ** The permissible delta range, as the specification words it *)

(** An item's effective minimum: 0 when it declares a snap size, else its
    stated minimum. *)
Definition effectiveMinimum (v : IView) : num :=
  match snapSize v with
  | Some _ => zero
  | None => minimumSize v
  end.

(** The positions from [lo] to [hi], both included. *)
Definition interval (lo hi : Z) : list Z :=
  map (fun k => (lo + Z.of_nat k)%Z) (seq 0 (Z.to_nat (hi - lo + 1))).

(** The sum of [term i] over the positions [indexes]. *)
Definition sum_over (indexes : list Z) (term : Z -> num) : num :=
  fold_right (fun i acc => (term i + acc)%num) zero indexes.

(** What item [i] contributes to a sum: [term] of its contract and its
    baseline size. *)
Definition item_term (term : IView -> num -> num) (vs : list IViewItem)
    (sizes : list num) (i : Z) : num :=
  match at_index vs i with
  | Some it => term (view it) (toNumber (at_index sizes i))
  | None => NaN
  end.

Definition spec_minDeltaUp (vs : list IViewItem) (sizes : list num)
    (index : Z) : num :=
  sum_over (interval 0 index)
    (item_term (fun v s => (effectiveMinimum v - s)%num) vs sizes).

Definition spec_maxDeltaUp (vs : list IViewItem) (sizes : list num)
    (index : Z) : num :=
  sum_over (interval 0 index)
    (item_term (fun v s => (maximumSize v - s)%num) vs sizes).

(** The down side, symmetric; without down-side items it imposes no
    constraint. *)
Definition spec_minDeltaDown (vs : list IViewItem) (sizes : list num)
    (index : Z) : num :=
  if (index =? Z.of_nat (length vs) - 1)%Z then NInf
  else sum_over (interval (index + 1) (Z.of_nat (length vs) - 1))
         (item_term (fun v s => (s - maximumSize v)%num) vs sizes).

Definition spec_maxDeltaDown (vs : list IViewItem) (sizes : list num)
    (index : Z) : num :=
  if (index =? Z.of_nat (length vs) - 1)%Z then PInf
  else sum_over (interval (index + 1) (Z.of_nat (length vs) - 1))
         (item_term (fun v s => (s - effectiveMinimum v)%num) vs sizes).

(** The requested delta clamped into
    [max(minDeltaUp, minDeltaDown), min(maxDeltaDown, maxDeltaUp)]. *)
Definition spec_clamped_delta (vs : list IViewItem) (sizes : list num)
    (index : Z) (delta : num) : num :=
  clamp delta
    (num_max (spec_minDeltaUp vs sizes index)
       (spec_minDeltaDown vs sizes index))
    (num_min (spec_maxDeltaDown vs sizes index)
       (spec_maxDeltaUp vs sizes index)).

(** ** The processing order of a side *)





(** ** Slack *)

(** The item's size is finite and within its bounds, its minimum finite. *)
Definition in_bounds (it : IViewItem) : bool :=
  match size it, minimumSize (view it) with
  | Fin _, Fin _ =>
      (minimumSize (view it) <=? size it)%num
      && (size it <=? maximumSize (view it))%num
  | _, _ => false
  end.





(** ** Settled sizes *)

(** The item declares no snap size. *)
Definition plain (it : IViewItem) : bool :=
  match snapSize (view it) with
  | None => true
  | Some _ => false
  end.

(** An item without snap size, within its bounds. *)
Definition plain_in_bounds (it : IViewItem) : bool :=
  plain it && in_bounds it.

(** A contract without snap size, with a finite minimum that is at most
    the maximum (finite or unbounded). *)
Definition plain_contract (v : IView) : bool :=
  match snapSize v, minimumSize v with
  | None, Fin _ => (minimumSize v <=? maximumSize v)%num
  | _, _ => false
  end.

Definition is_finite (n : num) : bool :=
  match n with
  | Fin _ => true
  | _ => false
  end.

(** The sum of [f] over the items. *)
Definition sum_of (f : IViewItem -> num) (vs : list IViewItem) : num :=
  fold_right (fun it acc => (f it + acc)%num) zero vs.

Definition sum_minimums (vs : list IViewItem) : num :=
  sum_of (fun it => minimumSize (view it)) vs.

Definition sum_maximums (vs : list IViewItem) : num :=
  sum_of (fun it => maximumSize (view it)) vs.

(** What an item could still give up, and take, within its bounds. *)
Definition slack_below (it : IViewItem) : num :=
  (minimumSize (view it) - size it)%num.

Definition slack_above (it : IViewItem) : num :=
  (maximumSize (view it) - size it)%num.

(** A finite number without fractional part. *)
Definition is_integer (n : num) : bool :=
  match n with
  | Fin q => (numZ (Qfloor q) =? n)%num
  | _ => false
  end.

(** ** What settling leaves alone *)

(** [this'] differs from [this] at most in the sizes of the items and in
    the bookkeeping of content size and proportions: the same contracts
    in the same order, the same sashes, container size, orthogonal size
    and orientation. *)
Definition same_frame (this this' : SplitView) : Prop :=
  map view (views this') = map view (views this)
  /\ sashes this' = sashes this
  /\ this_size this' = this_size this
  /\ orthogonalSize this' = orthogonalSize this
  /\ orientation this' = orientation this
  /\ elements this' = elements this.

(** The rest of [removeView] once the item and its sash are gone. *)
Definition removeView_settle (sizing : option Sizing) (v : IView) : M IView :=
  (relayout None None ;;
   distributeEmptySpace ;;
   match sizing with
   | Some distribute => distributeViewSizes
   | _ => ret tt
   end ;;
   ret v)%method.

(** The size [addView] gives the new item. *)
Definition addView_viewSize (v : IView) (sz : SizeArg) (this : SplitView)
  : num :=
  match sz with
  | size_number n => n
  | size_sizing (split i) => (getViewSize i this / numZ 2)%num
  | size_sizing distribute => minimumSize v
  end.

(** The engine once [addView] has inserted the item and, unless the item
    is alone, pushed a sash. *)
Definition addView_inserted (v : IView) (viewSize : num) (index : Z)
    (this : SplitView) : SplitView :=
  let this1 :=
    set_views (splice_insert (views this) index (Build_IViewItem v viewSize))
      (set_elements (S (elements this)) this) in
  if (1 <? length (views this1))%nat
  then set_sashes (sashes this1 ++ [{| container := elements this1 |}])
         (set_elements (S (elements this1)) this1)
  else this1.

(** The rest of [addView]. *)
Definition addView_settle (sz : SizeArg) (index : Z) (skipLayout : bool)
  : M unit :=
  ((if negb skipLayout then relayout (Some [index]) None else ret tt) ;;
   match sz with
   | size_sizing distribute =>
       if negb skipLayout then distributeViewSizes else ret tt
   | _ => ret tt
   end)%method.

(** The item the constructor makes of a view descriptor. *)
Definition descriptor_item (d : ViewDescriptor) : IViewItem :=
  Build_IViewItem (descriptor_view d) (descriptor_view_size d).

(** What the passes need of the items on a side: each is in the engine,
    without snap size and within its bounds, with its current size as
    baseline. *)
Definition ready (idx : list Z) (sizes : list num) (vs : list IViewItem)
  : Prop :=
  forall i, In i idx ->
    exists it, at_index vs i = Some it /\ plain_in_bounds it = true
               /\ toNumber (at_index sizes i) = size it.


(** The item's minimum is not negative. *)
Definition minimum_not_negative (it : IViewItem) : bool :=
  (zero <=? minimumSize (view it))%num.


(** The [mousemove] handler a sash installs on [mousedown]: [index] is
    the sash's position and [sizes] the sizes of the items, both captured
    at [mousedown]; [delta] is the pointer's offset from where the drag
    began. *)
Definition sash_mousemove (index : Z) (sizes : list num) (delta : num)
  : M unit :=
  (resize index delta (Some sizes) None None ;;
   distributeEmptySpace ;;
   layoutViews)%method.

(** Two item lists with the same contracts that hold the same items at
    the positions [P]. *)
Definition agree (P : list Z) (vs ws : list IViewItem) : Prop :=
  map view vs = map view ws
  /\ forall i, In i P -> at_index vs i = at_index ws i.

(** ** The pane: [PaneviewPanel] *)

(** The fields of [PaneviewPanel] that its size contract reads, and the
    accessors over them. The header, the body and the emitters belong to
    the DOM side and to the base class. *)
Module PaneviewPanel.

Record t : Type := {
  _orthogonalSize : num;
  _minimumBodySize : num;
  _maximumBodySize : num;
  _isExpanded : bool
}.

(** [private headerSize = 22] *)
Definition headerSize : num := numZ 22.

(** [isExpanded()] *)
Definition isExpanded (p : t) : bool := _isExpanded p.

(** [get minimumSize()] *)
Definition minimumSize (p : t) : num :=
  let expanded := isExpanded p in
  let minimumBodySize := if expanded then _minimumBodySize p else zero in
  (headerSize + minimumBodySize)%num.

(** [get maximumSize()] *)
Definition maximumSize (p : t) : num :=
  let expanded := isExpanded p in
  let maximumBodySize := if expanded then _maximumBodySize p else zero in
  (headerSize + maximumBodySize)%num.

(** [set minimumBodySize(value)]: a [value] that is not a number is
    [None]. *)
Definition set_minimumBodySize (value : option num) (p : t) : t :=
  {| _orthogonalSize := _orthogonalSize p;
     _minimumBodySize := match value with Some n => n | None => zero end;
     _maximumBodySize := _maximumBodySize p;
     _isExpanded := _isExpanded p |}.

(** [set maximumBodySize(value)] *)
Definition set_maximumBodySize (value : option num) (p : t) : t :=
  {| _orthogonalSize := _orthogonalSize p;
     _minimumBodySize := _minimumBodySize p;
     _maximumBodySize := match value with Some n => n | None => PInf end;
     _isExpanded := _isExpanded p |}.

End PaneviewPanel.

(** The test [distributeViewSizes] makes of an item to count it as
    flexible. *)
Definition flexible (v : IView) : bool :=
  (maximumSize v - minimumSize v >? zero)%num.

(** The contract [v] states the bounds of the pane [p]. *)
Definition pane_contract (p : PaneviewPanel.t) (v : IView) : Prop :=
  minimumSize v = PaneviewPanel.minimumSize p
  /\ maximumSize v = PaneviewPanel.maximumSize p.

(** A contract the engine can honour: a finite minimum that is at most
    the maximum; it may declare a snap size. *)
Definition contract_ok (v : IView) : bool :=
  match minimumSize v with
  | Fin _ => (minimumSize v <=? maximumSize v)%num
  | _ => false
  end.

(** A size the contract allows: within the bounds, or 0 for an item that
    declares a snap size. *)
Definition valid_size (it : IViewItem) : bool :=
  in_bounds it
  || match snapSize (view it) with
     | Some _ => (size it =? zero)%num
     | None => false
     end.

(** The items at the positions [P] have sizes their contracts allow. *)
Definition valid_at (P : list Z) (vs : list IViewItem) : Prop :=
  forall j, In j P ->
    exists it, at_index vs j = Some it /\ valid_size it = true.

(** What the second loop of [distributeViewSizes] leaves: every flexible
    item at the share clamped into its bounds, the others as they
    were. *)
Definition apply_share (share : num) (vs : list IViewItem)
  : list IViewItem :=
  map (fun it =>
         if flexible (view it)
         then Build_IViewItem (view it)
                (clamp share (minimumSize (view it)) (maximumSize (view it)))
         else it) vs.

(** The share [distributeViewSizes] hands to every flexible item. *)
Definition share_of (vs : list IViewItem) : num :=
  let '(items, flexibleSize) := flexibleViewItems 0 vs zero in
  num_floor (flexibleSize / numZ (Z.of_nat (length items))).

(** ** Safe integers

    The engine computes with doubles.  The item contract speaks of
    integers: a minimum that is an integer at or above 0, a maximum that
    is an integer or unbounded, sizes in whole pixels.  On integers of a
    magnitude up to [2 ^ 31], for at most [2 ^ 16] items, every sum and
    difference the engine forms stays an integer below [2 ^ 53], where
    doubles are exact, and the floor of a quotient of two such integers
    is the floor of the exact quotient: there the exact arithmetic of
    [num] is the arithmetic of the code. *)

(** A finite number of a magnitude up to [2 ^ 31]. *)
Definition bounded (n : num) : bool :=
  (numZ (- 2 ^ 31) <=? n)%num && (n <=? numZ (2 ^ 31))%num.

Definition safe_integer (n : num) : bool := is_integer n && bounded n.

(** A maximum: a safe integer, or unbounded. *)
Definition safe_maximum (n : num) : bool :=
  match n with
  | PInf => true
  | _ => safe_integer n
  end.

Definition safe_contract (v : IView) : bool :=
  safe_integer (minimumSize v) && safe_maximum (maximumSize v).

(** An item of integer bounds at an integer size. *)
Definition safe_sized (it : IViewItem) : bool :=
  safe_integer (size it) && safe_contract (view it).

(** An item without snap size, of integer bounds, at an integer size
    within them. *)
Definition safe_item (it : IViewItem) : bool :=
  plain_in_bounds it && safe_sized it.

(** At most [2 ^ 16] of them. *)
Definition few {A : Type} (l : list A) : bool :=
  (Z.of_nat (length l) <=? 2 ^ 16)%Z.

Definition safe_items (vs : list IViewItem) : bool :=
  forallb safe_item vs && few vs.

(** Bounds of a magnitude up to [2 ^ 31], integers or not; the maximum
    may be unbounded.  With such bounds, such proportions and such a
    container size no product and no sum of the engine overflows. *)
Definition bounded_contract (v : IView) : bool :=
  bounded (minimumSize v)
  && match maximumSize v with
     | PInf => true
     | M => bounded M
     end.


(** A quarter of a pixel, and a number within a quarter of the size
    [s]. *)
Definition quarter : num := Fin (Q2Qc (1 # 4)).

Definition near (x s : num) : bool :=
  (s - quarter <=? x)%num && (x <=? s + quarter)%num.

(** * Properties *)

(** ** Arithmetic on [num] *)

Lemma Qc_eq_Qeq (x y : Qc) : x = y -> (this x == this y)%Q.
Proof. intros ->. reflexivity. Qed.

Lemma Qc_neq_Qeq (x y : Qc) : x <> y -> ~ (this x == this y)%Q.
Proof. intros H E. apply H, Qc_is_canon, E. Qed.

(** Linear arithmetic on [Qc], through [Q]. *)
Ltac qc_norm :=
  repeat match goal with
  | H : @eq Qc _ _ |- _ => apply Qc_eq_Qeq in H
  | H : ~ @eq Qc _ _ |- _ => apply Qc_neq_Qeq in H
  | |- @eq Qc _ _ => apply Qc_is_canon
  | |- ~ @eq Qc _ _ => let H := fresh in intro H
  end;
  repeat progress
    (unfold Qcle, Qclt, Qcplus, Qcminus, Qcopp, Qcmult, Q2Qc in *;
     cbn [this] in *);
  rewrite ?Qred_correct in *; unfold inject_Z in *.

Ltac qc_lra := qc_norm; lra.

Ltac num_unfold :=
  cbv beta iota delta [clamp num_max num_min num_geb num_gtb num_leb num_sub
    num_neg num_add num_ltb num_eqb zero numZ orb andb negb] in *.

Ltac dec_cases :=
  repeat match goal with
  | |- context [Qclt_le_dec ?x ?y] => destruct (Qclt_le_dec x y)
  | H : context [Qclt_le_dec ?x ?y] |- _ => destruct (Qclt_le_dec x y)
  | |- context [Qc_eq_dec ?x ?y] => destruct (Qc_eq_dec x y)
  | H : context [Qc_eq_dec ?x ?y] |- _ => destruct (Qc_eq_dec x y)
  end.

(** Closes a goal on numbers once the variables are constructors. *)
Ltac num_finish :=
  num_unfold; dec_cases; num_unfold;
  try discriminate; try reflexivity; try tauto;
  try (f_equal; qc_lra); try (exfalso; qc_lra); try qc_lra.

Lemma Fin_inj (x y : Qc) : Fin x = Fin y -> x = y.
Proof. intros H. exact (f_equal fin_value H). Qed.

Lemma num_add_comm (a b : num) : (a + b)%num = (b + a)%num.
Proof. destruct a, b; num_finish. Qed.

Lemma num_add_assoc (a b c : num) : (a + (b + c))%num = (a + b + c)%num.
Proof. destruct a, b, c; num_finish. Qed.

Lemma num_add_zero_r (a : num) : (a + zero)%num = a.
Proof. destruct a; num_finish. Qed.

Lemma num_add_zero_l (a : num) : (zero + a)%num = a.
Proof. destruct a; num_finish. Qed.

Lemma num_add_sub_assoc (a b c : num) : (a + b - c)%num = (a + (b - c))%num.
Proof. unfold num_sub. symmetry. apply num_add_assoc. Qed.

Lemma num_add_cancel_fin (a b : num) (x : Qc) :
  (a + Fin x)%num = (b + Fin x)%num -> a = b.
Proof.
  destruct a, b; num_unfold; try discriminate; try reflexivity.
  intros H. apply Fin_inj in H. f_equal. qc_lra.
Qed.

Lemma num_leb_fin (x y : Qc) : (Fin x <=? Fin y)%num = true <-> (x <= y)%Qc.
Proof. split; intros H; num_finish. Qed.

Lemma num_ltb_fin (x y : Qc) : (Fin x <? Fin y)%num = true <-> (x < y)%Qc.
Proof. split; intros H; num_finish. Qed.

Lemma num_eqb_eq (a b : num) : (a =? b)%num = true -> a = b.
Proof. destruct a, b; num_finish. intros _. congruence. Qed.

Lemma num_eqb_fin (x y : Qc) : (Fin x =? Fin y)%num = true <-> x = y.
Proof. split; intros H; num_finish. Qed.

Lemma nums_eqb_eq (a b : list num) : nums_eqb a b = true -> a = b.
Proof.
  revert b. induction a as [|x a IH]; intros [|y b]; cbn; try discriminate.
  - reflexivity.
  - intros H. apply andb_prop in H. destruct H as [H1 H2].
    f_equal; [apply num_eqb_eq, H1 | apply IH, H2].
Qed.

(** ** Arrays and indexes *)

Lemma at_index_nat {A : Type} (a : list A) (k : nat) :
  at_index a (Z.of_nat k) = nth_error a k.
Proof.
  unfold at_index. destruct (Z.ltb_spec (Z.of_nat k) 0); [lia|].
  now rewrite Nat2Z.id.
Qed.

Lemma at_index_in_range {A : Type} (a : list A) (i : Z) :
  in_range a i -> exists x, at_index a i = Some x.
Proof.
  unfold in_range, at_index. intros H.
  destruct (Z.ltb_spec i 0); [lia|].
  destruct (nth_error a (Z.to_nat i)) eqn:E; [eauto|].
  apply nth_error_None in E. lia.
Qed.

Lemma at_index_Some_in_range {A : Type} (a : list A) (i : Z) (x : A) :
  at_index a i = Some x -> in_range a i.
Proof.
  unfold in_range, at_index. destruct (Z.ltb_spec i 0); [discriminate|].
  intros E. assert (Z.to_nat i < length a)%nat
    by (apply nth_error_Some; congruence). lia.
Qed.

Lemma set_size_nat_length (i : nat) (sz : num) (vs : list IViewItem) :
  length (set_size_nat i sz vs) = length vs.
Proof.
  revert i. induction vs as [|v vs IH]; intros [|i]; cbn; auto.
Qed.

Lemma set_size_length (i : Z) (sz : num) (vs : list IViewItem) :
  length (set_size i sz vs) = length vs.
Proof.
  unfold set_size. destruct (i <? 0)%Z; auto using set_size_nat_length.
Qed.

Lemma set_size_nat_views (i : nat) (sz : num) (vs : list IViewItem) :
  map view (set_size_nat i sz vs) = map view vs.
Proof.
  revert i. induction vs as [|v vs IH]; intros [|i]; cbn; auto.
  now rewrite IH.
Qed.

Lemma set_size_views (i : Z) (sz : num) (vs : list IViewItem) :
  map view (set_size i sz vs) = map view vs.
Proof.
  unfold set_size. destruct (i <? 0)%Z; auto using set_size_nat_views.
Qed.

Lemma nth_error_set_size_nat_eq (i : nat) (sz : num) (vs : list IViewItem)
    (item : IViewItem) :
  nth_error vs i = Some item ->
  nth_error (set_size_nat i sz vs) i = Some (Build_IViewItem (view item) sz).
Proof.
  revert i. induction vs as [|v vs IH]; intros [|i]; cbn; try discriminate.
  - now intros [= ->].
  - apply IH.
Qed.

Lemma nth_error_set_size_nat_ne (i j : nat) (sz : num) (vs : list IViewItem) :
  i <> j -> nth_error (set_size_nat i sz vs) j = nth_error vs j.
Proof.
  revert i j. induction vs as [|v vs IH]; intros [|i] [|j] H; cbn; auto.
  - congruence.
Qed.

Lemma at_index_set_size_eq (i : Z) (sz : num) (vs : list IViewItem)
    (item : IViewItem) :
  at_index vs i = Some item ->
  at_index (set_size i sz vs) i = Some (Build_IViewItem (view item) sz).
Proof.
  unfold at_index, set_size. destruct (i <? 0)%Z; [discriminate|].
  apply nth_error_set_size_nat_eq.
Qed.

Lemma at_index_set_size_ne (i j : Z) (sz : num) (vs : list IViewItem) :
  i <> j -> at_index (set_size i sz vs) j = at_index vs j.
Proof.
  unfold at_index, set_size. intros H.
  destruct (Z.ltb_spec i 0), (Z.ltb_spec j 0); auto.
  apply nth_error_set_size_nat_ne. lia.
Qed.

Lemma at_index_view_set_size (i j : Z) (sz : num) (vs : list IViewItem) :
  option_map view (at_index (set_size i sz vs) j)
  = option_map view (at_index vs j).
Proof.
  destruct (Z.eq_dec i j) as [->|H].
  - destruct (at_index vs j) eqn:E.
    + now rewrite (at_index_set_size_eq _ sz _ E).
    + unfold at_index, set_size in *. destruct (j <? 0)%Z; auto.
      apply nth_error_None in E. rewrite (proj2 (nth_error_None _ _)); auto.
      now rewrite set_size_nat_length.
  - now rewrite at_index_set_size_ne.
Qed.

Lemma in_range_set_size (i j : Z) (sz : num) (vs : list IViewItem) :
  in_range (set_size i sz vs) j <-> in_range vs j.
Proof. unfold in_range. now rewrite set_size_length. Qed.

Lemma in_range_iff (from to i : Z) :
  In i (range from to) <->
  ((from <= i < to)%Z \/ (to < i <= from)%Z).
Proof.
  unfold range. destruct (Z.leb_spec from to).
  - rewrite in_map_iff. split.
    + intros (k & <- & Hk). apply in_seq in Hk. lia.
    + intros [Hi|Hi]; [|lia]. exists (Z.to_nat (i - from)). split; [lia|].
      apply in_seq. lia.
  - rewrite in_map_iff. split.
    + intros (k & <- & Hk). apply in_seq in Hk. lia.
    + intros [Hi|Hi]; [lia|]. exists (Z.to_nat (from - i)). split; [lia|].
      apply in_seq. lia.
Qed.

Lemma NoDup_map_inj {A B : Type} (f : A -> B) (l : list A) :
  (forall x y, In x l -> In y l -> f x = f y -> x = y) ->
  NoDup l -> NoDup (map f l).
Proof.
  induction 2 as [|x l Hx Hl IH]; cbn; constructor.
  - rewrite in_map_iff. intros (y & E & Hy).
    apply H in E; cbn; auto. subst. contradiction.
  - apply IH. intros; apply H; cbn; auto.
Qed.

Lemma range_NoDup (from to : Z) : NoDup (range from to).
Proof.
  unfold range. destruct (from <=? to)%Z;
    (apply NoDup_map_inj; [intros; lia | apply seq_NoDup]).
Qed.

Lemma range_empty (from to : Z) : range from to = [] <-> from = to.
Proof.
  split.
  - intros E. destruct (Z.eq_dec from to) as [|Hne]; auto. exfalso.
    assert (H : In from (range from to)) by (apply in_range_iff; lia).
    rewrite E in H. destruct H.
  - intros ->. unfold range. rewrite Z.leb_refl, Z.sub_diag. reflexivity.
Qed.



(** [indexOf] finds the first position of the value. *)
Lemma indexOf_Some (a : list Z) (x : Z) (k : nat) :
  indexOf a x = Some k ->
  a = firstn k a ++ x :: skipn (S k) a /\ ~ In x (firstn k a).
Proof.
  revert k. induction a as [|y a IH]; intros k; cbn; [discriminate|].
  destruct (Z.eqb_spec y x) as [->|Hne].
  - intros [= <-]. cbn. auto.
  - destruct (indexOf a x) as [k'|]; cbn; [|discriminate].
    intros [= <-]. destruct (IH k' eq_refl) as [E Hn].
    cbn [firstn skipn app]. split.
    + f_equal. exact E.
    + intros [?|?]; auto.
Qed.


(** ** Safe integers *)

Lemma bounded_fin (n : num) : bounded n = true -> exists q, n = Fin q.
Proof. destruct n; try discriminate; eauto. Qed.

Lemma safe_integer_fin (n : num) :
  safe_integer n = true -> exists q, n = Fin q.
Proof. destruct n; try discriminate; eauto. Qed.

Lemma safe_integer_finite (n : num) :
  safe_integer n = true -> is_finite n = true.
Proof. destruct n; try discriminate; reflexivity. Qed.

Lemma bounded_all_finite (l : list num) :
  forallb bounded l = true -> forallb is_finite l = true.
Proof.
  intros H. apply forallb_forall. intros n Hn.
  destruct (bounded_fin n (proj1 (forallb_forall _ _) H n Hn)) as [q ->].
  reflexivity.
Qed.


Lemma safe_item_plain (it : IViewItem) :
  safe_item it = true -> plain_in_bounds it = true.
Proof. unfold safe_item. intros H. now apply andb_prop in H as [H _]. Qed.

Lemma safe_items_plain (vs : list IViewItem) :
  safe_items vs = true -> forallb plain_in_bounds vs = true.
Proof.
  unfold safe_items. intros H. apply andb_prop in H as [H _].
  apply forallb_forall. intros it Hit.
  apply safe_item_plain. exact (proj1 (forallb_forall _ _) H it Hit).
Qed.

(** ** The processing order is a rearrangement of the side *)

Lemma pushToStart_perm (arr : list Z) (value : Z) :
  Permutation arr (pushToStart arr value).
Proof.
  unfold pushToStart, remove_at. destruct (indexOf arr value) as [k|] eqn:E; auto.
  destruct (indexOf_Some _ _ E) as [Ha _].
  rewrite Ha at 1. symmetry. apply Permutation_middle.
Qed.

Lemma pushToEnd_perm (arr : list Z) (value : Z) :
  Permutation arr (pushToEnd arr value).
Proof.
  unfold pushToEnd, remove_at. destruct (indexOf arr value) as [k|] eqn:E; auto.
  destruct (indexOf_Some _ _ E) as [Ha _].
  rewrite Ha at 1. rewrite <- app_assoc.
  apply Permutation_app_head.
  apply (Permutation_app_comm [value] (skipn (S k) arr)).
Qed.

Lemma fold_pushToStart_perm (values arr : list Z) :
  Permutation arr (fold_left pushToStart values arr).
Proof.
  revert arr. induction values as [|v values IH]; intros arr; cbn; auto.
  etransitivity; [apply (pushToStart_perm arr v) | apply IH].
Qed.

Lemma fold_pushToEnd_perm (values arr : list Z) :
  Permutation arr (fold_left pushToEnd values arr).
Proof.
  revert arr. induction values as [|v values IH]; intros arr; cbn; auto.
  etransitivity; [apply (pushToEnd_perm arr v) | apply IH].
Qed.

Lemma prioritize_perm (indexes : list Z) (low high : option (list Z)) :
  Permutation indexes (prioritize indexes low high).
Proof.
  unfold prioritize. destruct high as [high|], low as [low|]; auto.
  - etransitivity; [apply fold_pushToStart_perm | apply fold_pushToEnd_perm].
  - apply fold_pushToStart_perm.
  - apply fold_pushToEnd_perm.
Qed.

Lemma upIndexes_in_range (this : SplitView) (index : Z)
    (low high : option (list Z)) :
  (0 <= index < length_ this)%Z ->
  Forall (in_range (views this)) (resize_upIndexes index low high).
Proof.
  intros H. apply Forall_forall. intros i Hi.
  apply (Permutation_in _ (Permutation_sym (prioritize_perm _ low high))) in Hi.
  apply in_range_iff in Hi. unfold in_range, length_ in *. lia.
Qed.

Lemma downIndexes_in_range (this : SplitView) (index : Z)
    (low high : option (list Z)) :
  (0 <= index < length_ this)%Z ->
  Forall (in_range (views this)) (resize_downIndexes index this low high).
Proof.
  intros H. apply Forall_forall. intros i Hi.
  apply (Permutation_in _ (Permutation_sym (prioritize_perm _ low high))) in Hi.
  apply in_range_iff in Hi. unfold in_range, length_ in *. lia.
Qed.

(** ** [resize] returns for a position that holds an item *)

Lemma reduce_indexes_returns (f : num -> IView -> num -> num)
    (indexes : list Z) (vs : list IViewItem) (sizes : list num) (acc : num) :
  Forall (in_range vs) indexes ->
  exists r, reduce_indexes f indexes vs sizes acc = Some r.
Proof.
  intros H. revert acc. induction H as [|i rest Hi _ IH]; intros acc; cbn.
  - eauto.
  - destruct (at_index_in_range Hi) as [item ->]. apply IH.
Qed.

Lemma resize_up_returns (upIndexes : list Z) (sizes : list num)
    (vs : list IViewItem) (deltaUp actualDelta : num) :
  Forall (in_range vs) upIndexes ->
  exists vs' actualDelta',
    resize_up upIndexes sizes vs deltaUp actualDelta = Some (vs', actualDelta')
    /\ map view vs' = map view vs.
Proof.
  intros H. revert vs H deltaUp actualDelta.
  induction upIndexes as [|i rest IH]; intros vs H deltaUp actualDelta; cbn.
  - eauto.
  - inversion H as [|? ? Hi Hrest]; subst.
    destruct (at_index_in_range Hi) as [item ->].
    edestruct IH as (vs' & a' & E & Hv).
    2: { rewrite E. exists vs', a'. split; [reflexivity|].
         rewrite Hv. apply set_size_views. }
    eapply Forall_impl; [|exact Hrest]. intros j. apply in_range_set_size.
Qed.

Lemma resize_down_returns (downIndexes : list Z) (sizes : list num)
    (vs : list IViewItem) (deltaDown : num) :
  Forall (in_range vs) downIndexes ->
  exists vs',
    resize_down downIndexes sizes vs deltaDown = Some vs'
    /\ map view vs' = map view vs.
Proof.
  intros H. revert vs H deltaDown.
  induction downIndexes as [|i rest IH]; intros vs H deltaDown; cbn.
  - eauto.
  - inversion H as [|? ? Hi Hrest]; subst.
    destruct (at_index_in_range Hi) as [item ->].
    edestruct IH as (vs' & E & Hv).
    2: { rewrite E. exists vs'. split; [reflexivity|].
         rewrite Hv. apply set_size_views. }
    eapply Forall_impl; [|exact Hrest]. intros j. apply in_range_set_size.
Qed.

Lemma in_range_same_views (vs vs' : list IViewItem) (i : Z) :
  map view vs' = map view vs -> in_range vs i -> in_range vs' i.
Proof.
  unfold in_range. intros E.
  now rewrite <- (length_map view vs'), E, length_map.
Qed.

Lemma resize_apply_returns (upIndexes downIndexes : list Z)
    (sizes : list num) (vs : list IViewItem) (tentativeDelta : num) :
  Forall (in_range vs) upIndexes -> Forall (in_range vs) downIndexes ->
  exists vs',
    resize_apply upIndexes downIndexes sizes vs tentativeDelta = Some vs'
    /\ map view vs' = map view vs.
Proof.
  intros Hu Hd. unfold resize_apply.
  destruct (resize_up_returns sizes tentativeDelta zero Hu)
    as (vs1 & a & -> & Hv1).
  destruct (@resize_down_returns downIndexes sizes vs1 a) as (vs2 & -> & Hv2).
  - eapply Forall_impl; [|exact Hd]. intros j. now apply in_range_same_views.
  - exists vs2. split; congruence.
Qed.

Lemma resize_tentativeDelta_returns (upIndexes downIndexes : list Z)
    (sizes : list num) (vs : list IViewItem) (delta : num) :
  Forall (in_range vs) upIndexes -> Forall (in_range vs) downIndexes ->
  exists d, resize_tentativeDelta upIndexes downIndexes sizes vs delta = Some d.
Proof.
  intros Hu Hd. unfold resize_tentativeDelta.
  destruct (reduce_indexes_returns
              (fun acc v s => (acc + snapOrMinimum v - s)%num) sizes zero Hu)
    as [r1 ->].
  destruct (reduce_indexes_returns
              (fun acc v s => (acc + maximumSize v - s)%num) sizes zero Hu)
    as [r2 ->].
  destruct (reduce_indexes_returns
              (fun acc v s => (acc + s - snapOrMinimum v)%num) sizes zero Hd)
    as [r3 ->].
  destruct (reduce_indexes_returns
              (fun acc v s => (acc + s - maximumSize v)%num) sizes zero Hd)
    as [r4 ->].
  destruct (length downIndexes =? 0)%nat; eauto.
Qed.

(** For [0 <= index < length], [resize] returns; it touches nothing but the
    sizes of the items. *)
Lemma resize_returns (this : SplitView) (index : Z) (delta : num)
    (sizes : option (list num)) (low high : option (list Z)) :
  (0 <= index < length_ this)%Z ->
  exists vs,
    resize index delta sizes low high this = Returns tt (set_views vs this)
    /\ map view vs = map view (views this).
Proof.
  intros H. unfold resize.
  destruct (Z.ltb_spec index 0); [lia|].
  destruct (Z.gtb_spec index (length_ this)); [lia|]. cbn [orb].
  pose proof (upIndexes_in_range this low high H) as Hu.
  pose proof (downIndexes_in_range this low high H) as Hd.
  set (sz := match sizes with Some s => s | None => sizes_of (views this) end).
  destruct (resize_tentativeDelta_returns sz delta Hu Hd) as [d ->].
  destruct (resize_apply_returns sz d Hu Hd) as (vs & -> & Hv).
  eauto.
Qed.

Lemma resize_noop (this : SplitView) (index : Z) (delta : num)
    (sizes : option (list num)) (low high : option (list Z)) :
  (index < 0 \/ length_ this < index)%Z ->
  resize index delta sizes low high this = Returns tt this.
Proof.
  intros H. unfold resize.
  destruct (Z.ltb_spec index 0); auto.
  destruct (Z.gtb_spec index (length_ this)); auto. lia.
Qed.

(** ** Settling: [layoutViews], [saveProportions], [relayout] *)

Lemma layoutViews_returns (this : SplitView) :
  (length (views this) - 1 <= length (sashes this))%nat ->
  layoutViews this = Returns tt (set_contentSize (sum_sizes (views this)) this).
Proof.
  intros H. unfold layoutViews. cbn [sashes views set_contentSize].
  destruct (Nat.ltb_spec (length (sashes this)) (length (views this) - 1));
    [lia | reflexivity].
Qed.

Lemma saveProportions_returns (this : SplitView) :
  exists this',
    saveProportions this = Returns tt this'
    /\ views this' = views this /\ sashes this' = sashes this
    /\ this_size this' = this_size this
    /\ contentSize this' = contentSize this
    /\ elements this' = elements this.
Proof.
  unfold saveProportions.
  destruct (toNumber (contentSize this) >? zero)%num; eexists; split;
    try reflexivity; cbn; auto.
Qed.

(** [relayout] on an engine with enough sashes returns; the item sizes it
    leaves are those of its call to [resize]. *)
Lemma relayout_returns (this : SplitView) (low high : option (list Z)) :
  (length (views this) - 1 <= length (sashes this))%nat ->
  exists vs this',
    resize (length_ this - 1)
      (toNumber (this_size this) - sum_sizes (views this))%num
      None low high this = Returns tt (set_views vs this)
    /\ relayout low high this = Returns tt this'
    /\ views this' = vs
    /\ map view vs = map view (views this)
    /\ sashes this' = sashes this
    /\ this_size this' = this_size this
    /\ contentSize this' = Some (sum_sizes vs)
    /\ elements this' = elements this.
Proof.
  intros Hs.
  assert (Hr : exists vs,
    resize (length_ this - 1)
      (toNumber (this_size this) - sum_sizes (views this))%num
      None low high this = Returns tt (set_views vs this)
    /\ map view vs = map view (views this)).
  { destruct (Z.eq_dec (length_ this) 0) as [E|E].
    - exists (views this). rewrite resize_noop by lia.
      split; [|reflexivity]. now destruct this.
    - apply resize_returns. unfold length_ in *. lia. }
  destruct Hr as (vs & Hr & Hv). exists vs.
  unfold relayout, bind, get. rewrite Hr.
  assert (Hl : length vs = length (views this))
    by (rewrite <- (length_map view vs), Hv; apply length_map).
  rewrite layoutViews_returns by (cbn; lia).
  destruct (saveProportions_returns
              (set_contentSize (sum_sizes (views (set_views vs this)))
                 (set_views vs this)))
    as (this' & -> & E1 & E2 & E3 & E4 & E5).
  exists this'. repeat split; auto.
Qed.

Lemma distributeEmptySpace_loop_views (n : nat) (vs : list IViewItem)
    (emptyDelta : num) :
  map view (distributeEmptySpace_loop n vs emptyDelta) = map view vs.
Proof.
  revert vs emptyDelta. induction n as [|i IH]; intros vs e; cbn; auto.
  destruct (e =? zero)%num; auto.
  destruct (nth_error vs i); auto.
  rewrite IH. apply set_size_nat_views.
Qed.

Lemma distribute_loop_views (items : list nat) (share : num)
    (vs : list IViewItem) :
  map view (distribute_loop items share vs) = map view vs.
Proof.
  revert vs. induction items as [|i rest IH]; intros vs; cbn; auto.
  destruct (nth_error vs i); auto.
  rewrite IH. apply set_size_nat_views.
Qed.

Lemma same_views_length (vs vs' : list IViewItem) :
  map view vs' = map view vs -> length vs' = length vs.
Proof.
  intros E. now rewrite <- (length_map view vs'), E, length_map.
Qed.

Lemma distributeViewSizes_returns (this : SplitView) :
  (length (views this) - 1 <= length (sashes this))%nat ->
  exists this',
    distributeViewSizes this = Returns tt this'
    /\ map view (views this') = map view (views this)
    /\ sashes this' = sashes this
    /\ elements this' = elements this.
Proof.
  intros Hs. unfold distributeViewSizes, bind, get, modify.
  destruct (flexibleViewItems 0 (views this) zero) as [items flexibleSize].
  set (vs1 := distribute_loop items _ (views this)).
  assert (Hv1 : map view vs1 = map view (views this))
    by apply distribute_loop_views.
  destruct (@relayout_returns (set_views vs1 this) None None)
    as (vs & this' & _ & -> & E1 & E2 & E3 & _ & _ & E4).
  - cbn. rewrite (same_views_length _ _ Hv1). exact Hs.
  - exists this'. cbn in *. subst vs. repeat split; auto; congruence.
Qed.

Lemma distributeEmptySpace_returns (this : SplitView) :
  exists this',
    distributeEmptySpace this = Returns tt this'
    /\ map view (views this') = map view (views this)
    /\ sashes this' = sashes this
    /\ elements this' = elements this.
Proof.
  unfold distributeEmptySpace. eexists. split; [reflexivity|]. cbn.
  split; [apply distributeEmptySpace_loop_views | auto].
Qed.

(** ** Out-of-range positions, and the empty engine *)

(** C7. Out-of-range positions are no-ops: [getViewSize] answers the
    sentinel -1 and [resizeView] changes nothing for a position outside
    [0, itemCount); [resize] changes nothing for a position outside
    [0, itemCount]; an engine without items has maximum size +infinity and
    minimum size 0. *)
Theorem out_of_range_is_noop (this : SplitView) (index : Z)
    (requested delta : num) (sizes : option (list num))
    (low high : option (list Z)) :
  ((index < 0 \/ length_ this <= index)%Z ->
     getViewSize index this = numZ (-1)
     /\ resizeView index requested this = Returns tt this)
  /\ ((index < 0 \/ length_ this < index)%Z ->
        resize index delta sizes low high this = Returns tt this)
  /\ (views this = [] ->
        get_maximumSize this = PInf /\ get_minimumSize this = zero).
Proof.
  repeat split.
  - unfold getViewSize. destruct H as [H|H].
    + destruct (Z.ltb_spec index 0); [reflexivity | lia].
    + destruct (Z.geb_spec index (length_ this)); [|lia].
      now rewrite orb_true_r.
  - unfold resizeView, bind, get, ret. destruct H as [H|H].
    + destruct (Z.ltb_spec index 0); [reflexivity | lia].
    + destruct (Z.geb_spec index (length_ this)); [|lia].
      now rewrite orb_true_r.
  - now apply resize_noop.
  - unfold get_maximumSize, length_. now rewrite H.
  - unfold get_minimumSize. now rewrite H.
Qed.

Lemma out_of_range_is_noop_witness :
  let this :=
    engine [item (numZ 50) PInf None (numZ 100);
            item (numZ 50) PInf None (numZ 100)] (numZ 200) in
  getViewSize 2 this = numZ (-1)
  /\ resizeView 2 (numZ 10) this = Returns tt this
  /\ resize 3 (numZ 10) None None None this = Returns tt this
  /\ get_maximumSize (engine [] (numZ 200)) = PInf
  /\ get_minimumSize (engine [] (numZ 200)) = zero.
Proof.
  intros this.
  pose proof (@out_of_range_is_noop this 2 (numZ 10) (numZ 10) None None None)
    as (H1 & _ & _).
  pose proof (@out_of_range_is_noop this 3 (numZ 10) (numZ 10) None None None)
    as (_ & H2 & _).
  pose proof (@out_of_range_is_noop (engine [] (numZ 200)) 0 zero zero
                None None None) as (_ & _ & H3).
  destruct H1 as [H1a H1b]; [right; cbn; lia|].
  specialize (H2 ltac:(right; cbn; lia)).
  destruct (H3 eq_refl) as [H3a H3b].
  repeat split; assumption.
Defined.

(** ** Saving the proportions *)

(** C8. When the proportions are saved with a recorded content size
    above zero, the engine afterwards holds one proportion per item, each
    the item's size divided by the content size, and is otherwise as
    before; with a content size that is zero, negative or unset the
    engine, proportions included, stays as it is. *)
Theorem saveProportions_spec (this : SplitView) :
  exists this',
    saveProportions this = Returns tt this'
    /\ views this' = views this
    /\ sashes this' = sashes this
    /\ this_size this' = this_size this
    /\ contentSize this' = contentSize this
    /\ ((toNumber (contentSize this) >? zero)%num = true ->
        exists ps,
          _proportions this' = Some ps
          /\ length ps = length (views this)
          /\ forall i it, nth_error (views this) i = Some it ->
               nth_error ps i
               = Some (size it / toNumber (contentSize this))%num)
    /\ ((toNumber (contentSize this) >? zero)%num = false ->
        this' = this).
Proof.
  unfold saveProportions.
  destruct (toNumber (contentSize this) >? zero)%num.
  - eexists. split; [reflexivity|]. cbn [views sashes this_size contentSize
      _proportions set_proportions]. repeat split; try discriminate.
    intros _. eexists. split; [reflexivity|]. split; [apply length_map|].
    intros i it Hi. now rewrite nth_error_map, Hi.
  - exists this. repeat split; discriminate.
Qed.

Lemma saveProportions_spec_witness :
  let this :=
    engine [item zero PInf None (numZ 50); item zero PInf None (numZ 150)]
      (numZ 200) in
  (exists this',
     saveProportions this = Returns tt this'
     /\ _proportions this'
        = Some [(numZ 50 / numZ 200)%num; (numZ 150 / numZ 200)%num])
  /\ saveProportions (set_contentSize zero this)
     = Returns tt (set_contentSize zero this).
Proof.
  intros this. split.
  - destruct (saveProportions_spec this)
      as (this' & E & _ & _ & _ & _ & Hp & _).
    exists this'. split; [exact E|].
    destruct (Hp eq_refl) as (ps & -> & Hl & Hn). f_equal.
    destruct ps as [|p0 [|p1 [|p2 ps]]]; try discriminate Hl.
    pose proof (Hn 0%nat _ eq_refl) as H0.
    pose proof (Hn 1%nat _ eq_refl) as H1.
    cbn [nth_error] in H0, H1. injection H0 as ->. injection H1 as ->.
    reflexivity.
  - destruct (saveProportions_spec (set_contentSize zero this))
      as (this' & E & _ & _ & _ & _ & _ & Hf).
    rewrite E, (Hf eq_refl). reflexivity.
Defined.

(** ** Dragging the sash between two items *)

(** C3. Two items of baseline 100 and 100 in a container of 200, the sash
    between them dragged by +30: with minimums 50 and 50 and no maximums
    the items become 130 and 70; with the second minimum at 90 they become
    110 and 90. *)
Theorem resize_scenarios_B_C :
  (exists this',
     resize 0 (numZ 30) (Some [numZ 100; numZ 100]) None None
       (engine [item (numZ 50) PInf None (numZ 100);
                item (numZ 50) PInf None (numZ 100)] (numZ 200))
     = Returns tt this'
     /\ sizes_of (views this') = [numZ 130; numZ 70])
  /\ (exists this',
        resize 0 (numZ 30) (Some [numZ 100; numZ 100]) None None
          (engine [item (numZ 50) PInf None (numZ 100);
                   item (numZ 90) PInf None (numZ 100)] (numZ 200))
        = Returns tt this'
        /\ sizes_of (views this') = [numZ 110; numZ 90]).
Proof.
  split; eexists; (split; [vm_compute; reflexivity|]);
    apply nums_eqb_eq; vm_compute; reflexivity.
Qed.

(** ** Adding and removing items *)

Lemma splice_start_le (len : nat) (start : Z) : (splice_start len start <= len)%nat.
Proof.
  unfold splice_start. destruct (Z.ltb_spec start 0); lia.
Qed.

Lemma splice_insert_length {A : Type} (a : list A) (start : Z) (x : A) :
  length (splice_insert a start x) = S (length a).
Proof.
  unfold splice_insert. pose proof (splice_start_le (length a) start).
  rewrite length_app. cbn. rewrite length_firstn, length_skipn. lia.
Qed.

Lemma splice_remove_some {A : Type} (a : list A) (start : Z) :
  (splice_start (length a) start < length a)%nat ->
  exists x,
    nth_error a (splice_start (length a) start) = Some x
    /\ fst (splice_remove a start) = [x]
    /\ S (length (snd (splice_remove a start))) = length a.
Proof.
  unfold splice_remove. set (k := splice_start (length a) start). intros Hk.
  cbn [fst snd].
  destruct (nth_error a k) as [x|] eqn:E;
    [|apply nth_error_None in E; lia].
  exists x. split; [reflexivity|].
  destruct (nth_error_split a k E) as (l1 & l2 & -> & Hl).
  rewrite <- Hl. split.
  - rewrite skipn_app, skipn_all, Nat.sub_diag. reflexivity.
  - rewrite length_app, length_firstn, length_skipn, length_app. cbn. lia.
Qed.

Lemma splice_remove_none {A : Type} (a : list A) (start : Z) :
  (length a <= splice_start (length a) start)%nat ->
  splice_remove a start = ([], a).
Proof.
  unfold splice_remove. intros Hk. cbv zeta.
  rewrite (skipn_all2 a Hk), (@skipn_all2 _ (S _) a) by lia.
  rewrite (firstn_all2 a Hk). now rewrite app_nil_r.
Qed.

Lemma set_views_same (this : SplitView) : set_views (views this) this = this.
Proof. now destruct this. Qed.

(** [removeView] at or past the end, or on an engine without items,
    throws at the [dispose] of the missing item, before anything is
    changed. *)
Lemma removeView_throws (this : SplitView) (index : Z)
    (sizing : option Sizing) :
  (length_ this <= index)%Z \/ views this = [] ->
  removeView index sizing this = Throws this.
Proof.
  intros H. unfold removeView, bind, get, modify.
  rewrite splice_remove_none.
  - cbn. unfold throw. now rewrite set_views_same.
  - destruct H as [H|H].
    + unfold splice_start, length_ in *.
      destruct (Z.ltb_spec index 0); lia.
    + rewrite H. cbn. lia.
Qed.

(** [removeView] before the end of an engine that holds items and the
    sashes between them returns the item at the position [splice] starts
    from, with one item less and, if an item remains, one sash less. *)
Lemma removeView_returns (this : SplitView) (index : Z)
    (sizing : option Sizing) :
  sash_invariant this -> (index < length_ this)%Z -> views this <> [] ->
  exists it this',
    nth_error (views this) (splice_start (length (views this)) index)
    = Some it
    /\ removeView index sizing this = Returns (view it) this'
    /\ S (length (views this')) = length (views this)
    /\ length (sashes this)
       = (length (sashes this')
          + if (1 <=? length (views this'))%nat then 1 else 0)%nat.
Proof.
  unfold sash_invariant, length_. intros Hinv Hi Hne.
  assert (Hlen : (0 < length (views this))%nat)
    by (destruct (views this); [congruence | cbn; lia]).
  assert (Hk : (splice_start (length (views this)) index
                < length (views this))%nat).
  { unfold splice_start. destruct (Z.ltb_spec index 0); lia. }
  destruct (splice_remove_some (views this) index Hk) as (it & Hit & Hf & Hl).
  exists it. unfold removeView, bind, get, modify, ret.
  destruct (splice_remove (views this) index) as [removed rest].
  cbn [fst snd] in Hf, Hl. subst removed. cbn [views set_views].
  destruct (Nat.leb_spec 1 (length rest)) as [H1|H1].
  - (* an item remains: a sash goes *)
    assert (Hks : (splice_start (length (sashes this)) (Z.max (index - 1) 0)
                   < length (sashes this))%nat).
    { unfold splice_start.
      destruct (Z.ltb_spec (Z.max (index - 1) 0) 0); lia. }
    destruct (splice_remove_some (sashes this) _ Hks) as (s & _ & Hsf & Hsl).
    cbn [sashes set_views].
    destruct (splice_remove (sashes this) (Z.max (index - 1) 0))
      as [removedSashes restSashes].
    cbn [fst snd] in Hsf, Hsl. subst removedSashes.
    set (this1 := set_sashes restSashes (set_views rest this)).
    destruct (@relayout_returns this1 None None)
      as (vs & this2 & _ & -> & E1 & E2 & E3 & _ & _ & _);
      [cbn; lia|].
    destruct (distributeEmptySpace_returns this2)
      as (this3 & -> & F1 & F2 & _).
    assert (L3 : length (views this3) = length rest).
    { rewrite (same_views_length _ _ F1), E1.
      apply (same_views_length _ _ E2). }
    assert (S3 : sashes this3 = restSashes) by (rewrite F2, E3; reflexivity).
    destruct sizing as [[|]|].
    + destruct (@distributeViewSizes_returns this3)
        as (this4 & -> & G1 & G2 & _); [rewrite L3, S3; lia|].
      exists this4. rewrite (same_views_length _ _ G1), G2, L3, S3.
      destruct (Nat.leb_spec 1 (length rest)); [|lia].
      repeat split; auto; lia.
    + exists this3. rewrite L3, S3.
      destruct (Nat.leb_spec 1 (length rest)); [|lia].
      repeat split; auto; lia.
    + exists this3. rewrite L3, S3.
      destruct (Nat.leb_spec 1 (length rest)); [|lia].
      repeat split; auto; lia.
  - (* the last item went: no sash to remove *)
    set (this1 := set_views rest this).
    destruct (@relayout_returns this1 None None)
      as (vs & this2 & _ & -> & E1 & E2 & E3 & _ & _ & _);
      [cbn; lia|].
    destruct (distributeEmptySpace_returns this2)
      as (this3 & -> & F1 & F2 & _).
    assert (L3 : length (views this3) = length rest).
    { rewrite (same_views_length _ _ F1), E1.
      apply (same_views_length _ _ E2). }
    assert (S3 : sashes this3 = sashes this)
      by (rewrite F2, E3; reflexivity).
    destruct sizing as [[|]|].
    + destruct (@distributeViewSizes_returns this3)
        as (this4 & -> & G1 & G2 & _); [rewrite L3, S3; lia|].
      exists this4. rewrite (same_views_length _ _ G1), G2, L3, S3.
      destruct (Nat.leb_spec 1 (length rest)); [lia|].
      repeat split; auto; lia.
    + exists this3. rewrite L3, S3.
      destruct (Nat.leb_spec 1 (length rest)); [lia|].
      repeat split; auto; lia.
    + exists this3. rewrite L3, S3.
      destruct (Nat.leb_spec 1 (length rest)); [lia|].
      repeat split; auto; lia.
Qed.

(** [addView] with a size or a sizing returns, for every position: one
    item more and, unless the item is alone, one sash more. *)
Lemma addView_returns (this : SplitView) (v : IView) (sz : SizeArg)
    (index : option Z) (skipLayout : bool) :
  sash_invariant this ->
  exists this',
    addView v (Some sz) index skipLayout this = Returns tt this'
    /\ length (views this') = S (length (views this))
    /\ length (sashes this')
       = (length (sashes this)
          + if (1 <? length (views this'))%nat then 1 else 0)%nat.
Proof.
  unfold sash_invariant, length_. intros Hinv.
  unfold addView, bind, get, modify, ret.
  set (index' := match index with Some i => i | None => _ end).
  set (viewSize := match sz with size_number n => n | _ => _ end).
  cbn [views set_views set_elements sashes elements].
  set (vs1 := splice_insert (views this) index' (Build_IViewItem v viewSize)).
  assert (L1 : length vs1 = S (length (views this)))
    by apply splice_insert_length.
  set (this1 := set_views vs1 (set_elements (S (elements this)) this)).
  match goal with
  | |- exists _, match ?m with _ => _ end = _ /\ _ =>
      assert (Hstep : exists this2,
        m = Returns tt this2 /\ views this2 = vs1
        /\ length (sashes this2)
           = (length (sashes this)
              + if (1 <? length vs1)%nat then 1 else 0)%nat)
  end.
  { destruct (1 <? length vs1)%nat; eexists; (split; [reflexivity|]); cbn.
    - split; auto. rewrite length_app. cbn. lia.
    - split; auto. }
  destruct Hstep as (this2 & -> & V2 & S2).
  assert (Hs2 : (length (views this2) - 1 <= length (sashes this2))%nat).
  { rewrite V2, S2, L1.
    destruct (Nat.ltb_spec 1 (S (length (views this)))); lia. }
  match goal with
  | |- exists _, match ?m with _ => _ end = _ /\ _ =>
      assert (Hlay : exists this3,
        m = Returns tt this3 /\ length (views this3) = length vs1
        /\ sashes this3 = sashes this2)
  end.
  { destruct skipLayout; cbn [negb].
    - exists this2. rewrite V2. auto.
    - destruct (@relayout_returns this2 (Some [index']) None Hs2)
        as (vs & this3 & _ & -> & E1 & E2 & E3 & _).
      exists this3. rewrite E1, (same_views_length _ _ E2), V2. auto. }
  destruct Hlay as (this3 & -> & L3 & S3).
  assert (Hs3 : (length (views this3) - 1 <= length (sashes this3))%nat)
    by (rewrite L3, S3, <- V2; exact Hs2).
  destruct sz as [n|[|i]].
  - exists this3. rewrite L3, S3, S2, L1. auto.
  - destruct skipLayout; cbn [negb].
    + exists this3. rewrite L3, S3, S2, L1. auto.
    + destruct (distributeViewSizes_returns this3 Hs3)
        as (this4 & -> & G1 & G2 & _).
      exists this4.
      rewrite (same_views_length _ _ G1), G2, L3, S3, S2, L1. auto.
  - exists this3. rewrite L3, S3, S2, L1. auto.
Qed.

Lemma sash_invariant_intro (this this' : SplitView) (n : nat) :
  sash_invariant this ->
  length (views this') = n ->
  (length (sashes this') + (if (1 <=? n)%nat then 1 else 0)
   = length (sashes this) /\ S n = length (views this)
   \/ length (sashes this')
      = length (sashes this) + (if (1 <? n)%nat then 1 else 0)
      /\ n = S (length (views this)))%nat ->
  sash_invariant this'.
Proof.
  unfold sash_invariant, length_. intros Hinv Hn H. rewrite Hn.
  destruct (Nat.leb_spec 1 n), (Nat.ltb_spec 1 n); lia.
Qed.

(** C9. On an engine whose sashes number max(itemCount - 1, 0), they
    still do after [addView] (at any position) and after [removeView] at a
    position that holds an item: [addView] adds one item and exactly one
    sash when the item is not alone, [removeView] removes one item and
    exactly one sash when an item remains. *)
Theorem sash_count_invariant (this : SplitView) (v : IView) (sz : SizeArg)
    (addIndex : option Z) (skipLayout : bool) (removeIndex : Z)
    (sizing : option Sizing) :
  sash_invariant this ->
  (exists this',
     addView v (Some sz) addIndex skipLayout this = Returns tt this'
     /\ sash_invariant this'
     /\ length (views this') = S (length (views this))
     /\ length (sashes this')
        = (length (sashes this)
           + if (1 <? length (views this'))%nat then 1 else 0)%nat)
  /\ ((0 <= removeIndex < length_ this)%Z ->
      exists removed this',
        removeView removeIndex sizing this = Returns removed this'
        /\ sash_invariant this'
        /\ S (length (views this')) = length (views this)
        /\ length (sashes this)
           = (length (sashes this')
              + if (1 <=? length (views this'))%nat then 1 else 0)%nat).
Proof.
  intros Hinv. split.
  - destruct (addView_returns v sz addIndex skipLayout Hinv)
      as (this' & E & L & Hs).
    exists this'. repeat split; auto.
    apply (@sash_invariant_intro this this' _ Hinv eq_refl).
    right. auto.
  - intros Hi.
    destruct (@removeView_returns this removeIndex sizing Hinv)
      as (it & this' & _ & E & L & Hs); [lia | |].
    + unfold length_ in Hi. destruct (views this); [cbn in Hi; lia | congruence].
    + exists (view it), this'. repeat split; auto.
      apply (@sash_invariant_intro this this' _ Hinv eq_refl).
      left. split; [lia | exact L].
Qed.

Lemma sash_count_invariant_witness :
  let this :=
    engine [item (numZ 50) PInf None (numZ 100);
            item (numZ 50) PInf None (numZ 100)] (numZ 200) in
  let v := {| minimumSize := numZ 50; maximumSize := PInf;
              snapSize := None |} in
  (exists this',
     addView v (Some (size_sizing distribute)) None false this
     = Returns tt this'
     /\ sash_invariant this'
     /\ length (views this') = 3%nat
     /\ length (sashes this') = 2%nat)
  /\ (exists removed this',
        removeView 1 None this = Returns removed this'
        /\ sash_invariant this'
        /\ S (length (views this')) = 2%nat
        /\ 1%nat
           = (length (sashes this')
              + if (1 <=? length (views this'))%nat then 1 else 0)%nat).
Proof.
  intros this v.
  assert (Hinv : sash_invariant this) by reflexivity.
  destruct (@sash_count_invariant this v (size_sizing distribute) None false
              1 None Hinv) as [Hadd Hremove].
  split.
  - destruct Hadd as (this' & E & I & L & Hs). exists this'.
    repeat split; auto. rewrite Hs, L. reflexivity.
  - apply Hremove. cbn. lia.
Defined.

(** ** The delta [resize] applies *)

Lemma sum_over_perm (l l' : list Z) (term : Z -> num) :
  Permutation l l' -> sum_over l term = sum_over l' term.
Proof.
  unfold sum_over.
  induction 1 as [|x l l' _ IH|x y l|l l' l'' _ IH1 _ IH2]; cbn [fold_right].
  - reflexivity.
  - now rewrite IH.
  - rewrite !num_add_assoc. f_equal. apply num_add_comm.
  - congruence.
Qed.

(** A [reduce] whose step adds a term of the item is the sum of the
    terms, whatever the order. *)
Lemma reduce_indexes_sum (f : num -> IView -> num -> num)
    (term : IView -> num -> num) (indexes : list Z) (vs : list IViewItem)
    (sizes : list num) (acc : num) :
  (forall a v s, f a v s = (a + term v s)%num) ->
  Forall (in_range vs) indexes ->
  reduce_indexes f indexes vs sizes acc
  = Some (acc + sum_over indexes (item_term term vs sizes))%num.
Proof.
  intros Hf H. revert acc. unfold sum_over.
  induction H as [|i rest Hi _ IH]; intros acc;
    cbn [reduce_indexes fold_right].
  - now rewrite num_add_zero_r.
  - unfold item_term at 1. destruct (at_index_in_range Hi) as [it ->].
    rewrite IH, Hf. now rewrite num_add_assoc.
Qed.

Lemma in_interval_iff (lo hi i : Z) :
  In i (interval lo hi) <-> (lo <= i <= hi)%Z.
Proof.
  unfold interval. rewrite in_map_iff. split.
  - intros (k & <- & Hk). apply in_seq in Hk. lia.
  - intros Hi. exists (Z.to_nat (i - lo)). split; [lia|]. apply in_seq. lia.
Qed.

Lemma interval_NoDup (lo hi : Z) : NoDup (interval lo hi).
Proof.
  unfold interval. apply NoDup_map_inj; [intros; lia | apply seq_NoDup].
Qed.

Lemma range_down_interval (index : Z) :
  (0 <= index)%Z ->
  Permutation (interval 0 index) (range index (-1)).
Proof.
  intros H.
  apply NoDup_Permutation; [apply interval_NoDup | apply range_NoDup|].
  intros i. rewrite in_interval_iff, in_range_iff. lia.
Qed.

Lemma range_up_interval (index len : Z) :
  (index < len)%Z ->
  Permutation (interval (index + 1) (len - 1)) (range (index + 1) len).
Proof.
  intros H.
  apply NoDup_Permutation; [apply interval_NoDup | apply range_NoDup|].
  intros i. rewrite in_interval_iff, in_range_iff. lia.
Qed.

Lemma snapOrMinimum_effective (v : IView) :
  snapOrMinimum v = effectiveMinimum v.
Proof. reflexivity. Qed.

Lemma downIndexes_empty (this : SplitView) (index : Z)
    (low high : option (list Z)) :
  (0 <= index < length_ this)%Z ->
  (length (resize_downIndexes index this low high) =? 0)%nat
  = (index =? Z.of_nat (length (views this)) - 1)%Z.
Proof.
  intros H. unfold resize_downIndexes.
  rewrite <- (Permutation_length (prioritize_perm _ low high)).
  unfold length_ in *.
  destruct (Z.eqb_spec index (Z.of_nat (length (views this)) - 1)) as [E|E].
  - replace (index + 1)%Z with (Z.of_nat (length (views this))) by lia.
    now rewrite (proj2 (range_empty _ _) eq_refl).
  - destruct (range (index + 1) (Z.of_nat (length (views this)))) eqn:R.
    + apply range_empty in R. lia.
    + reflexivity.
Qed.

(** The delta handed to the two passes is the clamped delta of the
    specification. *)
Lemma resize_tentativeDelta_spec (this : SplitView) (index : Z)
    (delta : num) (baseline : list num) (low high : option (list Z)) :
  (0 <= index < length_ this)%Z ->
  resize_tentativeDelta (resize_upIndexes index low high)
    (resize_downIndexes index this low high) baseline (views this) delta
  = Some (spec_clamped_delta (views this) baseline index delta).
Proof.
  intros H.
  pose proof (upIndexes_in_range this low high H) as Hu.
  pose proof (downIndexes_in_range this low high H) as Hd.
  unfold resize_tentativeDelta.
  rewrite (@reduce_indexes_sum _
             (fun v s => (effectiveMinimum v - s)%num))
    by (auto using num_add_sub_assoc).
  rewrite (@reduce_indexes_sum _ (fun v s => (maximumSize v - s)%num))
    by (auto using num_add_sub_assoc).
  rewrite (downIndexes_empty this low high H).
  rewrite (@reduce_indexes_sum _
             (fun v s => (s - effectiveMinimum v)%num))
    by (auto using num_add_sub_assoc).
  rewrite (@reduce_indexes_sum _ (fun v s => (s - maximumSize v)%num))
    by (auto using num_add_sub_assoc).
  rewrite !num_add_zero_l.
  unfold spec_clamped_delta, spec_minDeltaUp, spec_maxDeltaUp,
    spec_minDeltaDown, spec_maxDeltaDown.
  assert (Hup := @range_down_interval index ltac:(lia)).
  assert (Hdown := @range_up_interval index
                     (Z.of_nat (length (views this)))
                     ltac:(unfold length_ in H; lia)).
  rewrite !(sum_over_perm _ Hup), !(sum_over_perm _ Hdown).
  unfold resize_upIndexes, resize_downIndexes.
  rewrite <- !(sum_over_perm _ (prioritize_perm (range index (-1)) low high)).
  unfold length_.
  rewrite <- !(sum_over_perm _
                 (prioritize_perm
                    (range (index + 1) (Z.of_nat (length (views this))))
                    low high)).
  destruct (index =? Z.of_nat (length (views this)) - 1)%Z; reflexivity.
Qed.

(** C1. For a position that holds an item, items of integer bounds and
    an integer baseline size at every position, the delta [resize]
    applies to its two passes is the requested delta clamped into
    [max(minDeltaUp, minDeltaDown), min(maxDeltaDown, maxDeltaUp)], with
    minDeltaUp the sum over the items 0..index of effective minimum minus
    baseline size, maxDeltaUp the sum of maximum minus baseline size, the
    effective minimum 0 for an item with a snap size, and the down side
    -infinity and +infinity when [index] is the last position; whatever
    priorities are given. *)
Theorem resize_applies_clamped_delta (this : SplitView) (index : Z)
    (delta : num) (sizes : option (list num)) (low high : option (list Z)) :
  (0 <= index < length_ this)%Z ->
  forallb safe_contract (map view (views this)) = true ->
  few (views this) = true ->
  let baseline :=
    match sizes with
    | Some sizes => sizes
    | None => sizes_of (views this)
    end in
  (forall i, in_range (views this) i ->
     safe_integer (toNumber (at_index baseline i)) = true) ->
  let upIndexes := resize_upIndexes index low high in
  let downIndexes := resize_downIndexes index this low high in
  let applied := spec_clamped_delta (views this) baseline index delta in
  resize_tentativeDelta upIndexes downIndexes baseline (views this) delta
  = Some applied
  /\ (index = length_ this - 1 ->
      spec_minDeltaDown (views this) baseline index = NInf
      /\ spec_maxDeltaDown (views this) baseline index = PInf)%Z
  /\ exists vs,
       resize_apply upIndexes downIndexes baseline (views this) applied
       = Some vs
       /\ resize index delta sizes low high this
          = Returns tt (set_views vs this).
Proof.
  intros H _ _ baseline _ upIndexes downIndexes applied.
  pose proof (upIndexes_in_range this low high H) as Hu.
  pose proof (downIndexes_in_range this low high H) as Hd.
  pose proof (@resize_tentativeDelta_spec this index delta baseline low high
                H) as Ht.
  split; [exact Ht|]. split.
  - intros E. unfold spec_minDeltaDown, spec_maxDeltaDown, length_ in *.
    destruct (Z.eqb_spec index (Z.of_nat (length (views this)) - 1));
      [auto | lia].
  - destruct (resize_apply_returns baseline applied Hu Hd) as (vs & Ha & _).
    exists vs. split; [exact Ha|]. unfold resize.
    destruct (Z.ltb_spec index 0); [lia|].
    destruct (Z.gtb_spec index (length_ this)); [lia|]. cbn [orb].
    cbv zeta. subst applied baseline upIndexes downIndexes.
    now rewrite Ht, Ha.
Qed.

Lemma resize_applies_clamped_delta_witness :
  let this :=
    engine [item (numZ 50) (numZ 120) None (numZ 100);
            item (numZ 90) PInf None (numZ 100);
            item (numZ 50) PInf (Some (numZ 20)) (numZ 100)] (numZ 300) in
  resize_tentativeDelta (resize_upIndexes 1 None (Some [0%Z]))
    (resize_downIndexes 1 this None (Some [0%Z]))
    (sizes_of (views this)) (views this) (numZ 500)
  = Some (spec_clamped_delta (views this) (sizes_of (views this)) 1
            (numZ 500)).
Proof.
  intros this.
  apply (@resize_applies_clamped_delta this 1 (numZ 500) None None
           (Some [0%Z])).
  - cbn. lia.
  - reflexivity.
  - reflexivity.
  - intros i Hi. unfold in_range in Hi. cbn in Hi.
    assert (Hc : i = 0%Z \/ i = 1%Z \/ i = 2%Z) by lia.
    destruct Hc as [->|[->| ->]]; reflexivity.
Defined.

(** ** Priorities *)














Lemma fold_pushToEnd_NoDup (values arr : list Z) :
  NoDup arr -> NoDup (fold_left pushToEnd values arr).
Proof. apply Permutation_NoDup, fold_pushToEnd_perm. Qed.







(** ** Sizes within bounds *)

Lemma num_leb_refl_fin (x : Qc) : (Fin x <=? Fin x)%num = true.
Proof. num_finish. Qed.

Lemma clamp_within (x : Qc) (lo hi : num) :
  (lo <=? Fin x)%num = true -> (Fin x <=? hi)%num = true ->
  clamp (Fin x) lo hi = Fin x.
Proof. destruct lo, hi; intros H1 H2; num_finish. Qed.

Lemma in_bounds_inv (it : IViewItem) :
  in_bounds it = true ->
  exists s m,
    size it = Fin s /\ minimumSize (view it) = Fin m /\ (m <= s)%Qc
    /\ (Fin s <=? maximumSize (view it))%num = true.
Proof.
  unfold in_bounds. destruct it as [[mn mx sn] sz]. cbn.
  destruct sz as [s| | |], mn as [m| | |]; try discriminate.
  intros H. apply andb_prop in H. destruct H as [H1 H2].
  exists s, m. repeat split; auto. now apply num_leb_fin.
Qed.

Lemma clampView_in_bounds (it : IViewItem) :
  in_bounds it = true -> clampView (view it) (size it) = size it.
Proof.
  intros H. destruct (in_bounds_inv it H) as (s & m & Es & Em & Hms & Hmax).
  unfold clampView. rewrite Es, Em.
  assert (Hc : clamp (Fin s) (Fin m) (maximumSize (view it)) = Fin s)
    by (apply clamp_within; auto; now apply num_leb_fin).
  destruct (snapSize (view it)); auto.
  unfold num_geb. now rewrite (proj2 (num_leb_fin m s) Hms).
Qed.



(** ** Reading and writing sizes by position *)

Lemma at_index_set_size (i j : Z) (sz : num) (vs : list IViewItem) :
  at_index (set_size i sz vs) j
  = if (i =? j)%Z
    then option_map (fun it => Build_IViewItem (view it) sz) (at_index vs j)
    else at_index vs j.
Proof.
  destruct (Z.eqb_spec i j) as [->|H].
  - destruct (at_index vs j) eqn:E.
    + now rewrite (at_index_set_size_eq _ sz _ E).
    + unfold at_index, set_size in *. destruct (j <? 0)%Z; auto.
      apply nth_error_None in E. apply nth_error_None.
      now rewrite set_size_nat_length.
  - now apply at_index_set_size_ne.
Qed.

Lemma at_index_ext {A : Type} (l l' : list A) :
  (forall i, at_index l i = at_index l' i) -> l = l'.
Proof.
  intros H. apply nth_error_ext. intros n.
  now rewrite <- !at_index_nat.
Qed.


Lemma at_index_sizes_of (vs : list IViewItem) (i : Z) :
  toNumber (at_index (sizes_of vs) i)
  = toNumber (option_map size (at_index vs i)).
Proof.
  unfold at_index, sizes_of. destruct (i <? 0)%Z; auto.
  now rewrite nth_error_map.
Qed.

Lemma forallb_at_index {A : Type} (p : A -> bool) (l : list A) (i : Z)
    (x : A) :
  forallb p l = true -> at_index l i = Some x -> p x = true.
Proof.
  intros H E. rewrite forallb_forall in H. apply H.
  unfold at_index in E. destruct (i <? 0)%Z; [discriminate|].
  eapply nth_error_In, E.
Qed.

Lemma forallb_of_at_index {A : Type} (p : A -> bool) (l : list A) :
  (forall i x, at_index l i = Some x -> p x = true) -> forallb p l = true.
Proof.
  intros H. apply forallb_forall. intros x Hx.
  destruct (In_nth_error _ _ Hx) as [n Hn].
  apply (H (Z.of_nat n)). now rewrite at_index_nat.
Qed.

(** ** Passes that nothing clamps *)

Lemma num_sub_diag_fin (s : Qc) : (Fin s - Fin s)%num = zero.
Proof. num_finish. Qed.







(** Sums of terms of one sign. *)
Lemma num_le0_add (a b : num) :
  (a <=? zero)%num = true -> (b <=? zero)%num = true ->
  (a + b <=? zero)%num = true.
Proof. destruct a, b; intros H1 H2; num_finish. Qed.

Lemma num_ge0_add (a b : num) :
  (zero <=? a)%num = true -> (zero <=? b)%num = true ->
  (zero <=? a + b)%num = true.
Proof. destruct a, b; intros H1 H2; num_finish. Qed.

Lemma sum_over_le0 (indexes : list Z) (term : Z -> num) :
  (forall i, In i indexes -> (term i <=? zero)%num = true) ->
  (sum_over indexes term <=? zero)%num = true.
Proof.
  unfold sum_over. induction indexes as [|i rest IH]; intros H; cbn.
  - reflexivity.
  - apply num_le0_add; [apply H; now left | apply IH; intros; apply H; now right].
Qed.

Lemma sum_over_ge0 (indexes : list Z) (term : Z -> num) :
  (forall i, In i indexes -> (zero <=? term i)%num = true) ->
  (zero <=? sum_over indexes term)%num = true.
Proof.
  unfold sum_over. induction indexes as [|i rest IH]; intros H; cbn.
  - reflexivity.
  - apply num_ge0_add; [apply H; now left | apply IH; intros; apply H; now right].
Qed.



Lemma num_max_le (a b : num) (d : Qc) :
  (a <=? Fin d)%num = true -> (b <=? Fin d)%num = true ->
  (num_max a b <=? Fin d)%num = true.
Proof. destruct a, b; intros H1 H2; num_finish. Qed.

Lemma num_min_ge (a b : num) (d : Qc) :
  (Fin d <=? a)%num = true -> (Fin d <=? b)%num = true ->
  (Fin d <=? num_min a b)%num = true.
Proof. destruct a, b; intros H1 H2; num_finish. Qed.







Lemma item_term_current (term : IView -> num -> num) (vs : list IViewItem)
    (i : Z) (it : IViewItem) :
  at_index vs i = Some it ->
  item_term term vs (sizes_of vs) i = term (view it) (size it).
Proof.
  intros E. unfold item_term. now rewrite at_index_sizes_of, E.
Qed.









(** ** One step of a greedy pass *)

Lemma clamp_cases (x m : Qc) (mx : num) :
  (Fin m <=? mx)%num = true ->
  (clamp (Fin x) (Fin m) mx = Fin x /\ (m <= x)%Qc
   /\ (Fin x <=? mx)%num = true)
  \/ (clamp (Fin x) (Fin m) mx = Fin m /\ (x < m)%Qc)
  \/ (exists M, mx = Fin M /\ clamp (Fin x) (Fin m) mx = Fin M
                /\ (M < x)%Qc /\ (m <= M)%Qc).
Proof.
  intros H. destruct (Qclt_le_dec x m) as [Hlt|Hge].
  - right. left. split; auto. destruct mx; num_finish.
  - destruct mx as [M| | |]; try discriminate.
    + destruct (Qclt_le_dec M x) as [HM|HM].
      * right. right. exists M. repeat split; auto; num_finish.
      * left. repeat split; auto; num_finish.
    + left. repeat split; auto; num_finish.
Qed.

Lemma le0_cases (lo : num) :
  (lo <=? zero)%num = true -> lo = NInf \/ exists l, lo = Fin l /\ (l <= Q2Qc 0)%Qc.
Proof. destruct lo; intros H; try (num_unfold; discriminate); eauto.
  right. eexists. split; eauto. num_finish. Qed.

Lemma ge0_cases (hi : num) :
  (zero <=? hi)%num = true -> hi = PInf \/ exists h, hi = Fin h /\ (Q2Qc 0 <= h)%Qc.
Proof. destruct hi; intros H; try (num_unfold; discriminate); eauto.
  right. eexists. split; eauto. num_finish. Qed.

Lemma max_cases (s : Qc) (mx : num) :
  (Fin s <=? mx)%num = true -> mx = PInf \/ exists M, mx = Fin M /\ (s <= M)%Qc.
Proof. destruct mx; intros H; try (num_unfold; discriminate); eauto.
  right. eexists. split; eauto. num_finish. Qed.

(** Comparisons of finite numbers as propositions on [Qc]. *)
Ltac num_prop :=
  cbv beta iota delta [num_add num_sub num_neg zero numZ] in *;
  rewrite ?num_leb_fin, ?num_ltb_fin, ?num_eqb_fin in *.

(** An item within its bounds absorbs what its clamp allows of [d]; if
    [d] lies between the slack sums of the item and the items still to
    come, what is left lies between the slack sums of the latter. *)
Lemma clamp_step (s m d : Qc) (mx lo hi : num) :
  (m <= s)%Qc -> (Fin s <=? mx)%num = true ->
  (lo <=? zero)%num = true -> (zero <=? hi)%num = true ->
  (Fin m - Fin s + lo <=? Fin d)%num = true ->
  (Fin d <=? mx - Fin s + hi)%num = true ->
  exists n,
    clamp (Fin s + Fin d) (Fin m) mx = Fin n
    /\ (m <= n)%Qc /\ (Fin n <=? mx)%num = true
    /\ (Fin n - Fin s)%num = Fin (n - s)
    /\ (Fin d - Fin (n - s))%num = Fin (d - (n - s))
    /\ (lo <=? Fin (d - (n - s)))%num = true
    /\ (Fin (d - (n - s)) <=? hi)%num = true.
Proof.
  intros Hms Hmx Hlo Hhi Hd1 Hd2.
  assert (Hm : (Fin m <=? mx)%num = true) by (destruct mx; num_finish).
  change (Fin s + Fin d)%num with (Fin (s + d)).
  destruct (@clamp_cases (s + d)%Qc m mx Hm)
    as [(E & H1 & H2)|[(E & H1)|(M & EM & E & H1 & H2)]];
    rewrite E; clear E; eexists; (split; [reflexivity|]);
    (split; [assumption || qc_lra|]).
  all: destruct (@le0_cases lo Hlo) as [->|(l & -> & Hl)];
    destruct (@ge0_cases hi Hhi) as [->|(h & -> & Hh)];
    destruct (@max_cases s mx Hmx) as [->|(M' & -> & HM')];
    clear Hlo Hhi Hmx Hm.
  all: try discriminate EM; try (apply Fin_inj in EM; subst M').
  all: num_prop.
  all: repeat split; try reflexivity; try assumption; try qc_lra.
Qed.

(** ** Sums over the items *)

Lemma fold_left_add (f : IViewItem -> num) (vs : list IViewItem) (a : num) :
  fold_left (fun r it => (r + f it)%num) vs a = (a + sum_of f vs)%num.
Proof.
  unfold sum_of. revert a.
  induction vs as [|it vs IH]; intros a; cbn [fold_left fold_right].
  - now rewrite num_add_zero_r.
  - now rewrite IH, num_add_assoc.
Qed.

Lemma sum_sizes_sum_of (vs : list IViewItem) : sum_sizes vs = sum_of size vs.
Proof. unfold sum_sizes. now rewrite fold_left_add, num_add_zero_l. Qed.

Lemma sum_of_app (f : IViewItem -> num) (l l' : list IViewItem) :
  sum_of f (l ++ l') = (sum_of f l + sum_of f l')%num.
Proof.
  unfold sum_of. induction l as [|it l IH]; cbn [fold_right app].
  - now rewrite num_add_zero_l.
  - now rewrite IH, num_add_assoc.
Qed.

Lemma sum_of_views (f : IView -> num) (vs vs' : list IViewItem) :
  map view vs' = map view vs ->
  sum_of (fun it => f (view it)) vs' = sum_of (fun it => f (view it)) vs.
Proof.
  unfold sum_of. revert vs'. induction vs as [|it vs IH]; intros [|it' vs'];
    cbn [map fold_right]; try discriminate; auto.
  intros E. injection E as E1 E2. now rewrite E1, (IH _ E2).
Qed.

(** Writing a size changes the sum by the difference. *)
Lemma sum_of_set_size_nat (i : nat) (sz : num) (vs : list IViewItem)
    (it : IViewItem) :
  nth_error vs i = Some it ->
  (sum_of size (set_size_nat i sz vs) + size it)%num
  = (sum_of size vs + sz)%num.
Proof.
  unfold sum_of. revert i. induction vs as [|v vs IH]; intros [|i];
    cbn [nth_error set_size_nat fold_right size]; try discriminate.
  - intros E. injection E as ->.
    rewrite (num_add_comm sz), (num_add_comm (size it) (fold_right _ _ _)).
    rewrite <- !num_add_assoc. f_equal. apply num_add_comm.
  - intros E. rewrite <- !num_add_assoc. f_equal. now apply IH.
Qed.

Lemma sum_sizes_set_size (i : Z) (sz : num) (vs : list IViewItem)
    (it : IViewItem) :
  at_index vs i = Some it ->
  (sum_sizes (set_size i sz vs) + size it)%num = (sum_sizes vs + sz)%num.
Proof.
  unfold at_index, set_size. destruct (i <? 0)%Z; [discriminate|].
  rewrite !sum_sizes_sum_of. apply sum_of_set_size_nat.
Qed.

Lemma sum_of_le0 (f : IViewItem -> num) (vs : list IViewItem) :
  (forall it, In it vs -> (f it <=? zero)%num = true) ->
  (sum_of f vs <=? zero)%num = true.
Proof.
  unfold sum_of. induction vs as [|it vs IH]; intros H; cbn [fold_right].
  - reflexivity.
  - apply num_le0_add; [apply H; now left | apply IH; intros; apply H; now right].
Qed.

Lemma sum_of_ge0 (f : IViewItem -> num) (vs : list IViewItem) :
  (forall it, In it vs -> (zero <=? f it)%num = true) ->
  (zero <=? sum_of f vs)%num = true.
Proof.
  unfold sum_of. induction vs as [|it vs IH]; intros H; cbn [fold_right].
  - reflexivity.
  - apply num_ge0_add; [apply H; now left | apply IH; intros; apply H; now right].
Qed.

(** ** Distributing the empty space *)

Lemma plain_in_bounds_inv (it : IViewItem) :
  plain_in_bounds it = true ->
  exists s m,
    snapSize (view it) = None /\ size it = Fin s
    /\ minimumSize (view it) = Fin m /\ (m <= s)%Qc
    /\ (Fin s <=? maximumSize (view it))%num = true.
Proof.
  unfold plain_in_bounds, plain. intros H. apply andb_prop in H.
  destruct H as [Hp Hb].
  destruct (in_bounds_inv it Hb) as (s & m & Es & Em & Hms & Hmx).
  exists s, m. destruct (snapSize (view it)); [discriminate|]. auto.
Qed.

Lemma plain_in_bounds_slack (it : IViewItem) :
  plain_in_bounds it = true ->
  (slack_below it <=? zero)%num = true
  /\ (zero <=? slack_above it)%num = true.
Proof.
  intros H.
  destruct (plain_in_bounds_inv it H) as (s & m & _ & Es & Em & Hms & Hmx).
  unfold slack_below, slack_above. rewrite Es, Em.
  destruct (@max_cases s _ Hmx) as [->|(M & -> & HM)]; split; num_prop;
    try reflexivity; qc_lra.
Qed.

Lemma firstn_S_nth_error {A : Type} (l : list A) (i : nat) (x : A) :
  nth_error l i = Some x -> firstn (S i) l = firstn i l ++ [x].
Proof.
  revert i. induction l as [|y l IH]; intros [|i]; cbn; try discriminate.
  - now intros [= ->].
  - intros E. f_equal. now apply IH.
Qed.

Lemma firstn_set_size_nat (i : nat) (sz : num) (vs : list IViewItem) :
  firstn i (set_size_nat i sz vs) = firstn i vs.
Proof.
  revert i. induction vs as [|v vs IH]; intros [|i]; cbn; auto.
  now rewrite IH.
Qed.

Lemma num_shift (X Y : num) (s n e : Qc) :
  (X + Fin s)%num = (Y + Fin n)%num ->
  (X + Fin (e - (n - s)))%num = (Y + Fin e)%num.
Proof.
  destruct X, Y; num_unfold; intros H; try discriminate; try reflexivity.
  apply Fin_inj in H. f_equal. qc_lra.
Qed.

Lemma num_between_zero (e : Qc) :
  (zero <=? Fin e)%num = true -> (Fin e <=? zero)%num = true -> Fin e = zero.
Proof. intros H1 H2. num_prop. unfold zero, numZ. f_equal. qc_lra. Qed.

(** If the empty space lies between what the first [n] items can give up
    and what they can take, the loop hands all of it out. *)
Lemma distributeEmptySpace_loop_sum (n : nat) (vs : list IViewItem) (e : Qc) :
  (n <= length vs)%nat ->
  (forall it, In it (firstn n vs) -> plain_in_bounds it = true) ->
  (sum_of slack_below (firstn n vs) <=? Fin e)%num = true ->
  (Fin e <=? sum_of slack_above (firstn n vs))%num = true ->
  sum_sizes (distributeEmptySpace_loop n vs (Fin e))
  = (sum_sizes vs + Fin e)%num.
Proof.
  revert vs e. induction n as [|i IH]; intros vs e Hn Hall Hlo Hhi.
  - cbn in *. rewrite (@num_between_zero e Hlo Hhi). now rewrite num_add_zero_r.
  - cbn [distributeEmptySpace_loop].
    destruct (Fin e =? zero)%num eqn:Ez.
    { apply num_eqb_eq in Ez. rewrite Ez. now rewrite num_add_zero_r. }
    destruct (nth_error vs i) as [it|] eqn:Ei;
      [|apply nth_error_None in Ei; lia].
    rewrite (firstn_S_nth_error _ _ Ei) in Hall, Hlo, Hhi.
    rewrite sum_of_app in Hlo, Hhi.
    assert (Hit : plain_in_bounds it = true)
      by (apply Hall, in_or_app; right; now left).
    assert (Hrest : forall x, In x (firstn i vs) -> plain_in_bounds x = true)
      by (intros x Hx; apply Hall, in_or_app; now left).
    destruct (plain_in_bounds_inv it Hit)
      as (s & m & Esn & Es & Em & Hms & Hmx).
    assert (Hl0 : (sum_of slack_below (firstn i vs) <=? zero)%num = true)
      by (apply sum_of_le0; intros x Hx; apply plain_in_bounds_slack; auto).
    assert (Hh0 : (zero <=? sum_of slack_above (firstn i vs))%num = true)
      by (apply sum_of_ge0; intros x Hx; apply plain_in_bounds_slack; auto).
    unfold sum_of at 2 in Hlo. unfold sum_of at 2 in Hhi.
    cbn [fold_right] in Hlo, Hhi. rewrite num_add_zero_r in Hlo, Hhi.
    unfold slack_below at 2 in Hlo. unfold slack_above at 2 in Hhi.
    rewrite Es, Em in Hlo. rewrite Es in Hhi.
    rewrite num_add_comm in Hlo. rewrite num_add_comm in Hhi.
    destruct (@clamp_step s m e (maximumSize (view it)) _ _
                Hms Hmx Hl0 Hh0 Hlo Hhi)
      as (n' & Ec & Hmn & Hnx & Ev & Ee & Hlo' & Hhi').
    unfold clampView. rewrite Esn, Es, Em, Ec, Ev, Ee.
    rewrite IH.
    + rewrite !sum_sizes_sum_of. apply num_shift.
      rewrite <- Es. now apply sum_of_set_size_nat.
    + rewrite set_size_nat_length. lia.
    + now rewrite firstn_set_size_nat.
    + now rewrite firstn_set_size_nat.
    + now rewrite firstn_set_size_nat.
Qed.

(** ** [resize] at the position just past the last item *)

Lemma reduce_indexes_throws (f : num -> IView -> num -> num)
    (indexes : list Z) (vs : list IViewItem) (sizes : list num) (acc : num)
    (i : Z) :
  In i indexes -> at_index vs i = None ->
  reduce_indexes f indexes vs sizes acc = None.
Proof.
  revert acc. induction indexes as [|j rest IH]; intros acc Hin Hi;
    [destruct Hin|]. cbn [reduce_indexes].
  destruct (Z.eq_dec j i) as [->|Hne].
  - now rewrite Hi.
  - destruct (at_index vs j); [|reflexivity].
    apply IH; [destruct Hin; [congruence | assumption] | exact Hi].
Qed.

Lemma at_index_length {A : Type} (a : list A) :
  at_index a (Z.of_nat (length a)) = None.
Proof. rewrite at_index_nat. apply nth_error_None. lia. Qed.

(** X1. The guard of [resize] lets the position [itemCount] through:
    there the up side starts at an item that does not exist, the first
    sum reads its contract and throws, and the engine is left as it
    was. *)
Theorem resize_at_length_throws (this : SplitView) (delta : num)
    (sizes : option (list num)) (low high : option (list Z)) :
  resize (length_ this) delta sizes low high this = Throws this.
Proof.
  unfold resize.
  destruct (Z.ltb_spec (length_ this) 0); [unfold length_ in *; lia|].
  destruct (Z.gtb_spec (length_ this) (length_ this)); [lia|]. cbn [orb].
  unfold resize_tentativeDelta.
  rewrite (@reduce_indexes_throws _ _ _ _ _ (length_ this)); auto.
  - unfold resize_upIndexes.
    apply (Permutation_in _ (prioritize_perm _ low high)).
    apply in_range_iff. lia.
  - apply at_index_length.
Qed.

(** ** What [relayout] leaves behind *)

Lemma relayout_unfold (this : SplitView) (low high : option (list Z)) :
  (length (views this) - 1 <= length (sashes this))%nat ->
  exists vs,
    resize (length_ this - 1)
      (toNumber (this_size this) - sum_sizes (views this))%num
      None low high this = Returns tt (set_views vs this)
    /\ map view vs = map view (views this)
    /\ relayout low high this
       = saveProportions
           (set_contentSize (sum_sizes vs) (set_views vs this)).
Proof.
  intros Hs.
  destruct (@relayout_returns this low high Hs)
    as (vs & this' & Hr & _ & _ & Hv & _).
  exists vs. split; [exact Hr|]. split; [exact Hv|].
  unfold relayout, bind, get. rewrite Hr.
  pose proof (same_views_length _ _ Hv) as Hl.
  rewrite layoutViews_returns by (cbn; lia). reflexivity.
Qed.

(** X2. On an engine with a sash between each two items, [relayout]
    returns with the bookkeeping consistent with the sizes it leaves:
    the content size is their sum, and when that sum is above zero there
    is one proportion per item, the item's size divided by the sum; when
    it is not, the proportions saved before are kept. Contracts, sashes
    and container size are untouched. *)
Theorem relayout_bookkeeping (this : SplitView) (low high : option (list Z)) :
  (length (views this) - 1 <= length (sashes this))%nat ->
  exists this',
    relayout low high this = Returns tt this'
    /\ map view (views this') = map view (views this)
    /\ sashes this' = sashes this
    /\ this_size this' = this_size this
    /\ contentSize this' = Some (sum_sizes (views this'))
    /\ ((sum_sizes (views this') >? zero)%num = true ->
        exists ps,
          _proportions this' = Some ps
          /\ length ps = length (views this')
          /\ forall i it, nth_error (views this') i = Some it ->
               nth_error ps i
               = Some (size it / sum_sizes (views this'))%num)
    /\ ((sum_sizes (views this') >? zero)%num = false ->
        _proportions this' = _proportions this).
Proof.
  intros Hs. destruct (@relayout_unfold this low high Hs) as (vs & _ & Hv & E).
  rewrite E. unfold saveProportions.
  cbn [contentSize set_contentSize toNumber views set_views].
  destruct (sum_sizes vs >? zero)%num eqn:Hpos; eexists;
    (split; [reflexivity|]);
    cbn [views sashes this_size contentSize _proportions set_proportions
         set_contentSize set_views];
    rewrite ?Hpos; repeat split; auto; try discriminate.
  intros _. eexists. split; [reflexivity|]. split; [apply length_map|].
  intros i it Hi. now rewrite nth_error_map, Hi.
Qed.

Lemma relayout_bookkeeping_witness :
  let this :=
    engine [item (numZ 50) PInf None (numZ 100);
            item (numZ 50) PInf None (numZ 60)] (numZ 200) in
  exists this',
    relayout None None this = Returns tt this'
    /\ map view (views this') = map view (views this)
    /\ contentSize this' = Some (sum_sizes (views this')).
Proof.
  intros this.
  destruct (@relayout_bookkeeping this None None) as (this' & E & V & _ & _ & C & _).
  - cbn. lia.
  - exists this'. auto.
Defined.

(** ** [distributeEmptySpace] *)

Lemma in_firstn_nth_error {A : Type} (l : list A) (n j : nat) (x : A) :
  (j < n)%nat -> nth_error l j = Some x -> In x (firstn n l).
Proof.
  intros Hj E. apply (nth_error_In _ j). rewrite nth_error_firstn.
  destruct (Nat.ltb_spec j n); [exact E | lia].
Qed.

Lemma plain_in_bounds_intro (v : IView) (n m : Qc) :
  snapSize v = None -> minimumSize v = Fin m -> (m <= n)%Qc ->
  (Fin n <=? maximumSize v)%num = true ->
  plain_in_bounds (Build_IViewItem v (Fin n)) = true.
Proof.
  intros Hs Hm Hmn Hx. unfold plain_in_bounds, plain, in_bounds.
  cbn [view size]. rewrite Hs, Hm, Hx.
  now rewrite (proj2 (num_leb_fin m n) Hmn).
Qed.

(** Under the same condition the loop leaves the first [n] items within
    their bounds and does not touch the others. *)
Lemma distributeEmptySpace_loop_bounds (n : nat) (vs : list IViewItem)
    (e : Qc) :
  (n <= length vs)%nat ->
  (forall it, In it (firstn n vs) -> plain_in_bounds it = true) ->
  (sum_of slack_below (firstn n vs) <=? Fin e)%num = true ->
  (Fin e <=? sum_of slack_above (firstn n vs))%num = true ->
  (forall j it, (j < n)%nat ->
     nth_error (distributeEmptySpace_loop n vs (Fin e)) j = Some it ->
     plain_in_bounds it = true)
  /\ (forall j, (n <= j)%nat ->
        nth_error (distributeEmptySpace_loop n vs (Fin e)) j
        = nth_error vs j).
Proof.
  revert vs e. induction n as [|i IH]; intros vs e Hn Hall Hlo Hhi.
  - cbn. split; [intros; lia | auto].
  - cbn [distributeEmptySpace_loop].
    destruct (Fin e =? zero)%num eqn:Ez.
    { split; auto. intros j it Hj E.
      apply Hall, (in_firstn_nth_error _ Hj E). }
    destruct (nth_error vs i) as [it|] eqn:Ei;
      [|apply nth_error_None in Ei; lia].
    rewrite (firstn_S_nth_error _ _ Ei) in Hall, Hlo, Hhi.
    rewrite sum_of_app in Hlo, Hhi.
    assert (Hit : plain_in_bounds it = true)
      by (apply Hall, in_or_app; right; now left).
    assert (Hrest : forall x, In x (firstn i vs) -> plain_in_bounds x = true)
      by (intros x Hx; apply Hall, in_or_app; now left).
    destruct (plain_in_bounds_inv it Hit)
      as (s & m & Esn & Es & Em & Hms & Hmx).
    assert (Hl0 : (sum_of slack_below (firstn i vs) <=? zero)%num = true)
      by (apply sum_of_le0; intros x Hx; apply plain_in_bounds_slack; auto).
    assert (Hh0 : (zero <=? sum_of slack_above (firstn i vs))%num = true)
      by (apply sum_of_ge0; intros x Hx; apply plain_in_bounds_slack; auto).
    unfold sum_of at 2 in Hlo. unfold sum_of at 2 in Hhi.
    cbn [fold_right] in Hlo, Hhi. rewrite num_add_zero_r in Hlo, Hhi.
    unfold slack_below at 2 in Hlo. unfold slack_above at 2 in Hhi.
    rewrite Es, Em in Hlo. rewrite Es in Hhi.
    rewrite num_add_comm in Hlo. rewrite num_add_comm in Hhi.
    destruct (@clamp_step s m e (maximumSize (view it)) _ _
                Hms Hmx Hl0 Hh0 Hlo Hhi)
      as (n' & Ec & Hmn & Hnx & Ev & Ee & Hlo' & Hhi').
    unfold clampView. rewrite Esn, Es, Em, Ec, Ev, Ee.
    destruct (IH (set_size_nat i (Fin n') vs) (e - (n' - s))%Qc) as [Ha Hb].
    + rewrite set_size_nat_length. lia.
    + now rewrite firstn_set_size_nat.
    + now rewrite firstn_set_size_nat.
    + now rewrite firstn_set_size_nat.
    + split.
      * intros j x Hj E. destruct (Nat.eq_dec j i) as [->|Hne].
        -- rewrite Hb in E by lia.
           rewrite (nth_error_set_size_nat_eq _ _ _ Ei) in E.
           injection E as <-. now apply (@plain_in_bounds_intro _ n' m).
        -- apply (Ha j x); [lia | exact E].
      * intros j Hj. rewrite Hb by lia.
        apply nth_error_set_size_nat_ne. lia.
Qed.

Lemma sum_of_finite (vs : list IViewItem) :
  (forall it, In it vs -> is_finite (size it) = true) ->
  exists S, sum_of size vs = Fin S.
Proof.
  unfold sum_of. induction vs as [|it vs IH]; intros H; cbn [fold_right].
  - eexists. reflexivity.
  - destruct IH as [S ES]; [intros; apply H; now right|]. rewrite ES.
    pose proof (H it (or_introl eq_refl)) as Hf.
    destruct (size it); try discriminate. eexists. reflexivity.
Qed.

(** A sum of differences to the sizes is the difference of the sums. *)
Lemma sum_of_sub (f : IViewItem -> num) (vs : list IViewItem) :
  (forall it, In it vs -> is_finite (size it) = true) ->
  sum_of (fun it => (f it - size it)%num) vs
  = (sum_of f vs - sum_of size vs)%num.
Proof.
  unfold sum_of. induction vs as [|it vs IH]; intros H; cbn [fold_right].
  - num_finish.
  - rewrite IH by (intros; apply H; now right).
    destruct (@sum_of_finite vs) as [S ES]; [intros; apply H; now right|].
    unfold sum_of in ES. rewrite ES.
    pose proof (H it (or_introl eq_refl)) as Hf.
    destruct (size it) as [s| | |]; try discriminate.
    destruct (f it), (fold_right (fun it acc => (f it + acc)%num) zero vs);
      num_finish.
Qed.

Lemma num_sub_le_mono (a : num) (t s : Qc) :
  (a <=? Fin t)%num = true -> (a - Fin s <=? Fin t - Fin s)%num = true.
Proof. destruct a; intros H; num_finish. Qed.

Lemma num_sub_ge_mono (a : num) (t s : Qc) :
  (Fin t <=? a)%num = true -> (Fin t - Fin s <=? a - Fin s)%num = true.
Proof. destruct a; intros H; num_finish. Qed.

Lemma plain_in_bounds_finite (it : IViewItem) :
  plain_in_bounds it = true -> is_finite (size it) = true.
Proof.
  intros H. destruct (plain_in_bounds_inv it H) as (s & _ & _ & -> & _).
  reflexivity.
Qed.

Lemma forallb_nth_error {A : Type} (p : A -> bool) (l : list A) :
  (forall j x, nth_error l j = Some x -> p x = true) -> forallb p l = true.
Proof.
  intros H. apply forallb_forall. intros x Hx.
  destruct (In_nth_error _ _ Hx) as [n Hn]. exact (H n x Hn).
Qed.

Lemma slack_sums_bounds (vs : list IViewItem) (T S : Qc) :
  forallb plain_in_bounds vs = true ->
  sum_of size vs = Fin S ->
  (sum_minimums vs <=? Fin T)%num = true ->
  (Fin T <=? sum_maximums vs)%num = true ->
  (sum_of slack_below vs <=? Fin (T - S))%num = true
  /\ (Fin (T - S) <=? sum_of slack_above vs)%num = true.
Proof.
  intros Hall ES Hlo Hhi. rewrite forallb_forall in Hall.
  assert (Hfin : forall it, In it vs -> is_finite (size it) = true)
    by (intros it Hit; apply plain_in_bounds_finite, Hall, Hit).
  unfold slack_below, slack_above.
  rewrite (@sum_of_sub (fun it => minimumSize (view it)) vs Hfin).
  rewrite (@sum_of_sub (fun it => maximumSize (view it)) vs Hfin).
  rewrite ES. split.
  - apply (@num_sub_le_mono _ T S), Hlo.
  - apply (@num_sub_ge_mono _ T S), Hhi.
Qed.

(** X3. On safe integers: when no item declares a snap size, every
    item is at an integer size within its integer bounds and the
    container size is an integer between the sum of the minimums and the
    sum of the maximums, [distributeEmptySpace] leaves the sizes summing
    to the container size exactly, every item still within its bounds,
    and touches nothing but the sizes. *)
Theorem distributeEmptySpace_settles (this : SplitView) (total : num) :
  this_size this = Some total ->
  safe_integer total = true ->
  safe_items (views this) = true ->
  (sum_minimums (views this) <=? total)%num = true ->
  (total <=? sum_maximums (views this))%num = true ->
  exists this',
    distributeEmptySpace this = Returns tt this'
    /\ sum_sizes (views this') = total
    /\ forallb plain_in_bounds (views this') = true
    /\ map view (views this') = map view (views this)
    /\ sashes this' = sashes this
    /\ this_size this' = this_size this.
Proof.
  intros HT Hsafe Hitems.
  destruct (safe_integer_fin total Hsafe) as [T ->].
  pose proof (safe_items_plain _ Hitems) as Hall.
  intros Hlo Hhi.
  assert (Hall' := proj1 (forallb_forall _ _) Hall).
  destruct (@sum_of_finite (views this)) as [S ES];
    [intros it Hit; apply plain_in_bounds_finite, Hall', Hit|].
  destruct (@slack_sums_bounds (views this) T S Hall ES Hlo Hhi) as [Hl Hh].
  unfold distributeEmptySpace. eexists. split; [reflexivity|].
  cbn [views set_views sashes this_size].
  rewrite HT, (sum_sizes_sum_of (views this)), ES. cbn [toNumber].
  change (Fin T - Fin S)%num with (Fin (T - S)).
  set (n := length (views this)).
  assert (Hfirst : firstn n (views this) = views this) by apply firstn_all.
  split; [|split; [|split; [apply distributeEmptySpace_loop_views | auto]]].
  - rewrite distributeEmptySpace_loop_sum; try rewrite Hfirst; auto.
    rewrite (sum_sizes_sum_of (views this)), ES. num_prop. f_equal. qc_lra.
  - destruct (@distributeEmptySpace_loop_bounds n (views this) (T - S)%Qc)
      as [Ha _]; try rewrite Hfirst; auto.
    apply forallb_nth_error. intros j x Hx. apply (Ha j x); auto.
    assert (Hj : (j < length (distributeEmptySpace_loop n (views this)
                                (Fin (T - S))))%nat)
      by (apply nth_error_Some; congruence).
    rewrite (same_views_length _ _
               (distributeEmptySpace_loop_views n (views this)
                  (Fin (T - S)))) in Hj.
    exact Hj.
Qed.

Lemma distributeEmptySpace_settles_witness :
  let this :=
    engine [item (numZ 50) (numZ 120) None (numZ 100);
            item (numZ 50) (numZ 150) None (numZ 60);
            item (numZ 20) (numZ 90) None (numZ 80)] (numZ 330) in
  exists this',
    distributeEmptySpace this = Returns tt this'
    /\ sum_sizes (views this') = numZ 330
    /\ forallb plain_in_bounds (views this') = true.
Proof.
  intros this.
  destruct (@distributeEmptySpace_settles this (numZ 330))
    as (this' & E & HS & Hb & _); try reflexivity.
  exists this'. auto.
Defined.

(** With nothing to hand out the loop stops at once. *)
Lemma distributeEmptySpace_loop_zero (n : nat) (vs : list IViewItem) :
  distributeEmptySpace_loop n vs zero = vs.
Proof.
  assert (Hz : (zero =? zero)%num = true) by reflexivity.
  destruct n; cbn [distributeEmptySpace_loop]; now rewrite ?Hz.
Qed.



(** ** [layout] *)

Lemma Forall_set_size_nat (P : IViewItem -> Prop) (i : nat) (sz : num)
    (vs : list IViewItem) (it : IViewItem) :
  nth_error vs i = Some it -> P (Build_IViewItem (view it) sz) ->
  Forall P vs -> Forall P (set_size_nat i sz vs).
Proof.
  revert i. induction vs as [|v vs IH]; intros [|i] E Hp H; cbn in *;
    try discriminate; inversion H; subst; constructor; auto.
  all: first [now injection E as -> | now apply IH].
Qed.

Lemma clamp_plain_in_bounds (v : IView) (x : Qc) :
  plain_contract v = true ->
  exists n, clampView v (Fin x) = Fin n
            /\ plain_in_bounds (Build_IViewItem v (Fin n)) = true.
Proof.
  unfold plain_contract, clampView. intros H.
  destruct (snapSize v) eqn:Es; [discriminate|].
  destruct (minimumSize v) as [m| | |] eqn:Em; try discriminate.
  destruct (@clamp_cases x m (maximumSize v) H)
    as [(E & H1 & H2)|[(E & H1)|(M & EM & E & H1 & H2)]];
    rewrite E; eexists; (split; [reflexivity|]);
    apply (@plain_in_bounds_intro v _ m); auto; try qc_lra.
  rewrite EM. apply num_leb_refl_fin.
Qed.

(** Whatever is left to hand out, items without snap size stay within
    their bounds. *)
Lemma distributeEmptySpace_loop_keeps_bounds (n : nat) (vs : list IViewItem)
    (e : Qc) :
  Forall (fun it => plain_in_bounds it = true) vs ->
  Forall (fun it => plain_in_bounds it = true)
    (distributeEmptySpace_loop n vs (Fin e)).
Proof.
  revert vs e. induction n as [|i IH]; intros vs e H;
    cbn [distributeEmptySpace_loop]; auto.
  destruct (Fin e =? zero)%num; auto.
  destruct (nth_error vs i) as [it|] eqn:Ei; auto.
  assert (Hit : plain_in_bounds it = true).
  { rewrite Forall_forall in H. apply H. eapply nth_error_In, Ei. }
  destruct (plain_in_bounds_inv it Hit) as (s & m & Esn & Es & Em & Hms & Hmx).
  assert (Hc : plain_contract (view it) = true).
  { unfold plain_contract. rewrite Esn, Em.
    destruct (@max_cases s _ Hmx) as [->|(M & -> & HM)];
      [reflexivity | apply num_leb_fin; qc_lra]. }
  rewrite Es. change (Fin s + Fin e)%num with (Fin (s + e)).
  destruct (@clamp_plain_in_bounds (view it) (s + e)%Qc Hc) as (n' & -> & Hb).
  change (Fin e - (Fin n' - Fin s))%num with (Fin (e - (n' - s))).
  apply IH. now apply (@Forall_set_size_nat _ i (Fin n') vs it).
Qed.

Lemma layout_loop_views (i : nat) (vs : list IViewItem) (ps : list num)
    (total : num) :
  map view (layout_loop i vs ps total) = map view vs.
Proof.
  revert i. induction vs as [|it vs IH]; intros i; cbn; auto.
  now rewrite IH.
Qed.

Lemma layout_loop_in_bounds (i : nat) (vs : list IViewItem) (ps : list num)
    (t : Qc) :
  (forall it, In it vs -> plain_contract (view it) = true) ->
  (forall k, (k < length vs)%nat ->
     is_finite (toNumber (nth_error ps (i + k))) = true) ->
  Forall (fun it => plain_in_bounds it = true) (layout_loop i vs ps (Fin t)).
Proof.
  revert i. induction vs as [|it vs IH]; intros i Hc Hp; cbn [layout_loop];
    constructor.
  - pose proof (Hp 0%nat ltac:(cbn; lia)) as H0. rewrite Nat.add_0_r in H0.
    destruct (toNumber (nth_error ps i)) as [p| | |]; try discriminate.
    cbn [num_mul num_round]. unfold numZ.
    match goal with
    | |- context [clampView (view it) (Fin ?x)] =>
        destruct (@clamp_plain_in_bounds (view it) x
                    (Hc it (or_introl eq_refl))) as (n & -> & Hb)
    end.
    exact Hb.
  - apply IH; [intros; apply Hc; now right|].
    intros k Hk. replace (S i + k)%nat with (i + S k)%nat by lia.
    apply Hp. cbn. lia.
Qed.

Lemma layout_unfold (this : SplitView) (total orthogonal : num)
    (ps : list num) :
  _proportions this = Some ps ->
  layout total orthogonal this
  = bind distributeEmptySpace (fun _ => layoutViews)
      (set_views (layout_loop 0 (views this) ps total)
         (set_orthogonalSize orthogonal (set_this_size total this))).
Proof.
  intros Hp. unfold layout, bind at 1 2 3, modify, get. cbn [views set_orthogonalSize
    set_this_size _proportions]. rewrite Hp.
  destruct (views this) as [|it vs] eqn:Ev; [|reflexivity].
  cbn [layout_loop]. unfold bind at 1, ret.
  replace (set_views [] (set_orthogonalSize orthogonal
                           (set_this_size total this)))
    with (set_orthogonalSize orthogonal (set_this_size total this));
    [reflexivity|].
  destruct this. cbn in *. now subst.
Qed.

Lemma proportions_finite (ps : list num) (n : nat) :
  length ps = n -> forallb is_finite ps = true ->
  forall k, (k < n)%nat -> is_finite (toNumber (nth_error ps (0 + k))) = true.
Proof.
  intros Hl Hf k Hk. cbn [Nat.add].
  destruct (nth_error ps k) as [p|] eqn:E;
    [|apply nth_error_None in E; lia].
  rewrite forallb_forall in Hf. apply Hf. eapply nth_error_In, E.
Qed.

Lemma plain_contracts_of_map (vs : list IViewItem) :
  forallb plain_contract (map view vs) = true ->
  forall it, In it vs -> plain_contract (view it) = true.
Proof.
  intros H it Hit. rewrite forallb_forall in H. apply H. now apply in_map.
Qed.

(** After the proportional allocation every item is within its bounds;
    [distributeEmptySpace] keeps it so, and [layoutViews] records the
    content size. *)
Lemma layout_result (this : SplitView) (T : Qc) (orthogonal : num)
    (ps : list num) :
  _proportions this = Some ps ->
  length ps = length (views this) ->
  forallb is_finite ps = true ->
  forallb plain_contract (map view (views this)) = true ->
  (length (views this) - 1 <= length (sashes this))%nat ->
  exists this',
    layout (Fin T) orthogonal this = Returns tt this'
    /\ forallb plain_in_bounds (views this') = true
    /\ map view (views this') = map view (views this)
    /\ sashes this' = sashes this
    /\ this_size this' = Some (Fin T)
    /\ contentSize this' = Some (sum_sizes (views this'))
    /\ ((sum_minimums (views this) <=? Fin T)%num = true ->
        (Fin T <=? sum_maximums (views this))%num = true ->
        sum_sizes (views this') = Fin T).
Proof.
  intros Hp Hl Hf Hc Hs. rewrite (layout_unfold _ _ _ Hp).
  set (vs1 := layout_loop 0 (views this) ps (Fin T)).
  set (this1 := set_views vs1 _).
  assert (Hv1 : map view vs1 = map view (views this))
    by apply layout_loop_views.
  assert (Hb1 : Forall (fun it => plain_in_bounds it = true) vs1).
  { apply layout_loop_in_bounds.
    - now apply plain_contracts_of_map.
    - now apply proportions_finite. }
  unfold bind, distributeEmptySpace.
  cbn [views this1 set_views this_size set_orthogonalSize set_this_size
       toNumber].
  destruct (@sum_of_finite vs1) as [S ES].
  { intros it Hit. apply plain_in_bounds_finite.
    rewrite Forall_forall in Hb1. now apply Hb1. }
  rewrite (sum_sizes_sum_of vs1), ES.
  change (Fin T - Fin S)%num with (Fin (T - S)).
  set (vs2 := distributeEmptySpace_loop (length vs1) vs1 (Fin (T - S))).
  assert (Hv2 : map view vs2 = map view vs1)
    by apply distributeEmptySpace_loop_views.
  assert (Hb2 : Forall (fun it => plain_in_bounds it = true) vs2)
    by now apply distributeEmptySpace_loop_keeps_bounds.
  rewrite layoutViews_returns.
  2: { cbn [views sashes set_views set_orthogonalSize set_this_size].
       rewrite (same_views_length _ _ Hv2), (same_views_length _ _ Hv1).
       exact Hs. }
  eexists. split; [reflexivity|].
  cbn [views sashes this_size contentSize set_contentSize set_views
       set_orthogonalSize set_this_size].
  split; [apply forallb_forall, Forall_forall, Hb2|].
  split; [congruence|]. repeat split; auto.
  intros Hlo Hhi. unfold vs2.
  assert (Hall1 : forallb plain_in_bounds vs1 = true)
    by apply forallb_forall, Forall_forall, Hb1.
  destruct (@slack_sums_bounds vs1 T S Hall1 ES) as [Hl1 Hh1].
  { unfold sum_minimums.
    now rewrite (@sum_of_views minimumSize (views this) vs1 Hv1). }
  { unfold sum_maximums.
    now rewrite (@sum_of_views maximumSize (views this) vs1 Hv1). }
  rewrite distributeEmptySpace_loop_sum; try rewrite firstn_all; auto.
  - rewrite (sum_sizes_sum_of vs1), ES. num_prop. f_equal. qc_lra.
  - intros it Hit. rewrite Forall_forall in Hb1. now apply Hb1.
Qed.

(** X5. With one proportion per item, items that declare no snap size
    and have a minimum at most their maximum, a sash between each two
    items, and proportions, bounds and size of a magnitude at which
    nothing overflows, [layout] returns with every item within its
    bounds, the contracts untouched and the new size and the content
    size recorded, also when the container is too small or too large for
    the items. Which sizes the rounding of the products gives does not
    matter to it. *)
Theorem layout_keeps_bounds (this : SplitView) (total orthogonal : num)
    (ps : list num) :
  _proportions this = Some ps ->
  length ps = length (views this) ->
  forallb bounded ps = true ->
  bounded total = true ->
  forallb plain_contract (map view (views this)) = true ->
  forallb bounded_contract (map view (views this)) = true ->
  few (views this) = true ->
  (length (views this) - 1 <= length (sashes this))%nat ->
  exists this',
    layout total orthogonal this = Returns tt this'
    /\ forallb plain_in_bounds (views this') = true
    /\ map view (views this') = map view (views this)
    /\ this_size this' = Some total
    /\ contentSize this' = Some (sum_sizes (views this')).
Proof.
  intros Hp Hl Hb Ht Hc _ _ Hs.
  destruct (bounded_fin total Ht) as [T ->].
  pose proof (bounded_all_finite ps Hb) as Hf.
  destruct (@layout_result this T orthogonal ps Hp Hl Hf Hc Hs)
    as (this' & E & Hb' & Hv & _ & HT & HC & _).
  exists this'. auto.
Qed.

Lemma layout_keeps_bounds_witness :
  let this :=
    set_proportions [(numZ 1 / numZ 2)%num; (numZ 1 / numZ 2)%num]
      (engine [item (numZ 50) (numZ 150) None (numZ 100);
               item (numZ 50) (numZ 120) None (numZ 100)] (numZ 200)) in
  exists this',
    layout (numZ 400) (numZ 30) this = Returns tt this'
    /\ forallb plain_in_bounds (views this') = true
    /\ map view (views this') = map view (views this)
    /\ this_size this' = Some (numZ 400)
    /\ contentSize this' = Some (sum_sizes (views this')).
Proof.
  intros this.
  apply (@layout_keeps_bounds this (numZ 400) (numZ 30)
           [(numZ 1 / numZ 2)%num; (numZ 1 / numZ 2)%num]);
    try reflexivity.
  all: cbn; lia.
Defined.

(** ** Proportions: saving and consuming *)

Lemma num_div_fin (s T : Qc) :
  T <> Q2Qc 0 -> (Fin s / Fin T)%num = Fin (s / T).
Proof.
  intros H. unfold num_div. destruct (Qc_eq_dec T 0) as [E|_]; [|reflexivity].
  exfalso. apply H. exact E.
Qed.

Lemma is_integer_inv (n : num) :
  is_integer n = true -> exists z, n = numZ z.
Proof.
  destruct n as [q| | |]; try discriminate. cbn [is_integer]. intros H.
  apply num_eqb_eq in H. eauto.
Qed.

Local Open Scope num_scope.

Lemma Qfloor_unique (q : Q) (z : Z) :
  (inject_Z z <= q)%Q -> (q < inject_Z (z + 1))%Q -> Qfloor q = z.
Proof.
  intros Hlo Hhi.
  pose proof (Qfloor_le q) as H1. pose proof (Qlt_floor q) as H2.
  assert (A : (inject_Z z < inject_Z (Qfloor q + 1))%Q)
    by (eapply Qle_lt_trans; eauto).
  assert (B : (inject_Z (Qfloor q) < inject_Z (z + 1))%Q)
    by (eapply Qle_lt_trans; eauto).
  rewrite <- Zlt_Qlt in A, B. lia.
Qed.

Lemma round_near (x : Qc) (z : Z) :
  near (Fin x) (numZ z) = true -> num_round (Fin x) = numZ z.
Proof.
  unfold near, quarter, numZ. intros H. apply andb_prop in H as [Hlo Hhi].
  change (Fin (Q2Qc (inject_Z z)) - Fin (Q2Qc (1 # 4)))
    with (Fin (Q2Qc (inject_Z z) - Q2Qc (1 # 4))) in Hlo.
  change (Fin (Q2Qc (inject_Z z)) + Fin (Q2Qc (1 # 4)))
    with (Fin (Q2Qc (inject_Z z) + Q2Qc (1 # 4))) in Hhi.
  apply num_leb_fin in Hlo, Hhi.
  cbn [num_round]. unfold numZ. do 3 f_equal.
  apply Qfloor_unique.
  - unfold half. qc_norm. lra.
  - rewrite inject_Z_plus. unfold half. qc_norm. lra.
Qed.

Lemma layout_loop_near (vs : list IViewItem) (pre ps : list num)
    (total : num) :
  (forall it, In it vs ->
     in_bounds it = true /\ is_integer (size it) = true) ->
  Forall2 (fun it p => near (p * total) (size it) = true) vs ps ->
  layout_loop (length pre) vs (pre ++ ps) total = vs.
Proof.
  intros H F. revert pre. induction F as [|it p vs ps Hn F IH]; intros pre;
    cbn [layout_loop]; [reflexivity|].
  destruct (H it (or_introl eq_refl)) as [Hb Hi].
  rewrite nth_error_app2, Nat.sub_diag by lia. cbn [nth_error toNumber].
  destruct (is_integer_inv _ Hi) as [z Ez]. rewrite Ez in Hn.
  destruct (p * total) as [x| | |]; try discriminate Hn.
  rewrite (round_near x z Hn), <- Ez, (clampView_in_bounds it Hb).
  f_equal; [now destruct it|].
  specialize (IH (fun it' Hin => H it' (or_intror Hin)) (pre ++ [p])).
  rewrite length_app, Nat.add_1_r, <- app_assoc in IH. exact IH.
Qed.

Lemma safe_item_integer (it : IViewItem) :
  safe_item it = true ->
  in_bounds it = true /\ is_integer (size it) = true.
Proof.
  unfold safe_item, plain_in_bounds, safe_sized, safe_integer.
  intros H. repeat (apply andb_prop in H as [H ?]).
  repeat match goal with
         | H : (_ && _)%bool = true |- _ => apply andb_prop in H as [? ?]
         end.
  auto.
Qed.

(** X7. [layout] gives every item its size back from proportions that
    are accurate to a quarter of a pixel. For items without snap size at
    integer sizes within their integer bounds, laid out at the sum of
    their sizes with proportions whose products with that sum are each
    within a quarter of the item's size, [layout] returns with every
    item at the size it had and the sum recorded as container and
    content size. The proportions [saveProportions] stores are that
    accurate and more: a quotient and a product of doubles of this
    magnitude are off by far less than a quarter. *)
Theorem layout_restores_sizes (this : SplitView) (total orthogonal : num)
    (ps : list num) :
  _proportions this = Some ps ->
  safe_items (views this) = true ->
  sum_sizes (views this) = total ->
  Forall2 (fun it p => near (p * total) (size it) = true) (views this) ps ->
  (length (views this) - 1 <= length (sashes this))%nat ->
  exists this',
    layout total orthogonal this = Returns tt this'
    /\ views this' = views this
    /\ this_size this' = Some total
    /\ contentSize this' = Some total.
Proof.
  intros Hp Hitems HS Hnear Hs.
  pose proof (safe_items_plain _ Hitems) as Hall.
  destruct (@sum_of_finite (views this)) as [T ES];
    [intros it Hit; apply plain_in_bounds_finite;
     exact (proj1 (forallb_forall _ _) Hall it Hit)|].
  rewrite (sum_sizes_sum_of (views this)), ES in HS. subst total.
  rewrite (layout_unfold _ _ _ Hp).
  assert (Hloop := @layout_loop_near (views this) [] ps (Fin T)).
  cbn [length app] in Hloop. rewrite Hloop; [|  | exact Hnear].
  2: { intros it Hit. apply safe_item_integer.
       unfold safe_items in Hitems. apply andb_prop in Hitems as [Hi _].
       exact (proj1 (forallb_forall _ _) Hi it Hit). }
  unfold bind, distributeEmptySpace.
  cbn [views this_size set_views set_orthogonalSize set_this_size toNumber].
  rewrite (sum_sizes_sum_of (views this)), ES, num_sub_diag_fin,
    distributeEmptySpace_loop_zero.
  rewrite layoutViews_returns by (cbn; exact Hs).
  eexists. split; [reflexivity|].
  cbn [views this_size contentSize set_contentSize set_views
       set_orthogonalSize set_this_size].
  split; [reflexivity|]. split; [reflexivity|].
  now rewrite (sum_sizes_sum_of (views this)), ES.
Qed.

Lemma layout_restores_sizes_witness :
  let this :=
    set_proportions [(numZ 433 / numZ 1000)%num; (numZ 567 / numZ 1000)%num]
      (engine [item (numZ 50) PInf None (numZ 130);
               item (numZ 60) (numZ 200) None (numZ 170)] (numZ 300)) in
  exists this',
    layout (numZ 300) (numZ 20) this = Returns tt this'
    /\ views this' = views this
    /\ this_size this' = Some (numZ 300)
    /\ contentSize this' = Some (numZ 300).
Proof.
  intros this.
  apply (@layout_restores_sizes this (numZ 300) (numZ 20)
           [(numZ 433 / numZ 1000)%num; (numZ 567 / numZ 1000)%num]).
  - reflexivity.
  - reflexivity.
  - reflexivity.
  - constructor; [reflexivity|]. constructor; [reflexivity|]. constructor.
  - cbn. lia.
Defined.

Local Close Scope num_scope.

(** ** Settling touches sizes and bookkeeping only *)

Lemma same_frame_refl (this : SplitView) : same_frame this this.
Proof. unfold same_frame. auto 10. Qed.

Lemma same_frame_trans (a b c : SplitView) :
  same_frame a b -> same_frame b c -> same_frame a c.
Proof.
  unfold same_frame. intros (A1 & A2 & A3 & A4 & A5 & A6)
    (B1 & B2 & B3 & B4 & B5 & B6). repeat split; congruence.
Qed.

Lemma same_frame_sashes (this this' : SplitView) :
  same_frame this this' ->
  (length (views this) - 1 <= length (sashes this))%nat ->
  (length (views this') - 1 <= length (sashes this'))%nat.
Proof.
  intros (F1 & F2 & _) H. now rewrite (same_views_length _ _ F1), F2.
Qed.

Lemma same_frame_set_views (this : SplitView) (vs : list IViewItem) :
  map view vs = map view (views this) -> same_frame this (set_views vs this).
Proof. intros H. unfold same_frame. cbn. auto 10. Qed.

Lemma relayout_frame (this : SplitView) (low high : option (list Z)) :
  (length (views this) - 1 <= length (sashes this))%nat ->
  exists this',
    relayout low high this = Returns tt this' /\ same_frame this this'.
Proof.
  intros Hs. destruct (@relayout_unfold this low high Hs) as (vs & _ & Hv & E).
  rewrite E. unfold saveProportions.
  destruct (_ >? zero)%num; eexists; (split; [reflexivity|]);
    unfold same_frame; cbn; auto 10.
Qed.

Lemma distributeEmptySpace_frame (this : SplitView) :
  exists this',
    distributeEmptySpace this = Returns tt this' /\ same_frame this this'.
Proof.
  unfold distributeEmptySpace. eexists. split; [reflexivity|].
  apply same_frame_set_views, distributeEmptySpace_loop_views.
Qed.

Lemma distributeViewSizes_frame (this : SplitView) :
  (length (views this) - 1 <= length (sashes this))%nat ->
  exists this',
    distributeViewSizes this = Returns tt this' /\ same_frame this this'.
Proof.
  intros Hs. unfold distributeViewSizes, bind, get, modify.
  destruct (flexibleViewItems 0 (views this) zero) as [items flexibleSize].
  set (vs1 := distribute_loop items _ (views this)).
  assert (F1 : same_frame this (set_views vs1 this))
    by apply same_frame_set_views, distribute_loop_views.
  destruct (@relayout_frame (set_views vs1 this) None None
              (same_frame_sashes F1 Hs)) as (this' & -> & F2).
  exists this'. split; [reflexivity|]. exact (same_frame_trans F1 F2).
Qed.

Lemma removeView_settle_frame (this : SplitView) (sizing : option Sizing)
    (v : IView) :
  (length (views this) - 1 <= length (sashes this))%nat ->
  exists this',
    removeView_settle sizing v this = Returns v this'
    /\ same_frame this this'.
Proof.
  intros Hs. unfold removeView_settle, bind.
  destruct (@relayout_frame this None None Hs) as (this1 & -> & F1).
  destruct (distributeEmptySpace_frame this1) as (this2 & -> & F2).
  pose proof (same_frame_trans F1 F2) as F12.
  destruct sizing as [[|]|].
  - destruct (@distributeViewSizes_frame this2 (same_frame_sashes F12 Hs))
      as (this3 & -> & F3).
    exists this3. split; [reflexivity|]. exact (same_frame_trans F12 F3).
  - exists this2. split; [reflexivity | exact F12].
  - exists this2. split; [reflexivity | exact F12].
Qed.

(** ** Contracts through [addView], [removeView] and [moveView] *)

Lemma splice_insert_map {A B : Type} (f : A -> B) (a : list A) (start : Z)
    (x : A) :
  map f (splice_insert a start x) = splice_insert (map f a) start (f x).
Proof.
  unfold splice_insert. rewrite length_map, map_app. cbn [map].
  now rewrite firstn_map, skipn_map.
Qed.

Lemma remove_at_map {A B : Type} (f : A -> B) (k : nat) (a : list A) :
  map f (remove_at k a) = remove_at k (map f a).
Proof.
  unfold remove_at. now rewrite map_app, firstn_map, skipn_map.
Qed.

Lemma splice_remove_rest {A : Type} (a : list A) (start : Z) :
  snd (splice_remove a start) = remove_at (splice_start (length a) start) a.
Proof. reflexivity. Qed.

Lemma removeView_unfold (this : SplitView) (index : Z)
    (sizing : option Sizing) (it : IViewItem) :
  nth_error (views this) (splice_start (length (views this)) index)
  = Some it ->
  let rest := remove_at (splice_start (length (views this)) index)
                (views this) in
  let sashIndex := Z.max (index - 1) 0 in
  removeView index sizing this
  = if (1 <=? length rest)%nat
    then
      match fst (splice_remove (sashes this) sashIndex) with
      | [] =>
          Throws (set_sashes (snd (splice_remove (sashes this) sashIndex))
                    (set_views rest this))
      | _ :: _ =>
          removeView_settle sizing (view it)
            (set_sashes (snd (splice_remove (sashes this) sashIndex))
               (set_views rest this))
      end
    else removeView_settle sizing (view it) (set_views rest this).
Proof.
  intros Hit rest sashIndex.
  assert (Hk : (splice_start (length (views this)) index
                < length (views this))%nat)
    by (apply nth_error_Some; congruence).
  destruct (splice_remove_some (views this) index Hk) as (x & Hx & Hf & _).
  rewrite Hit in Hx. injection Hx as <-.
  unfold removeView, bind, get, modify, removeView_settle.
  pose proof (splice_remove_rest (views this) index) as Hr. fold rest in Hr.
  destruct (splice_remove (views this) index) as [removed rest'].
  cbn [fst snd] in Hf, Hr. subst removed rest'.
  cbn [views set_views sashes]. fold sashIndex.
  destruct (1 <=? length rest)%nat; [|reflexivity].
  destruct (splice_remove (sashes this) sashIndex) as [[|s ss] restS];
    reflexivity.
Qed.

(** [removeView] before the end of an engine with its sashes in place:
    the contract at the position [splice] starts from leaves the
    sequence, the others keep their order. *)
Lemma removeView_contracts (this : SplitView) (index : Z)
    (sizing : option Sizing) :
  sash_invariant this -> (index < length_ this)%Z -> views this <> [] ->
  exists it this',
    nth_error (views this) (splice_start (length (views this)) index)
    = Some it
    /\ removeView index sizing this = Returns (view it) this'
    /\ map view (views this')
       = remove_at (splice_start (length (views this)) index)
           (map view (views this))
    /\ sash_invariant this'
    /\ this_size this' = this_size this.
Proof.
  intros Hinv Hi Hne. pose proof Hinv as Hinv'.
  unfold sash_invariant, length_ in Hinv, Hi.
  assert (Hlen : (0 < length (views this))%nat)
    by (destruct (views this); [congruence | cbn; lia]).
  set (k := splice_start (length (views this)) index).
  assert (Hk : (k < length (views this))%nat).
  { unfold k, splice_start. destruct (Z.ltb_spec index 0); lia. }
  destruct (nth_error (views this) k) as [it|] eqn:Hit;
    [|apply nth_error_None in Hit; lia].
  exists it. rewrite (removeView_unfold this index sizing Hit). fold k.
  set (rest := remove_at k (views this)).
  assert (Hrl : S (length rest) = length (views this)).
  { unfold rest, remove_at. rewrite length_app, length_firstn, length_skipn.
    lia. }
  destruct (Nat.leb_spec 1 (length rest)) as [H1|H1].
  - assert (Hks : (splice_start (length (sashes this)) (Z.max (index - 1) 0)
                   < length (sashes this))%nat).
    { unfold splice_start.
      destruct (Z.ltb_spec (Z.max (index - 1) 0) 0); lia. }
    destruct (splice_remove_some (sashes this) _ Hks) as (s & _ & -> & Hsl).
    remember (snd (splice_remove (sashes this) (Z.max (index - 1) 0)))
      as restS eqn:ErestS.
    set (this1 := set_sashes restS (set_views rest this)).
    destruct (@removeView_settle_frame this1 sizing (view it))
      as (this' & E & (F1 & F2 & F3 & _));
      [cbn [views sashes this1 set_sashes set_views]; lia|].
    exists this'. split; [reflexivity|]. split; [exact E|].
    split; [rewrite F1; apply remove_at_map|].
    split; [|rewrite F3; reflexivity].
    unfold sash_invariant, length_.
    rewrite (same_views_length _ _ F1), F2. cbn [views sashes this1 set_sashes
      set_views]. lia.
  - set (this1 := set_views rest this).
    destruct (@removeView_settle_frame this1 sizing (view it))
      as (this' & E & (F1 & F2 & F3 & _));
      [cbn [views sashes this1 set_views]; lia|].
    exists this'. split; [reflexivity|]. split; [exact E|].
    split; [rewrite F1; apply remove_at_map|].
    split; [|rewrite F3; reflexivity].
    unfold sash_invariant, length_.
    rewrite (same_views_length _ _ F1), F2. cbn [views sashes this1
      set_views]. lia.
Qed.

(** ** [removeView] and the positions it accepts *)

(** C10, as the code has it. [removeView] checks no bounds, and what
    happens follows [splice]: at or past the end, or on an engine without
    items, nothing is removed, the [dispose] of the missing item throws
    and the engine, sashes included, is as before; a negative position on
    an engine that holds items counts from the end: the item there is
    removed and returned without failure, with one sash if an item
    remains; a position that holds an item removes that item. The items
    that stay keep their order and their contracts. *)
Theorem removeView_positions (this : SplitView) (index : Z)
    (sizing : option Sizing) :
  sash_invariant this ->
  ((length_ this <= index)%Z \/ views this = [] ->
     removeView index sizing this = Throws this)
  /\ ((index < length_ this)%Z -> views this <> [] ->
      exists it this',
        nth_error (views this)
          (if (index <? 0)%Z then Z.to_nat (Z.max (length_ this + index) 0)
           else Z.to_nat index) = Some it
        /\ removeView index sizing this = Returns (view it) this'
        /\ map view (views this')
           = remove_at
               (if (index <? 0)%Z
                then Z.to_nat (Z.max (length_ this + index) 0)
                else Z.to_nat index)
               (map view (views this))
        /\ S (length (views this')) = length (views this)
        /\ length (sashes this)
           = (length (sashes this')
              + if (1 <=? length (views this'))%nat then 1 else 0)%nat).
Proof.
  intros Hinv. split.
  - apply removeView_throws.
  - intros Hi Hne.
    assert (Hk : splice_start (length (views this)) index
                 = if (index <? 0)%Z
                   then Z.to_nat (Z.max (length_ this + index) 0)
                   else Z.to_nat index).
    { unfold splice_start, length_ in *.
      destruct (Z.ltb_spec index 0); lia. }
    destruct (@removeView_returns this index sizing Hinv Hi Hne)
      as (it & this' & Hit & E & L & Hs).
    destruct (@removeView_contracts this index sizing Hinv Hi Hne)
      as (it' & this'' & Hit' & E' & Hv & _).
    rewrite E in E'. injection E' as _ <-.
    rewrite Hk in Hit, Hv.
    exists it, this'. repeat split; auto.
Qed.

Lemma removeView_positions_witness :
  let this :=
    engine [item (numZ 50) PInf None (numZ 100);
            item (numZ 60) PInf None (numZ 100)] (numZ 200) in
  removeView 2 None this = Throws this
  /\ exists it this',
       nth_error (views this) 1 = Some it
       /\ removeView (-1) None this = Returns (view it) this'
       /\ map view (views this')
          = [{| minimumSize := numZ 50; maximumSize := PInf;
                snapSize := None |}]
       /\ S (length (views this')) = 2%nat
       /\ 1%nat
          = (length (sashes this')
             + if (1 <=? length (views this'))%nat then 1 else 0)%nat.
Proof.
  intros this.
  assert (Hinv : sash_invariant this) by reflexivity.
  split.
  - apply (proj1 (@removeView_positions this 2 None Hinv)). left. cbn. lia.
  - apply (proj2 (@removeView_positions this (-1) None Hinv)).
    + cbn. lia.
    + discriminate.
Defined.

(** C10, as stated, fails on an engine of two items and one sash: for
    the position -1, outside [0, 2), [splice] does yield an item and the
    call returns normally; for position 2 the call throws with the sash
    still in place. *)
Lemma removeView_out_of_range_counterexample :
  let this :=
    engine [item (numZ 50) PInf None (numZ 100);
            item (numZ 60) PInf None (numZ 100)] (numZ 200) in
  (exists removed this',
     removeView (-1) None this = Returns removed this'
     /\ fst (splice_remove (views this) (-1))
        = [item (numZ 60) PInf None (numZ 100)]
     /\ length (views this') = 1%nat)
  /\ (exists this',
        removeView 2 None this = Throws this'
        /\ length (sashes this') = length (sashes this)
        /\ length (views this') = 2%nat).
Proof.
  intros this. split.
  - destruct (@removeView_returns this (-1) None eq_refl)
      as (it & this' & _ & E & L & _); [cbn; lia | discriminate |].
    exists (view it), this'. split; [exact E|]. split; [reflexivity|].
    cbn in L. congruence.
  - exists this. split; [|split; reflexivity].
    apply removeView_throws. left. cbn. lia.
Qed.

Lemma addView_unfold (this : SplitView) (v : IView) (sz : SizeArg)
    (index : option Z) (skipLayout : bool) :
  let index' :=
    match index with
    | Some i => i
    | None => length_ this
    end in
  addView v (Some sz) index skipLayout this
  = addView_settle sz index' skipLayout
      (addView_inserted v (addView_viewSize v sz this) index' this).
Proof.
  intros index'. unfold addView, addView_settle, addView_inserted,
    addView_viewSize, bind, get, modify, ret.
  fold index'. cbn [views set_views set_elements sashes elements].
  destruct (1 <? length _)%nat; destruct sz as [n|[|i]]; reflexivity.
Qed.

Lemma addView_inserted_views (v : IView) (viewSize : num) (index : Z)
    (this : SplitView) :
  views (addView_inserted v viewSize index this)
  = splice_insert (views this) index (Build_IViewItem v viewSize)
  /\ this_size (addView_inserted v viewSize index this) = this_size this
  /\ length (sashes (addView_inserted v viewSize index this))
     = (length (sashes this)
        + if (1 <? S (length (views this)))%nat then 1 else 0)%nat.
Proof.
  unfold addView_inserted. cbn [views set_views set_elements].
  rewrite splice_insert_length.
  destruct (1 <? S (length (views this)))%nat; cbn; repeat split; auto.
  rewrite length_app. cbn. lia.
Qed.

Lemma addView_settle_frame (this : SplitView) (sz : SizeArg) (index : Z)
    (skipLayout : bool) :
  (length (views this) - 1 <= length (sashes this))%nat ->
  exists this',
    addView_settle sz index skipLayout this = Returns tt this'
    /\ same_frame this this'.
Proof.
  intros Hs. unfold addView_settle, bind, ret.
  destruct skipLayout; cbn [negb].
  - exists this. split; [now destruct sz as [n|[|i]] | apply same_frame_refl].
  - destruct (@relayout_frame this (Some [index]) None Hs)
      as (this1 & -> & F1).
    destruct sz as [n|[|i]].
    + exists this1. auto.
    + destruct (@distributeViewSizes_frame this1 (same_frame_sashes F1 Hs))
        as (this2 & -> & F2).
      exists this2. split; [reflexivity | exact (same_frame_trans F1 F2)].
    + exists this1. auto.
Qed.

(** [addView] with a size or sizing, on an engine with its sashes in
    place: the contract enters at the position [splice] starts from, the
    others keep their order. *)
Lemma addView_contracts (this : SplitView) (v : IView) (sz : SizeArg)
    (index : option Z) (skipLayout : bool) :
  sash_invariant this ->
  exists this',
    addView v (Some sz) index skipLayout this = Returns tt this'
    /\ map view (views this')
       = splice_insert (map view (views this))
           (match index with Some i => i | None => length_ this end) v
    /\ sash_invariant this'
    /\ this_size this' = this_size this.
Proof.
  intros Hinv. unfold sash_invariant, length_ in Hinv.
  rewrite addView_unfold.
  set (index' := match index with Some i => i | None => length_ this end).
  set (this1 := addView_inserted v _ index' this).
  destruct (addView_inserted_views v (addView_viewSize v sz this) index' this)
    as (V1 & T1 & S1). fold this1 in V1, T1, S1.
  assert (L1 : length (views this1) = S (length (views this)))
    by (rewrite V1; apply splice_insert_length).
  assert (Hs1 : (length (views this1) - 1 <= length (sashes this1))%nat).
  { rewrite L1, S1. destruct (Nat.ltb_spec 1 (S (length (views this)))); lia. }
  destruct (@addView_settle_frame this1 sz index' skipLayout Hs1)
    as (this' & -> & (F1 & F2 & F3 & _)).
  exists this'. split; [reflexivity|].
  split; [rewrite F1, V1; apply splice_insert_map|].
  split; [|congruence].
  unfold sash_invariant, length_.
  rewrite (same_views_length _ _ F1), F2, L1, S1.
  destruct (Nat.ltb_spec 1 (S (length (views this)))); lia.
Qed.

(** X9. [moveView(from, to)] on an engine with its sashes in place and
    [from] below the item count returns, and reorders the contracts: the
    one at the position [splice] takes [from] for is taken out and enters
    the remaining sequence at the position [splice] takes [to] for; the
    item count, the sash count invariant and the container size are
    kept. *)
Theorem moveView_reorders (this : SplitView) (from to : Z) :
  sash_invariant this -> (from < length_ this)%Z -> views this <> [] ->
  exists it this',
    nth_error (views this) (splice_start (length (views this)) from) = Some it
    /\ moveView from to this = Returns tt this'
    /\ map view (views this')
       = splice_insert
           (remove_at (splice_start (length (views this)) from)
              (map view (views this)))
           to (view it)
    /\ length_ this' = length_ this
    /\ sash_invariant this'
    /\ this_size this' = this_size this.
Proof.
  intros Hinv Hfrom Hne.
  destruct (@removeView_contracts this from None Hinv Hfrom Hne)
    as (it & this1 & Hit & Hrm & Hv1 & Hinv1 & Hs1).
  destruct (@addView_contracts this1 (view it)
              (size_number (getViewSize from this)) (Some to) false Hinv1)
    as (this2 & Hadd & Hv2 & Hinv2 & Hs2).
  exists it, this2. split; [exact Hit|].
  split; [unfold moveView, bind, get; now rewrite Hrm|].
  split; [now rewrite Hv2, Hv1|].
  split; [|split; [exact Hinv2 | congruence]].
  unfold length_. f_equal.
  assert (Hk : (splice_start (length (views this)) from
                < length (views this))%nat)
    by (apply nth_error_Some; now rewrite Hit).
  rewrite <- (length_map view (views this2)), Hv2, splice_insert_length, Hv1.
  unfold remove_at.
  rewrite length_app, length_firstn, length_skipn, length_map. lia.
Qed.

Lemma moveView_reorders_witness :
  let a := item (numZ 0) PInf None (numZ 40) in
  let b := item (numZ 10) PInf None (numZ 60) in
  let this := engine [a; b] (numZ 100) in
  exists this',
    moveView 0 1 this = Returns tt this'
    /\ map view (views this') = [view b; view a].
Proof.
  intros a b this.
  destruct (@moveView_reorders this 0 1) as (it & this' & Hit & Hm & Hv & _).
  - reflexivity.
  - reflexivity.
  - discriminate.
  - exists this'. split; [exact Hm|].
    assert (E : it = a) by (cbn in Hit; congruence).
    rewrite Hv, E. reflexivity.
Defined.

(** X10. [moveView(from, to)] with [from] at or past the item count
    throws out of [removeView], before anything is added: the engine is
    as it was. *)
Theorem moveView_out_of_range_throws (this : SplitView) (from to : Z) :
  (length_ this <= from)%Z ->
  moveView from to this = Throws this.
Proof.
  intros H. unfold moveView, bind, get.
  now rewrite (@removeView_throws this from None (or_introl H)).
Qed.

Lemma moveView_out_of_range_throws_witness :
  moveView 0 0 (empty_SplitView VERTICAL) = Throws (empty_SplitView VERTICAL).
Proof.
  apply moveView_out_of_range_throws. cbn. lia.
Defined.

Lemma splice_insert_end {A : Type} (a : list A) (x : A) :
  splice_insert a (Z.of_nat (length a)) x = a ++ [x].
Proof.
  unfold splice_insert, splice_start.
  destruct (Z.ltb_spec (Z.of_nat (length a)) 0) as [H|_]; [lia|].
  rewrite Nat2Z.id, Nat.min_id, firstn_all, skipn_all. reflexivity.
Qed.

Lemma add_descriptor_views_appends (ds : list ViewDescriptor)
    (this : SplitView) :
  sash_invariant this ->
  exists this',
    add_descriptor_views ds (length_ this) this = Returns tt this'
    /\ views this' = views this ++ map descriptor_item ds
    /\ sash_invariant this'
    /\ this_size this' = this_size this
    /\ orientation this' = orientation this
    /\ _proportions this' = _proportions this.
Proof.
  revert this. induction ds as [|d rest IH]; intros this Hinv.
  - exists this. cbn [add_descriptor_views map]. rewrite app_nil_r.
    unfold ret. repeat split; auto.
  - cbn [add_descriptor_views]. unfold bind at 1.
    rewrite addView_unfold. cbv zeta.
    set (this1 := addView_inserted _ _ _ this).
    assert (V1 : views this1 = views this ++ [descriptor_item d]).
    { unfold this1, addView_inserted. cbn [views set_views set_elements].
      unfold length_. rewrite splice_insert_end.
      now destruct (1 <? _)%nat. }
    assert (Hinv1 : sash_invariant this1).
    { unfold sash_invariant, length_ in *. rewrite V1, length_app.
      cbn [length]. unfold this1, addView_inserted.
      cbn [views set_views set_elements]. unfold length_.
      rewrite splice_insert_end, length_app. cbn [length].
      destruct (Nat.ltb_spec 1 (length (views this) + 1));
        cbn [sashes set_sashes set_views set_elements];
        rewrite ?length_app; cbn [length]; lia. }
    assert (F1 : this_size this1 = this_size this
                 /\ orientation this1 = orientation this
                 /\ _proportions this1 = _proportions this).
    { unfold this1, addView_inserted. now destruct (1 <? _)%nat. }
    assert (L1 : (length_ this + 1)%Z = length_ this1).
    { unfold length_. rewrite V1, length_app. cbn [length]. lia. }
    unfold addView_settle, bind, ret. cbn [negb]. rewrite L1.
    destruct (IH this1 Hinv1) as (this' & -> & V & I & T & O & P).
    exists this'. split; [reflexivity|].
    split; [rewrite V, V1, <- app_assoc; reflexivity|].
    destruct F1 as (? & ? & ?). repeat split; congruence.
Qed.

(** X11. The constructor with a descriptor returns an engine that holds
    one item per described view, in the descriptor's order, each with the
    contract and the size the descriptor states, whatever the contract's
    bounds are; the sash count invariant holds, the container size is the
    descriptor's, and the content size is the sum of the stated sizes. *)
Theorem new_SplitView_from_descriptor (o : Orientation)
    (d : ISplitViewDescriptor) :
  exists this,
    new_SplitView o (Some d) = Returns tt this
    /\ views this = map descriptor_item (descriptor_views d)
    /\ sash_invariant this
    /\ orientation this = o
    /\ this_size this = Some (descriptor_size d)
    /\ contentSize this
       = Some (sum_sizes (map descriptor_item (descriptor_views d))).
Proof.
  unfold new_SplitView, bind, modify, get.
  set (this0 := set_this_size (descriptor_size d) (empty_SplitView o)).
  assert (Hinv0 : sash_invariant this0) by reflexivity.
  destruct (@add_descriptor_views_appends (descriptor_views d) this0 Hinv0)
    as (this1 & H1 & V1 & I1 & T1 & O1 & _).
  change (length_ this0) with 0%Z in H1. rewrite H1.
  cbn [app views] in V1.
  unfold saveProportions.
  cbn [contentSize set_contentSize toNumber views].
  destruct (_ >? _)%num;
    (eexists; split; [reflexivity|]);
    cbn [views set_contentSize set_proportions contentSize this_size
         orientation];
    (split; [exact V1|]); (split; [exact I1|]);
    rewrite T1, O1, V1; auto.
Qed.

(** ** The two passes of [resize] on items within their bounds *)

Local Open Scope num_scope.

Lemma item_term_set_size (term : IView -> num -> num) (vs : list IViewItem)
    (sizes : list num) (i j : Z) (sz : num) :
  item_term term (set_size i sz vs) sizes j = item_term term vs sizes j.
Proof.
  unfold item_term. pose proof (at_index_view_set_size i j sz vs) as H.
  destruct (at_index (set_size i sz vs) j), (at_index vs j);
    cbn in H; congruence.
Qed.

Lemma sum_over_ext (indexes : list Z) (f g : Z -> num) :
  (forall i, In i indexes -> f i = g i) ->
  sum_over indexes f = sum_over indexes g.
Proof.
  unfold sum_over. induction indexes as [|i rest IH]; intros H;
    cbn [fold_right]; [reflexivity|].
  rewrite (H i (or_introl eq_refl)), IH; auto.
  intros; apply H; now right.
Qed.

(** One step of the down pass, the mirror image of [clamp_step]. *)
Lemma clamp_step_down (s m a : Qc) (mx lo hi : num) :
  (m <= s)%Qc -> (Fin s <=? mx)%num = true ->
  (lo <=? zero)%num = true -> (zero <=? hi)%num = true ->
  (Fin s - mx + lo <=? Fin a)%num = true ->
  (Fin a <=? Fin s - Fin m + hi)%num = true ->
  exists n,
    clamp (Fin s - Fin a) (Fin m) mx = Fin n
    /\ (m <= n)%Qc /\ (Fin n <=? mx)%num = true
    /\ (Fin n - Fin s)%num = Fin (n - s)
    /\ (Fin a + Fin (n - s))%num = Fin (a + (n - s))
    /\ (lo <=? Fin (a + (n - s)))%num = true
    /\ (Fin (a + (n - s)) <=? hi)%num = true.
Proof.
  intros Hms Hmx Hlo Hhi Hd1 Hd2.
  assert (Hm : (Fin m <=? mx)%num = true) by (destruct mx; num_finish).
  change (Fin s - Fin a)%num with (Fin (s + - a)).
  destruct (@clamp_cases (s + - a)%Qc m mx Hm)
    as [(E & H1 & H2)|[(E & H1)|(M & EM & E & H1 & H2)]];
    rewrite E; clear E; eexists; (split; [reflexivity|]);
    (split; [assumption || qc_lra|]).
  all: destruct (@le0_cases lo Hlo) as [->|(l & -> & Hl)];
    destruct (@ge0_cases hi Hhi) as [->|(h & -> & Hh)];
    destruct (@max_cases s mx Hmx) as [->|(M' & -> & HM')];
    clear Hlo Hhi Hmx Hm.
  all: try discriminate EM; try (apply Fin_inj in EM; subst M').
  all: num_prop.
  all: repeat split; try reflexivity; try assumption; try qc_lra.
Qed.

Lemma sum_sizes_set_size_fin (i : Z) (vs : list IViewItem) (it : IViewItem)
    (S s n : Qc) :
  at_index vs i = Some it -> size it = Fin s -> sum_sizes vs = Fin S ->
  sum_sizes (set_size i (Fin n) vs) = Fin (S + (n - s)).
Proof.
  intros E Es ES. pose proof (@sum_sizes_set_size i (Fin n) vs it E) as H.
  rewrite Es, ES in H. destruct (sum_sizes (set_size i (Fin n) vs));
    num_unfold; try discriminate.
  apply Fin_inj in H. f_equal. qc_lra.
Qed.

Lemma ready_terms (idx : list Z) (sizes : list num) (vs : list IViewItem)
    (i : Z) :
  ready idx sizes vs -> In i idx ->
  (item_term (fun v s => effectiveMinimum v - s) vs sizes i <=? zero) = true
  /\ (zero <=? item_term (fun v s => maximumSize v - s) vs sizes i) = true
  /\ (item_term (fun v s => s - maximumSize v) vs sizes i <=? zero) = true
  /\ (zero <=? item_term (fun v s => s - effectiveMinimum v) vs sizes i)
     = true.
Proof.
  intros H Hi. destruct (H i Hi) as (it & E & Hb & Es).
  unfold item_term. rewrite E, Es.
  destruct (plain_in_bounds_inv it Hb) as (s & m & Esn & -> & Em & Hms & Hmx).
  unfold effectiveMinimum. rewrite Esn, Em.
  destruct (@max_cases s _ Hmx) as [->|(M & -> & HM)]; num_prop;
    repeat split; try reflexivity; qc_lra.
Qed.

Lemma ready_set_size (i : Z) (rest : list Z) (sizes : list num)
    (vs : list IViewItem) (sz : num) :
  ~ In i rest -> ready (i :: rest) sizes vs ->
  ready rest sizes (set_size i sz vs).
Proof.
  intros Hni H j Hj. destruct (H j (or_intror Hj)) as (it & E & Hb & Es).
  exists it. rewrite at_index_set_size_ne by (intros ->; contradiction).
  auto.
Qed.

Lemma resize_up_pass (idx : list Z) (sizes : list num) :
  forall (vs : list IViewItem) (d a S : Qc),
  NoDup idx -> ready idx sizes vs -> sum_sizes vs = Fin S ->
  (sum_over idx (item_term (fun v s => effectiveMinimum v - s) vs sizes)
   <=? Fin d) = true ->
  (Fin d
   <=? sum_over idx (item_term (fun v s => maximumSize v - s) vs sizes))
  = true ->
  exists vs',
    resize_up idx sizes vs (Fin d) (Fin a) = Some (vs', Fin (a + d))
    /\ map view vs' = map view vs
    /\ (forall j, ~ In j idx -> at_index vs' j = at_index vs j)
    /\ (forall j, In j idx ->
          exists it, at_index vs' j = Some it /\ plain_in_bounds it = true)
    /\ sum_sizes vs' = Fin (S + d).
Proof.
  induction idx as [|i rest IH]; intros vs d a S Hnd Hr HS Hlo Hhi.
  - cbn [sum_over fold_right] in Hlo, Hhi.
    pose proof (@num_between_zero d Hlo Hhi) as Hd. apply Fin_inj in Hd.
    subst d. exists vs. cbn [resize_up].
    split; [do 3 f_equal; qc_lra|]. split; [reflexivity|].
    split; [reflexivity|]. split; [intros j []|]. rewrite HS. f_equal. qc_lra.
  - inversion Hnd as [|? ? Hni Hnd']; subst.
    pose proof (@ready_set_size i rest sizes vs) as Hr'.
    assert (Hrest : ready rest sizes vs)
      by (intros j Hj; apply Hr; now right).
    destruct (Hr i (or_introl eq_refl)) as (it & E & Hb & Es).
    destruct (plain_in_bounds_inv it Hb) as (s & m & Esn & Ez & Em & Hms & Hmx).
    unfold sum_over in Hlo, Hhi. cbn [fold_right] in Hlo, Hhi.
    fold (sum_over rest (item_term (fun v s => effectiveMinimum v - s) vs sizes))
      in Hlo.
    fold (sum_over rest (item_term (fun v s => maximumSize v - s) vs sizes))
      in Hhi.
    unfold item_term at 1 in Hlo. unfold item_term at 1 in Hhi.
    rewrite E, Es, Ez in Hlo, Hhi. unfold effectiveMinimum in Hlo at 1.
    rewrite Esn, Em in Hlo.
    assert (Hl0 : (sum_over rest
                     (item_term (fun v s => effectiveMinimum v - s) vs sizes)
                   <=? zero) = true)
      by (apply sum_over_le0; intros j Hj;
          apply (@ready_terms rest sizes vs j Hrest Hj)).
    assert (Hh0 : (zero <=? sum_over rest
                     (item_term (fun v s => maximumSize v - s) vs sizes))
                  = true)
      by (apply sum_over_ge0; intros j Hj;
          apply (@ready_terms rest sizes vs j Hrest Hj)).
    destruct (@clamp_step s m d (maximumSize (view it)) _ _
                Hms Hmx Hl0 Hh0 Hlo Hhi)
      as (n & Ec & Hmn & Hnx & En & Ed & Hlo' & Hhi').
    cbn [resize_up]. rewrite E, Es, Ez. unfold clampView. rewrite Esn, Em, Ec.
    rewrite En, Ed. change (Fin a + Fin (n - s)) with (Fin (a + (n - s))).
    destruct (IH (set_size i (Fin n) vs) (d - (n - s))%Qc (a + (n - s))%Qc
                (S + (n - s))%Qc Hnd' (Hr' (Fin n) Hni Hr)
                (@sum_sizes_set_size_fin i vs it S s n E Ez HS))
      as (vs' & Hup & Hv & Hout & Hin & Hsum).
    { rewrite (@sum_over_ext rest _
                 (item_term (fun v s => effectiveMinimum v - s) vs sizes));
        [exact Hlo' | intros; apply item_term_set_size]. }
    { rewrite (@sum_over_ext rest _
                 (item_term (fun v s => maximumSize v - s) vs sizes));
        [exact Hhi' | intros; apply item_term_set_size]. }
    exists vs'. split.
    { rewrite Hup. do 3 f_equal. qc_lra. }
    split; [now rewrite Hv, set_size_views|]. split.
    { intros j Hj. rewrite Hout by (intros Hj'; apply Hj; now right).
      apply at_index_set_size_ne. intros ->. apply Hj. now left. }
    split.
    { intros j [<-|Hj]; [|now apply Hin].
      rewrite (Hout i Hni), (@at_index_set_size_eq i (Fin n) vs it E).
      eexists. split; [reflexivity|].
      now apply (@plain_in_bounds_intro (view it) n m). }
    rewrite Hsum. f_equal. qc_lra.
Qed.

Lemma resize_down_pass (idx : list Z) (sizes : list num) :
  forall (vs : list IViewItem) (a S : Qc),
  NoDup idx -> ready idx sizes vs -> sum_sizes vs = Fin S ->
  (sum_over idx (item_term (fun v s => s - maximumSize v) vs sizes)
   <=? Fin a) = true ->
  (Fin a
   <=? sum_over idx (item_term (fun v s => s - effectiveMinimum v) vs sizes))
  = true ->
  exists vs',
    resize_down idx sizes vs (Fin a) = Some vs'
    /\ map view vs' = map view vs
    /\ (forall j, ~ In j idx -> at_index vs' j = at_index vs j)
    /\ (forall j, In j idx ->
          exists it, at_index vs' j = Some it /\ plain_in_bounds it = true)
    /\ sum_sizes vs' = Fin (S - a).
Proof.
  induction idx as [|i rest IH]; intros vs a S Hnd Hr HS Hlo Hhi.
  - cbn [sum_over fold_right] in Hlo, Hhi.
    pose proof (@num_between_zero a Hlo Hhi) as Hd. apply Fin_inj in Hd.
    subst a. exists vs. cbn [resize_down].
    split; [reflexivity|]. split; [reflexivity|].
    split; [reflexivity|]. split; [intros j []|]. rewrite HS. f_equal. qc_lra.
  - inversion Hnd as [|? ? Hni Hnd']; subst.
    pose proof (@ready_set_size i rest sizes vs) as Hr'.
    assert (Hrest : ready rest sizes vs)
      by (intros j Hj; apply Hr; now right).
    destruct (Hr i (or_introl eq_refl)) as (it & E & Hb & Es).
    destruct (plain_in_bounds_inv it Hb) as (s & m & Esn & Ez & Em & Hms & Hmx).
    unfold sum_over in Hlo, Hhi. cbn [fold_right] in Hlo, Hhi.
    fold (sum_over rest (item_term (fun v s => s - maximumSize v) vs sizes))
      in Hlo.
    fold (sum_over rest (item_term (fun v s => s - effectiveMinimum v) vs sizes))
      in Hhi.
    unfold item_term at 1 in Hlo. unfold item_term at 1 in Hhi.
    rewrite E, Es, Ez in Hlo, Hhi. unfold effectiveMinimum in Hhi at 1.
    rewrite Esn, Em in Hhi.
    assert (Hl0 : (sum_over rest
                     (item_term (fun v s => s - maximumSize v) vs sizes)
                   <=? zero) = true)
      by (apply sum_over_le0; intros j Hj;
          apply (@ready_terms rest sizes vs j Hrest Hj)).
    assert (Hh0 : (zero <=? sum_over rest
                     (item_term (fun v s => s - effectiveMinimum v) vs sizes))
                  = true)
      by (apply sum_over_ge0; intros j Hj;
          apply (@ready_terms rest sizes vs j Hrest Hj)).
    destruct (@clamp_step_down s m a (maximumSize (view it)) _ _
                Hms Hmx Hl0 Hh0 Hlo Hhi)
      as (n & Ec & Hmn & Hnx & En & Ed & Hlo' & Hhi').
    cbn [resize_down]. rewrite E, Es, Ez. unfold clampView.
    rewrite Esn, Em, Ec. rewrite En, Ed.
    destruct (IH (set_size i (Fin n) vs) (a + (n - s))%Qc
                (S + (n - s))%Qc Hnd' (Hr' (Fin n) Hni Hr)
                (@sum_sizes_set_size_fin i vs it S s n E Ez HS))
      as (vs' & Hdn & Hv & Hout & Hin & Hsum).
    { rewrite (@sum_over_ext rest _
                 (item_term (fun v s => s - maximumSize v) vs sizes));
        [exact Hlo' | intros; apply item_term_set_size]. }
    { rewrite (@sum_over_ext rest _
                 (item_term (fun v s => s - effectiveMinimum v) vs sizes));
        [exact Hhi' | intros; apply item_term_set_size]. }
    exists vs'. split; [exact Hdn|].
    split; [now rewrite Hv, set_size_views|]. split.
    { intros j Hj. rewrite Hout by (intros Hj'; apply Hj; now right).
      apply at_index_set_size_ne. intros ->. apply Hj. now left. }
    split.
    { intros j [<-|Hj]; [|now apply Hin].
      rewrite (Hout i Hni), (@at_index_set_size_eq i (Fin n) vs it E).
      eexists. split; [reflexivity|].
      now apply (@plain_in_bounds_intro (view it) n m). }
    rewrite Hsum. f_equal. qc_lra.
Qed.

Lemma clamp_fin (d : Qc) (lo hi : num) :
  (lo <=? zero) = true -> (zero <=? hi) = true ->
  exists t,
    clamp (Fin d) lo hi = Fin t
    /\ (lo <=? Fin t) = true /\ (Fin t <=? hi) = true.
Proof.
  intros H1 H2.
  destruct (@le0_cases lo H1) as [->|(x & -> & Hx)];
    destruct (@ge0_cases hi H2) as [->|(y & -> & Hy)]; clear H1 H2.
  all: num_unfold; dec_cases; eexists; (split; [reflexivity|]).
  all: num_unfold; dec_cases; repeat split; try reflexivity;
    try (exfalso; qc_lra).
Qed.

Lemma num_max_le0 (a b : num) :
  (a <=? zero) = true -> (b <=? zero) = true ->
  (num_max a b <=? zero) = true
  /\ forall t, (num_max a b <=? Fin t) = true ->
       (a <=? Fin t) = true /\ (b <=? Fin t) = true.
Proof.
  intros H1 H2.
  destruct (@le0_cases a H1) as [->|(x & -> & Hx)];
    destruct (@le0_cases b H2) as [->|(y & -> & Hy)]; clear H1 H2.
  all: split; [num_finish|intros t Ht; split; num_finish].
Qed.

Lemma num_min_ge0 (a b : num) :
  (zero <=? a) = true -> (zero <=? b) = true ->
  (zero <=? num_min a b) = true
  /\ forall t, (Fin t <=? num_min a b) = true ->
       (Fin t <=? a) = true /\ (Fin t <=? b) = true.
Proof.
  intros H1 H2.
  destruct (@ge0_cases a H1) as [->|(x & -> & Hx)];
    destruct (@ge0_cases b H2) as [->|(y & -> & Hy)]; clear H1 H2.
  all: split; [num_finish|intros t Ht; split; num_finish].
Qed.

(** The range clamp on a feasible range gives a finite delta within each
    of the four bounds. *)
Lemma clamp_feasible (d : Qc) (l1 l2 h1 h2 : num) :
  (l1 <=? zero) = true -> (l2 <=? zero) = true ->
  (zero <=? h1) = true -> (zero <=? h2) = true ->
  exists t,
    clamp (Fin d) (num_max l1 l2) (num_min h1 h2) = Fin t
    /\ (l1 <=? Fin t) = true /\ (l2 <=? Fin t) = true
    /\ (Fin t <=? h1) = true /\ (Fin t <=? h2) = true.
Proof.
  intros H1 H2 H3 H4.
  destruct (@num_max_le0 l1 l2 H1 H2) as (Hl & Hl').
  destruct (@num_min_ge0 h1 h2 H3 H4) as (Hh & Hh').
  destruct (@clamp_fin d _ _ Hl Hh) as (t & E & Ht1 & Ht2).
  exists t. split; [exact E|].
  destruct (Hl' t Ht1), (Hh' t Ht2). auto.
Qed.

Lemma item_term_views (term : IView -> num -> num) (vs vs' : list IViewItem)
    (sizes : list num) (i : Z) :
  map view vs' = map view vs ->
  item_term term vs' sizes i = item_term term vs sizes i.
Proof.
  intros H. unfold item_term.
  assert (E : option_map view (at_index vs' i) = option_map view (at_index vs i)).
  { unfold at_index. destruct (i <? 0)%Z; auto.
    now rewrite <- !nth_error_map, H. }
  destruct (at_index vs' i), (at_index vs i); cbn in E; congruence.
Qed.

Lemma ready_all (idx : list Z) (vs : list IViewItem) :
  forallb plain_in_bounds vs = true -> Forall (in_range vs) idx ->
  ready idx (sizes_of vs) vs.
Proof.
  intros Hall Hr i Hi. rewrite Forall_forall in Hr.
  destruct (at_index_in_range (Hr i Hi)) as [it E].
  exists it. split; [exact E|]. split; [exact (forallb_at_index _ _ _ Hall E)|].
  now rewrite at_index_sizes_of, E.
Qed.

Lemma plain_sizes_finite (vs : list IViewItem) :
  forallb plain_in_bounds vs = true -> exists S, sum_sizes vs = Fin S.
Proof.
  intros H. rewrite sum_sizes_sum_of. apply sum_of_finite.
  intros it Hit. rewrite forallb_forall in H.
  apply plain_in_bounds_finite, H, Hit.
Qed.

(** [resize] on items without snap size that are within their bounds: the
    clamped delta is finite, every item stays within its bounds, and the
    sizes' sum moves by the clamped delta when the sash is the last
    position's and not at all otherwise. *)
Lemma resize_plain (this : SplitView) (index : Z) (d : Qc)
    (low high : option (list Z)) :
  forallb plain_in_bounds (views this) = true ->
  (0 <= index < length_ this)%Z ->
  exists vs' t S,
    spec_clamped_delta (views this) (sizes_of (views this)) index (Fin d)
    = Fin t
    /\ resize index (Fin d) None low high this = Returns tt (set_views vs' this)
    /\ map view vs' = map view (views this)
    /\ forallb plain_in_bounds vs' = true
    /\ sum_sizes (views this) = Fin S
    /\ sum_sizes vs'
       = Fin (if (index =? length_ this - 1)%Z then S + t else S).
Proof.
  intros Hall Hi.
  set (vs := views this) in *. set (sizes := sizes_of vs).
  set (up := resize_upIndexes index low high).
  set (down := resize_downIndexes index this low high).
  assert (Pu : Permutation (interval 0 index) up).
  { etransitivity; [apply range_down_interval; lia | apply prioritize_perm]. }
  assert (Pd : Permutation (interval (index + 1) (length_ this - 1)) down).
  { etransitivity; [apply range_up_interval; lia | apply prioritize_perm]. }
  assert (Nu : NoDup up)
    by (apply (Permutation_NoDup Pu), interval_NoDup).
  assert (Nd : NoDup down)
    by (apply (Permutation_NoDup Pd), interval_NoDup).
  assert (Ru : ready up sizes vs)
    by (apply ready_all; [exact Hall | apply upIndexes_in_range, Hi]).
  assert (Rd : ready down sizes vs)
    by (apply ready_all; [exact Hall | apply downIndexes_in_range, Hi]).
  assert (Hdisj : forall j, In j down -> ~ In j up).
  { intros j Hd Hu.
    apply (Permutation_in _ (Permutation_sym Pu)), in_interval_iff in Hu.
    apply (Permutation_in _ (Permutation_sym Pd)), in_interval_iff in Hd.
    lia. }
  destruct (plain_sizes_finite _ Hall) as [S HS].
  (* the clamped delta *)
  assert (Hsign_u := fun j (Hj : In j up) => @ready_terms up sizes vs j Ru Hj).
  assert (Hsign_d := fun j (Hj : In j down) =>
                       @ready_terms down sizes vs j Rd Hj).
  assert (U1 : (sum_over up
                  (item_term (fun v s => effectiveMinimum v - s) vs sizes)
                <=? zero) = true)
    by (apply sum_over_le0; intros j Hj; apply (Hsign_u j Hj)).
  assert (U2 : (zero <=? sum_over up
                  (item_term (fun v s => maximumSize v - s) vs sizes)) = true)
    by (apply sum_over_ge0; intros j Hj; apply (Hsign_u j Hj)).
  assert (D1 : (sum_over down
                  (item_term (fun v s => s - maximumSize v) vs sizes)
                <=? zero) = true)
    by (apply sum_over_le0; intros j Hj; apply (Hsign_d j Hj)).
  assert (D2 : (zero <=? sum_over down
                  (item_term (fun v s => s - effectiveMinimum v) vs sizes))
               = true)
    by (apply sum_over_ge0; intros j Hj; apply (Hsign_d j Hj)).
  assert (Espec : exists t,
    spec_clamped_delta vs sizes index (Fin d) = Fin t
    /\ (sum_over up (item_term (fun v s => effectiveMinimum v - s) vs sizes)
        <=? Fin t) = true
    /\ (Fin t <=? sum_over up
          (item_term (fun v s => maximumSize v - s) vs sizes)) = true
    /\ ((index =? length_ this - 1)%Z = false ->
        (sum_over down (item_term (fun v s => s - maximumSize v) vs sizes)
         <=? Fin t) = true
        /\ (Fin t <=? sum_over down
              (item_term (fun v s => s - effectiveMinimum v) vs sizes))
           = true)).
  { unfold spec_clamped_delta, spec_minDeltaUp, spec_maxDeltaUp,
      spec_minDeltaDown, spec_maxDeltaDown.
    rewrite !(sum_over_perm _ Pu).
    change (Z.of_nat (length vs)) with (length_ this).
    rewrite !(sum_over_perm _ Pd).
    destruct (index =? length_ this - 1)%Z.
    - destruct (@clamp_feasible d _ NInf PInf _ U1 eq_refl eq_refl U2)
        as (t & E & H1 & _ & _ & H4).
      exists t. repeat split; auto; discriminate.
    - destruct (@clamp_feasible d _ _ _ _ U1 D1 D2 U2)
        as (t & E & H1 & H2 & H3 & H4).
      exists t. repeat split; auto. }
  destruct Espec as (t & Et & Tu1 & Tu2 & Td).
  (* the up pass *)
  destruct (@resize_up_pass up sizes vs t (Q2Qc 0) S Nu Ru HS Tu1 Tu2)
    as (vs1 & Hup & Hv1 & Hout1 & Hin1 & Hsum1).
  replace (Q2Qc 0 + t)%Qc with t in Hup by qc_lra.
  exists (if (index =? length_ this - 1)%Z then vs1
          else match resize_down down sizes vs1 (Fin t) with
               | Some vs2 => vs2
               | None => vs1
               end), t, S.
  split; [exact Et|].
  unfold resize.
  destruct (Z.ltb_spec index 0); [lia|].
  destruct (Z.gtb_spec index (length_ this)); [lia|]. cbn [orb].
  fold vs sizes up down.
  unfold up, down, sizes, vs.
  rewrite (@resize_tentativeDelta_spec this index (Fin d)
             (sizes_of (views this)) low high Hi).
  fold vs sizes up down. rewrite Et.
  unfold resize_apply. change zero with (Fin (Q2Qc 0)). rewrite Hup.
  destruct (Z.eqb_spec index (length_ this - 1)) as [Elast|Elast].
  - (* no down side *)
    assert (Ed : down = []).
    { apply length_zero_iff_nil, Nat.eqb_eq. unfold down.
      rewrite (@downIndexes_empty this index low high Hi).
      apply Z.eqb_eq. exact Elast. }
    rewrite Ed. cbn [resize_down].
    split; [reflexivity|]. split; [exact Hv1|]. split; [|auto].
    apply forallb_of_at_index. intros i x Ex.
    pose proof (at_index_Some_in_range _ _ Ex) as Hr. unfold in_range in Hr.
    rewrite (same_views_length _ _ Hv1) in Hr.
    destruct (Hin1 i) as (it & Eit & Hb); [|congruence].
    apply (Permutation_in _ Pu), in_interval_iff.
    unfold length_ in *. subst vs. lia.
  - destruct (Td eq_refl) as (Td1 & Td2).
    assert (Rd1 : ready down sizes vs1).
    { intros j Hj. rewrite (Hout1 j (Hdisj j Hj)). exact (Rd j Hj). }
    destruct (@resize_down_pass down sizes vs1 t (S + t)%Qc Nd Rd1 Hsum1)
      as (vs2 & Hdn & Hv2 & Hout2 & Hin2 & Hsum2).
    { rewrite (@sum_over_ext down _
                 (item_term (fun v s => s - maximumSize v) vs sizes));
        [exact Td1 | intros; now apply item_term_views]. }
    { rewrite (@sum_over_ext down _
                 (item_term (fun v s => s - effectiveMinimum v) vs sizes));
        [exact Td2 | intros; now apply item_term_views]. }
    rewrite Hdn. split; [reflexivity|].
    split; [now rewrite Hv2|]. split; [|split; [exact HS|]].
    + apply forallb_of_at_index. intros i x Ex.
      pose proof (at_index_Some_in_range _ _ Ex) as Hr. unfold in_range in Hr.
      rewrite (same_views_length _ _ Hv2), (same_views_length _ _ Hv1) in Hr.
      assert (Hr' : (0 <= i < length_ this)%Z) by exact Hr. clear Hr.
      destruct (Z_le_gt_dec i index) as [Hle|Hgt].
      * assert (Hu : In i up)
          by (apply (Permutation_in _ Pu), in_interval_iff; lia).
        destruct (Hin1 i Hu) as (it & Eit & Hb).
        rewrite (Hout2 i) in Ex by (intros Hd; exact (Hdisj i Hd Hu)).
        congruence.
      * destruct (Hin2 i) as (it & Eit & Hb); [|congruence].
        apply (Permutation_in _ Pd), in_interval_iff. lia.
    + rewrite Hsum2. f_equal. qc_lra.
Qed.

Lemma interval_seq (n : nat) :
  interval 0 (Z.of_nat n - 1) = map Z.of_nat (seq 0 n).
Proof.
  unfold interval. replace (Z.to_nat (Z.of_nat n - 1 - 0 + 1)) with n by lia.
  apply map_ext. intros k. lia.
Qed.

Lemma sum_over_items (term : IView -> num -> num) (vs pre : list IViewItem) :
  sum_over (map Z.of_nat (seq (length pre) (length vs)))
    (item_term term (pre ++ vs) (sizes_of (pre ++ vs)))
  = sum_of (fun it => term (view it) (size it)) vs.
Proof.
  revert pre. induction vs as [|it rest IH]; intros pre; [reflexivity|].
  cbn [length seq map]. unfold sum_over, sum_of. cbn [fold_right].
  f_equal.
  - rewrite (@item_term_current term (pre ++ it :: rest) _ it); auto.
    rewrite at_index_nat, nth_error_app2, Nat.sub_diag; auto.
  - specialize (IH (pre ++ [it])). rewrite <- app_assoc in IH.
    rewrite length_app, Nat.add_1_r in IH. exact IH.
Qed.

Lemma sum_of_ext (f g : IViewItem -> num) (vs : list IViewItem) :
  (forall it, In it vs -> f it = g it) -> sum_of f vs = sum_of g vs.
Proof.
  unfold sum_of. induction vs as [|it rest IH]; intros H; cbn [fold_right];
    [reflexivity|].
  rewrite (H it (or_introl eq_refl)), IH; auto. intros; apply H; now right.
Qed.

(** At the last position the bounds of the delta are the slack sums of
    all the items. *)
Lemma spec_up_sums (vs : list IViewItem) :
  forallb plain_in_bounds vs = true ->
  spec_minDeltaUp vs (sizes_of vs) (Z.of_nat (length vs) - 1)
  = sum_of slack_below vs
  /\ spec_maxDeltaUp vs (sizes_of vs) (Z.of_nat (length vs) - 1)
     = sum_of slack_above vs.
Proof.
  intros Hall. unfold spec_minDeltaUp, spec_maxDeltaUp.
  rewrite interval_seq.
  pose proof (@sum_over_items (fun v s => effectiveMinimum v - s) vs []) as H1.
  pose proof (@sum_over_items (fun v s => maximumSize v - s) vs []) as H2.
  cbn [length app] in H1, H2. rewrite H1, H2. split; [|reflexivity].
  apply sum_of_ext. intros it Hit. rewrite forallb_forall in Hall.
  destruct (plain_in_bounds_inv it (Hall it Hit)) as (s & m & Esn & _).
  unfold slack_below, effectiveMinimum. now rewrite Esn.
Qed.

(** X12. Dragging an interior sash conserves the total. On safe
    integers: for items without snap size at integer sizes within their
    integer bounds, [resize] at a position that has items on both sides,
    by any integer delta and with any priorities, returns, keeps the
    contracts and every item within its bounds, and leaves the sum of the
    sizes as it was. *)
Theorem resize_conserves_total (this : SplitView) (index : Z) (delta : num)
    (low high : option (list Z)) :
  safe_items (views this) = true ->
  safe_integer delta = true ->
  (0 <= index < length_ this - 1)%Z ->
  exists vs',
    resize index delta None low high this = Returns tt (set_views vs' this)
    /\ map view vs' = map view (views this)
    /\ forallb plain_in_bounds vs' = true
    /\ sum_sizes vs' = sum_sizes (views this).
Proof.
  intros Hitems Hsafe.
  pose proof (safe_items_plain _ Hitems) as Hall.
  destruct (safe_integer_fin delta Hsafe) as [d ->].
  intros Hi.
  destruct (@resize_plain this index d low high Hall)
    as (vs' & t & S & _ & Hr & Hv & Hb & HS & HS'); [lia|].
  exists vs'. repeat split; auto.
  destruct (Z.eqb_spec index (length_ this - 1)) as [E|_]; [lia|].
  now rewrite HS, HS'.
Qed.

Lemma resize_conserves_total_witness :
  let this :=
    engine [item (numZ 50) PInf None (numZ 100);
            item (numZ 50) (numZ 150) None (numZ 100);
            item (numZ 20) (numZ 90) None (numZ 80)] (numZ 280) in
  exists vs',
    resize 0 (numZ 70) None None None this = Returns tt (set_views vs' this)
    /\ forallb plain_in_bounds vs' = true
    /\ sum_sizes vs' = sum_sizes (views this).
Proof.
  intros this.
  destruct (@resize_conserves_total this 0 (numZ 70) None None)
    as (vs' & E & _ & Hb & HS).
  - reflexivity.
  - reflexivity.
  - vm_compute. split; [discriminate | reflexivity].
  - exists vs'. auto.
Defined.

(** At the last position, with the container size between the sum of the
    minimums and the sum of the maximums, [resize] by the difference to
    the content size makes the sizes sum to the container size. *)
Lemma resize_last_settles (this : SplitView) (T : Qc)
    (low high : option (list Z)) :
  this_size this = Some (Fin T) ->
  forallb plain_in_bounds (views this) = true ->
  (sum_minimums (views this) <=? Fin T)%num = true ->
  (Fin T <=? sum_maximums (views this))%num = true ->
  views this <> [] ->
  exists vs,
    resize (length_ this - 1)
      (toNumber (this_size this) - sum_sizes (views this))%num
      None low high this = Returns tt (set_views vs this)
    /\ map view vs = map view (views this)
    /\ forallb plain_in_bounds vs = true
    /\ sum_sizes vs = Fin T.
Proof.
  intros HT Hall Hlo Hhi Hne.
  assert (Hi : (0 <= length_ this - 1 < length_ this)%Z)
    by (unfold length_; destruct (views this);
        [contradiction | cbn [length]; lia]).
  destruct (plain_sizes_finite _ Hall) as [S HS].
  rewrite HT, HS. cbn [toNumber].
  change (Fin T - Fin S)%num with (Fin (T - S)).
  destruct (@resize_plain this (length_ this - 1) (T - S)%Qc low high Hall Hi)
    as (vs & t & S' & Et & Hr & Hv & Hb & HS1 & HS').
  exists vs. split; [exact Hr|]. split; [exact Hv|]. split; [exact Hb|].
  rewrite HS in HS1. apply Fin_inj in HS1. subst S'.
  rewrite Z.eqb_refl in HS'. rewrite HS'. f_equal.
  rewrite sum_sizes_sum_of in HS.
  destruct (@slack_sums_bounds (views this) T S Hall HS Hlo Hhi) as [Hl Hh].
  destruct (spec_up_sums _ Hall) as [E1 E2].
  unfold spec_clamped_delta, spec_minDeltaDown, spec_maxDeltaDown in Et.
  fold (length_ this) in E1, E2, Et.
  rewrite Z.eqb_refl, E1, E2 in Et.
  rewrite clamp_within in Et.
  - apply Fin_inj in Et. subst t. qc_lra.
  - apply num_max_le; [exact Hl | reflexivity].
  - apply num_min_ge; [reflexivity | exact Hh].
Qed.

Lemma relayout_result (this : SplitView) (T : Qc)
    (low high : option (list Z)) :
  this_size this = Some (Fin T) ->
  forallb plain_in_bounds (views this) = true ->
  (sum_minimums (views this) <=? Fin T)%num = true ->
  (Fin T <=? sum_maximums (views this))%num = true ->
  (length (views this) - 1 <= length (sashes this))%nat ->
  exists vs,
    relayout low high this
    = saveProportions (set_contentSize (Fin T) (set_views vs this))
    /\ map view vs = map view (views this)
    /\ forallb plain_in_bounds vs = true
    /\ sum_sizes vs = Fin T.
Proof.
  intros HT Hall Hlo Hhi Hs.
  destruct (@relayout_unfold this low high Hs) as (vs & Hr & Hv & E).
  exists vs. rewrite E.
  assert (Hvs : forallb plain_in_bounds vs = true /\ sum_sizes vs = Fin T).
  { destruct (views this) as [|it0 rest] eqn:Evs.
    - destruct vs; [|discriminate]. split; [reflexivity|].
      symmetry. apply num_between_zero; assumption.
    - rewrite <- Evs in *.
      destruct (@resize_last_settles this T low high HT Hall Hlo Hhi)
        as (vs' & Hr' & _ & Hb & HS); [rewrite Evs; discriminate|].
      rewrite Hr' in Hr. apply (f_equal (@state_of unit)) in Hr.
      apply (f_equal views) in Hr. cbn in Hr. subst vs'. auto. }
  destruct Hvs as [Hb HS]. rewrite HS. auto.
Qed.

(** X13. [relayout] settles the engine. On safe integers: for items
    without snap size at integer sizes within their integer bounds,
    enough sashes, and an integer container size between the sum of the
    minimums and the sum of the maximums, [relayout] leaves sizes that
    sum to the container size exactly, every item within its bounds, the
    contracts as they were, and the content size equal to the container
    size. *)
Theorem relayout_settles (this : SplitView) (total : num)
    (low high : option (list Z)) :
  this_size this = Some total ->
  safe_integer total = true ->
  safe_items (views this) = true ->
  (sum_minimums (views this) <=? total)%num = true ->
  (total <=? sum_maximums (views this))%num = true ->
  (length (views this) - 1 <= length (sashes this))%nat ->
  exists this',
    relayout low high this = Returns tt this'
    /\ sum_sizes (views this') = total
    /\ forallb plain_in_bounds (views this') = true
    /\ map view (views this') = map view (views this)
    /\ contentSize this' = Some total.
Proof.
  intros HT Hsafe Hitems.
  destruct (safe_integer_fin total Hsafe) as [T ->].
  pose proof (safe_items_plain _ Hitems) as Hall.
  clear Hsafe Hitems. revert HT Hall.
  intros HT Hall Hlo Hhi Hs.
  destruct (@relayout_result this T low high HT Hall Hlo Hhi Hs)
    as (vs & E & Hv & Hb & HS).
  rewrite E. unfold saveProportions.
  cbn [contentSize set_contentSize toNumber views set_views].
  destruct (Fin T >? zero)%num; eexists; (split; [reflexivity|]);
    cbn [views contentSize set_proportions set_contentSize set_views];
    auto.
Qed.

Lemma relayout_settles_witness :
  let this :=
    engine [item (numZ 50) PInf None (numZ 100);
            item (numZ 50) (numZ 150) None (numZ 60)] (numZ 200) in
  exists this',
    relayout None None this = Returns tt this'
    /\ sum_sizes (views this') = numZ 200
    /\ forallb plain_in_bounds (views this') = true.
Proof.
  intros this.
  destruct (@relayout_settles this (numZ 200) None None)
    as (this' & E & HS & Hb & _);
    [reflexivity | reflexivity | reflexivity | reflexivity | reflexivity
    | cbn; lia |].
  exists this'. auto.
Defined.

Lemma set_size_plain_in_bounds (vs : list IViewItem) (i : Z)
    (it : IViewItem) (n : Qc) :
  forallb plain_in_bounds vs = true -> at_index vs i = Some it ->
  plain_in_bounds (Build_IViewItem (view it) (Fin n)) = true ->
  forallb plain_in_bounds (set_size i (Fin n) vs) = true.
Proof.
  intros Hall E Hb. apply forallb_of_at_index. intros j x Ex.
  rewrite at_index_set_size in Ex. destruct (Z.eqb_spec i j) as [<-|_].
  - rewrite E in Ex. cbn in Ex. congruence.
  - exact (forallb_at_index _ _ _ Hall Ex).
Qed.

Lemma num_add_le_split (a b : num) (T : Qc) :
  (zero <=? a) = true -> (zero <=? b) = true -> (a + b <=? Fin T) = true ->
  (a <=? Fin T) = true /\ (b <=? Fin T) = true.
Proof.
  intros Ha Hb.
  destruct (@ge0_cases a Ha) as [->|(x & -> & Hx)];
    destruct (@ge0_cases b Hb) as [->|(y & -> & Hy)]; clear Ha Hb;
    intros H; try discriminate H; num_prop; split; qc_lra.
Qed.

Lemma sum_of_member_le (f : IViewItem -> num) (vs : list IViewItem)
    (it : IViewItem) (T : Qc) :
  (forall x, In x vs -> (zero <=? f x) = true) -> In it vs ->
  (sum_of f vs <=? Fin T) = true -> (f it <=? Fin T) = true.
Proof.
  unfold sum_of. induction vs as [|x rest IH]; intros H0 Hin Hle;
    [destruct Hin|]. cbn [fold_right] in Hle.
  apply num_add_le_split in Hle.
  2: apply H0; now left.
  2: apply (@sum_of_ge0 f rest); intros; apply H0; now right.
  destruct Hle as [H1 H2].
    destruct Hin as [<-|Hin]; [exact H1|].
    apply IH; auto. intros; apply H0; now right.
Qed.

Lemma clamp_to_container (x m T : Qc) (mx : num) :
  (Fin m <=? mx) = true -> (m <= T)%Qc ->
  exists n,
    clamp (Fin x) (Fin m) (num_min mx (Fin T)) = Fin n
    /\ (m <= n)%Qc /\ (Fin n <=? mx) = true.
Proof.
  intros Hm HT.
  destruct (@max_cases m mx Hm) as [->|(M & -> & HM)]; clear Hm.
  - change (num_min PInf (Fin T)) with (Fin T).
    destruct (@clamp_cases x m (Fin T))
      as [(E & H1 & H2)|[(E & H1)|(M & EM & E & H1 & H2)]];
      [now apply num_leb_fin| | |]; rewrite E; eexists;
      (split; [reflexivity|]); split; try reflexivity; auto; qc_lra.
  - destruct (Qclt_le_dec M T) as [Hlt|Hge].
    + replace (num_min (Fin M) (Fin T)) with (Fin M) by num_finish.
      destruct (@clamp_cases x m (Fin M))
        as [(E & H1 & H2)|[(E & H1)|(M' & EM & E & H1 & H2)]];
        [now apply num_leb_fin| | |]; rewrite E; eexists;
        (split; [reflexivity|]); split; auto; try qc_lra.
      * now apply num_leb_fin.
      * apply Fin_inj in EM. subst M'. apply num_leb_refl_fin.
    + replace (num_min (Fin M) (Fin T)) with (Fin T) by num_finish.
      destruct (@clamp_cases x m (Fin T))
        as [(E & H1 & H2)|[(E & H1)|(M' & EM & E & H1 & H2)]];
        [now apply num_leb_fin| | |]; rewrite E; eexists;
        (split; [reflexivity|]); split; auto; try qc_lra.
      * num_prop. qc_lra.
      * now apply num_leb_fin.
      * apply Fin_inj in EM. subst M'. now apply num_leb_fin.
Qed.

Lemma clamp_in_bounds (x m : Qc) (mx : num) :
  (Fin m <=? mx) = true ->
  exists n,
    clamp (Fin x) (Fin m) mx = Fin n /\ (m <= n)%Qc /\ (Fin n <=? mx) = true.
Proof.
  intros Hm.
  destruct (@clamp_cases x m mx Hm)
    as [(E & H1 & H2)|[(E & H1)|(M & EM & E & H1 & H2)]];
    rewrite E; eexists; (split; [reflexivity|]); split; auto; try qc_lra.
  rewrite EM. apply num_leb_refl_fin.
Qed.

Lemma at_index_In {A : Type} (l : list A) (i : Z) (x : A) :
  at_index l i = Some x -> In x l.
Proof.
  unfold at_index. destruct (i <? 0)%Z; [discriminate|]. apply nth_error_In.
Qed.

Lemma sum_bounds_set_size (vs : list IViewItem) (i : Z) (sz : num) :
  sum_minimums (set_size i sz vs) = sum_minimums vs
  /\ sum_maximums (set_size i sz vs) = sum_maximums vs.
Proof.
  unfold sum_minimums, sum_maximums.
  split; apply (@sum_of_views _ vs), set_size_views.
Qed.

(** X14. [resizeView(index, size)] for a position that holds an item and
    a finite requested size, integer or not, on an engine as in X13 whose
    minimums are not negative: whatever size is asked for, the call
    returns with the sizes summing to the container size, every item
    within its bounds and the contracts unchanged. *)
Theorem resizeView_settles (this : SplitView) (total : num) (q : Qc)
    (index : Z) :
  this_size this = Some total ->
  safe_integer total = true ->
  safe_items (views this) = true ->
  forallb minimum_not_negative (views this) = true ->
  (sum_minimums (views this) <=? total)%num = true ->
  (total <=? sum_maximums (views this))%num = true ->
  (length (views this) - 1 <= length (sashes this))%nat ->
  (0 <= index < length_ this)%Z ->
  exists this',
    resizeView index (Fin q) this = Returns tt this'
    /\ sum_sizes (views this') = total
    /\ forallb plain_in_bounds (views this') = true
    /\ map view (views this') = map view (views this)
    /\ contentSize this' = Some total.
Proof.
  intros HT Hsafe Hitems.
  destruct (safe_integer_fin total Hsafe) as [T ->].
  pose proof (safe_items_plain _ Hitems) as Hall.
  clear Hsafe Hitems. revert HT Hall.
  intros HT Hall Hnn Hlo Hhi Hs Hi.
  unfold resizeView, bind, get, modify.
  destruct (Z.ltb_spec index 0); [lia|].
  destruct (Z.geb_spec index (length_ this)); [lia|]. cbn [orb].
  destruct (@at_index_in_range _ (views this) index) as [it E]; [exact Hi|].
  rewrite E.
  destruct (plain_in_bounds_inv it (forallb_at_index _ _ _ Hall E))
    as (s & m & Esn & Es & Em & Hms & Hmx).
  assert (Hm : (Fin m <=? maximumSize (view it)) = true).
  { destruct (@max_cases s _ Hmx) as [->|(M & -> & HM)]; [reflexivity|].
    apply num_leb_fin. qc_lra. }
  assert (HmT : (m <= T)%Qc).
  { apply num_leb_fin. rewrite <- Em.
    apply (@sum_of_member_le (fun x => minimumSize (view x)) (views this) it);
      [|exact (@at_index_In _ _ _ _ E) | exact Hlo].
    intros x Hx. rewrite forallb_forall in Hnn. exact (Hnn x Hx). }
  rewrite HT, Em. cbn [toNumber num_round]. unfold numZ.
  destruct (@clamp_to_container (Q2Qc (inject_Z (Qfloor (q + half)%Qc))) m T
              _ Hm HmT) as (n & -> & Hmn & Hnx).
  set (this1 := set_views (set_size index (Fin n) (views this)) this).
  destruct (sum_bounds_set_size (views this) index (Fin n)) as [B1 B2].
  destruct (@relayout_result this1 T None None) as (vs & Er & Hv & Hb & HS).
  - exact HT.
  - apply (@set_size_plain_in_bounds (views this) index it n Hall E).
    now apply (@plain_in_bounds_intro (view it) n m).
  - cbn [this1 views set_views]. now rewrite B1.
  - cbn [this1 views set_views]. now rewrite B2.
  - cbn [this1 views set_views sashes]. now rewrite set_size_length.
  - rewrite Er. unfold saveProportions.
    cbn [contentSize set_contentSize toNumber views set_views].
    cbn [this1 views set_views] in Hv. rewrite set_size_views in Hv.
    destruct (Fin T >? zero)%num; eexists; (split; [reflexivity|]);
      cbn [views contentSize set_proportions set_contentSize set_views];
      auto.
Qed.

Lemma resizeView_settles_witness :
  let this :=
    engine [item (numZ 50) PInf None (numZ 100);
            item (numZ 50) (numZ 150) None (numZ 100)] (numZ 200) in
  exists this',
    resizeView 0 (numZ 130) this = Returns tt this'
    /\ sum_sizes (views this') = numZ 200
    /\ forallb plain_in_bounds (views this') = true.
Proof.
  intros this.
  destruct (@resizeView_settles this (numZ 200) (Q2Qc (inject_Z 130)) 0)
    as (this' & E & HS & Hb & _);
    [reflexivity | reflexivity | reflexivity | reflexivity | reflexivity
    | reflexivity | cbn; lia
    | vm_compute; split; [discriminate | reflexivity] |].
  exists this'. auto.
Defined.

(** X15. [onDidChange] for an item of the engine, with an integer size
    or none, on an engine as in X13: the call returns with the sizes
    summing to the container size, every item within its bounds, the
    contracts unchanged and the content size equal to the container
    size. *)
Theorem onDidChange_settles (this : SplitView) (total : num) (index : Z)
    (size_arg : option num) :
  this_size this = Some total ->
  safe_integer total = true ->
  safe_items (views this) = true ->
  (sum_minimums (views this) <=? total)%num = true ->
  (total <=? sum_maximums (views this))%num = true ->
  (length (views this) - 1 <= length (sashes this))%nat ->
  (0 <= index < length_ this)%Z ->
  match size_arg with
  | Some n => safe_integer n = true
  | None => True
  end ->
  exists this',
    onDidChange index size_arg this = Returns tt this'
    /\ sum_sizes (views this') = total
    /\ forallb plain_in_bounds (views this') = true
    /\ map view (views this') = map view (views this)
    /\ contentSize this' = Some total.
Proof.
  intros HT Hsafe Hitems.
  destruct (safe_integer_fin total Hsafe) as [T ->].
  pose proof (safe_items_plain _ Hitems) as Hall.
  clear Hsafe Hitems. revert HT Hall.
  intros HT Hall Hlo Hhi Hs Hi Hint.
  assert (Hfin : match size_arg with
                 | Some n => is_finite n = true
                 | None => True
                 end)
    by (destruct size_arg; [apply safe_integer_finite, Hint | exact I]).
  clear Hint.
  unfold onDidChange, bind, get, modify.
  destruct (Z.ltb_spec index 0); [lia|].
  destruct (Z.geb_spec index (length_ this)); [lia|]. cbn [orb].
  destruct (@at_index_in_range _ (views this) index) as [it E]; [exact Hi|].
  rewrite E.
  destruct (plain_in_bounds_inv it (forallb_at_index _ _ _ Hall E))
    as (s & m & Esn & Es & Em & Hms & Hmx).
  assert (Hm : (Fin m <=? maximumSize (view it)) = true).
  { destruct (@max_cases s _ Hmx) as [->|(M & -> & HM)]; [reflexivity|].
    apply num_leb_fin. qc_lra. }
  assert (Ex : exists x, match size_arg with
                         | Some n => n
                         | None => size it
                         end = Fin x).
  { destruct size_arg as [[x| | |]|]; try discriminate Hfin; eauto. }
  destruct Ex as [x ->]. rewrite Em.
  destruct (@clamp_in_bounds x m _ Hm) as (n & -> & Hmn & Hnx).
  set (this1 := set_views (set_size index (Fin n) (views this)) this).
  destruct (sum_bounds_set_size (views this) index (Fin n)) as [B1 B2].
  destruct (@resize_last_settles this1 T (Some [index]) None)
    as (vs & Er & Hv & Hb & HS).
  - exact HT.
  - apply (@set_size_plain_in_bounds (views this) index it n Hall E).
    now apply (@plain_in_bounds_intro (view it) n m).
  - cbn [this1 views set_views]. now rewrite B1.
  - cbn [this1 views set_views]. now rewrite B2.
  - cbn [this1 views set_views]. intros Hnil.
    apply (f_equal (@length _)) in Hnil. rewrite set_size_length in Hnil.
    unfold length_ in Hi. cbn [length] in Hnil. lia.
  - rewrite Er. unfold distributeEmptySpace.
    cbn [views set_views this_size this1]. rewrite HT, HS. cbn [toNumber].
    rewrite num_sub_diag_fin, distributeEmptySpace_loop_zero.
    cbn [this1 views set_views] in Hv. rewrite set_size_views in Hv.
    rewrite layoutViews_returns
      by (cbn [views set_views sashes]; rewrite (same_views_length _ _ Hv);
          exact Hs).
    cbn [views set_views]. rewrite HS. unfold saveProportions.
    cbn [contentSize set_contentSize toNumber views set_views].
    destruct (Fin T >? zero)%num; eexists; (split; [reflexivity|]);
      cbn [views contentSize set_proportions set_contentSize set_views];
      auto.
Qed.

Lemma onDidChange_settles_witness :
  let this :=
    engine [item (numZ 50) PInf None (numZ 100);
            item (numZ 50) (numZ 150) None (numZ 100)] (numZ 200) in
  exists this',
    onDidChange 1 (Some (numZ 130)) this = Returns tt this'
    /\ sum_sizes (views this') = numZ 200
    /\ forallb plain_in_bounds (views this') = true.
Proof.
  intros this.
  destruct (@onDidChange_settles this (numZ 200) 1 (Some (numZ 130)))
    as (this' & E & HS & Hb & _);
    [reflexivity | reflexivity | reflexivity | reflexivity | reflexivity
    | cbn; lia | vm_compute; split; [discriminate | reflexivity]
    | reflexivity |].
  exists this'. auto.
Defined.

(** ** [distributeViewSizes], [removeView] and [addView] settle *)

Lemma flexibleViewItems_finite (vs : list IViewItem) :
  forall (i : nat) (F : Qc),
  (forall it, In it vs -> is_finite (size it) = true) ->
  exists items F', flexibleViewItems i vs (Fin F) = (items, Fin F').
Proof.
  induction vs as [|it rest IH]; intros i F H; cbn [flexibleViewItems].
  - eauto.
  - assert (Hrest : forall x, In x rest -> is_finite (size x) = true)
      by (intros; apply H; now right).
    destruct (maximumSize (view it) - minimumSize (view it) >? zero).
    + pose proof (H it (or_introl eq_refl)) as Hf.
      destruct (size it) as [s| | |]; try discriminate.
      destruct (IH (S i) (F + s)%Qc Hrest) as (items & F' & E).
      change (Fin F + Fin s) with (Fin (F + s)). rewrite E. eauto.
    + apply IH, Hrest.
Qed.

Lemma set_size_of_nat (i : nat) (sz : num) (vs : list IViewItem) :
  set_size (Z.of_nat i) sz vs = set_size_nat i sz vs.
Proof.
  unfold set_size. destruct (Z.ltb_spec (Z.of_nat i) 0); [lia|].
  now rewrite Nat2Z.id.
Qed.

Lemma distribute_loop_in_bounds (items : list nat) (sh : Qc) :
  forall vs : list IViewItem,
  forallb plain_in_bounds vs = true ->
  forallb plain_in_bounds (distribute_loop items (Fin sh) vs) = true.
Proof.
  induction items as [|i rest IH]; intros vs Hall; cbn [distribute_loop];
    [exact Hall|].
  destruct (nth_error vs i) as [it|] eqn:E; [|exact Hall].
  rewrite <- at_index_nat in E.
  destruct (plain_in_bounds_inv it (forallb_at_index _ _ _ Hall E))
    as (s & m & Esn & Es & Em & Hms & Hmx).
  assert (Hm : (Fin m <=? maximumSize (view it)) = true).
  { destruct (@max_cases s _ Hmx) as [->|(M & -> & HM)]; [reflexivity|].
    apply num_leb_fin. qc_lra. }
  rewrite Em. destruct (@clamp_in_bounds sh m _ Hm) as (n & -> & Hmn & Hnx).
  apply IH. rewrite <- set_size_of_nat.
  apply (@set_size_plain_in_bounds vs (Z.of_nat i) it n Hall E).
  now apply (@plain_in_bounds_intro (view it) n m).
Qed.

(** What [distributeViewSizes] hands to [relayout]: items that are still
    within their bounds. *)
Lemma distributeViewSizes_unfold (this : SplitView) :
  forallb plain_in_bounds (views this) = true ->
  exists vs,
    distributeViewSizes this = relayout None None (set_views vs this)
    /\ map view vs = map view (views this)
    /\ forallb plain_in_bounds vs = true.
Proof.
  intros Hall. unfold distributeViewSizes, bind, get, modify.
  destruct (@flexibleViewItems_finite (views this) 0 (Q2Qc 0))
    as (items & F & E).
  { intros it Hit. rewrite forallb_forall in Hall.
    apply plain_in_bounds_finite, Hall, Hit. }
  change zero with (Fin (Q2Qc 0)). rewrite E.
  eexists. split; [reflexivity|]. split; [apply distribute_loop_views|].
  destruct items as [|i rest]; [exact Hall|].
  assert (Hn : Q2Qc (inject_Z (Z.of_nat (length (i :: rest)))) <> Q2Qc 0).
  { intros H. apply (f_equal Qcanon.this) in H. cbn [Qcanon.this Q2Qc] in H.
    apply Qred_eq_iff in H. unfold Qeq, inject_Z in H.
    cbn [Qnum Qden length] in H. lia. }
  unfold numZ. rewrite (num_div_fin F Hn). cbn [num_floor]. unfold numZ.
  apply distribute_loop_in_bounds, Hall.
Qed.

(** X16. [distributeViewSizes] settles the engine. On safe integers:
    for items without snap size at integer sizes within their integer
    bounds, enough sashes, and an integer container size between the sum
    of the minimums and the sum of the maximums, the call returns with
    the sizes summing to the container size, every item within its
    bounds, the contracts unchanged and the content size equal to the
    container size. *)
Theorem distributeViewSizes_settles (this : SplitView) (total : num) :
  this_size this = Some total ->
  safe_integer total = true ->
  safe_items (views this) = true ->
  (sum_minimums (views this) <=? total)%num = true ->
  (total <=? sum_maximums (views this))%num = true ->
  (length (views this) - 1 <= length (sashes this))%nat ->
  exists this',
    distributeViewSizes this = Returns tt this'
    /\ sum_sizes (views this') = total
    /\ forallb plain_in_bounds (views this') = true
    /\ map view (views this') = map view (views this)
    /\ contentSize this' = Some total.
Proof.
  intros HT Hsafe Hitems.
  destruct (safe_integer_fin total Hsafe) as [T ->].
  pose proof (safe_items_plain _ Hitems) as Hall.
  clear Hsafe Hitems. revert HT Hall.
  intros HT Hall Hlo Hhi Hs.
  destruct (@distributeViewSizes_unfold this Hall) as (vs1 & E1 & Hv1 & Hb1).
  rewrite E1.
  destruct (@relayout_result (set_views vs1 this) T None None)
    as (vs & E & Hv & Hb & HS).
  - exact HT.
  - exact Hb1.
  - cbn [views set_views]. unfold sum_minimums in *.
    now rewrite (@sum_of_views _ (views this) vs1 Hv1).
  - cbn [views set_views]. unfold sum_maximums in *.
    now rewrite (@sum_of_views _ (views this) vs1 Hv1).
  - cbn [views set_views sashes]. now rewrite (same_views_length _ _ Hv1).
  - rewrite E. unfold saveProportions.
    cbn [contentSize set_contentSize toNumber views set_views] in *.
    destruct (Fin T >? zero)%num; eexists; (split; [reflexivity|]);
      cbn [views contentSize set_proportions set_contentSize set_views];
      repeat split; auto; congruence.
Qed.

Lemma distributeViewSizes_settles_witness :
  let this :=
    engine [item (numZ 50) PInf None (numZ 130);
            item (numZ 50) (numZ 150) None (numZ 70);
            item (numZ 40) (numZ 40) None (numZ 40)] (numZ 240) in
  exists this',
    distributeViewSizes this = Returns tt this'
    /\ sum_sizes (views this') = numZ 240
    /\ forallb plain_in_bounds (views this') = true.
Proof.
  intros this.
  destruct (@distributeViewSizes_settles this (numZ 240))
    as (this' & E & HS & Hb & _);
    [reflexivity | reflexivity | reflexivity | reflexivity | reflexivity
    | cbn; lia |].
  exists this'. auto.
Defined.

(** ** The settled state through the composite operations *)

Lemma relayout_state (this : SplitView) (T : Qc)
    (low high : option (list Z)) :
  this_size this = Some (Fin T) ->
  forallb plain_in_bounds (views this) = true ->
  (sum_minimums (views this) <=? Fin T)%num = true ->
  (Fin T <=? sum_maximums (views this))%num = true ->
  (length (views this) - 1 <= length (sashes this))%nat ->
  exists this',
    relayout low high this = Returns tt this'
    /\ same_frame this this'
    /\ forallb plain_in_bounds (views this') = true
    /\ sum_sizes (views this') = Fin T.
Proof.
  intros HT Hall Hlo Hhi Hs.
  destruct (@relayout_result this T low high HT Hall Hlo Hhi Hs)
    as (vs & E & Hv & Hb & HS).
  rewrite E. unfold saveProportions, same_frame.
  cbn [contentSize set_contentSize toNumber views set_views].
  destruct (Fin T >? zero)%num; eexists; (split; [reflexivity|]);
    cbn [views sashes this_size orthogonalSize orientation elements
         set_proportions set_contentSize set_views];
    repeat split; auto.
Qed.

Lemma same_frame_bounds (this this' : SplitView) :
  same_frame this this' ->
  sum_minimums (views this') = sum_minimums (views this)
  /\ sum_maximums (views this') = sum_maximums (views this)
  /\ length (views this') = length (views this).
Proof.
  intros (F1 & _). unfold sum_minimums, sum_maximums.
  split; [|split]; [apply (@sum_of_views _ (views this)), F1
                   |apply (@sum_of_views _ (views this)), F1
                   |apply same_views_length, F1].
Qed.

Lemma distributeViewSizes_state (this : SplitView) (T : Qc) :
  this_size this = Some (Fin T) ->
  forallb plain_in_bounds (views this) = true ->
  (sum_minimums (views this) <=? Fin T)%num = true ->
  (Fin T <=? sum_maximums (views this))%num = true ->
  (length (views this) - 1 <= length (sashes this))%nat ->
  exists this',
    distributeViewSizes this = Returns tt this'
    /\ same_frame this this'
    /\ forallb plain_in_bounds (views this') = true
    /\ sum_sizes (views this') = Fin T.
Proof.
  intros HT Hall Hlo Hhi Hs.
  destruct (@distributeViewSizes_unfold this Hall) as (vs1 & E1 & Hv1 & Hb1).
  rewrite E1.
  pose proof (@same_frame_set_views this vs1 Hv1) as F1.
  destruct (same_frame_bounds F1) as (B1 & B2 & B3).
  destruct (@relayout_state (set_views vs1 this) T None None)
    as (this' & E & F & Hb & HS); auto.
  - now rewrite B1.
  - now rewrite B2.
  - rewrite B3. exact Hs.
  - exists this'. split; [exact E|]. split; [|auto].
    exact (same_frame_trans F1 F).
Qed.

Lemma distributeEmptySpace_settled (this : SplitView) (T : Qc) :
  this_size this = Some (Fin T) -> sum_sizes (views this) = Fin T ->
  distributeEmptySpace this = Returns tt this.
Proof.
  intros HT HS. unfold distributeEmptySpace. rewrite HT, HS.
  cbn [toNumber]. rewrite num_sub_diag_fin, distributeEmptySpace_loop_zero.
  now rewrite set_views_same.
Qed.

Lemma removeView_settle_state (this : SplitView) (T : Qc)
    (sizing : option Sizing) (v : IView) :
  this_size this = Some (Fin T) ->
  forallb plain_in_bounds (views this) = true ->
  (sum_minimums (views this) <=? Fin T)%num = true ->
  (Fin T <=? sum_maximums (views this))%num = true ->
  (length (views this) - 1 <= length (sashes this))%nat ->
  exists this',
    removeView_settle sizing v this = Returns v this'
    /\ same_frame this this'
    /\ forallb plain_in_bounds (views this') = true
    /\ sum_sizes (views this') = Fin T.
Proof.
  intros HT Hall Hlo Hhi Hs. unfold removeView_settle, bind, ret.
  destruct (@relayout_state this T None None HT Hall Hlo Hhi Hs)
    as (this1 & -> & F1 & Hb1 & HS1).
  destruct (same_frame_bounds F1) as (B1 & B2 & B3).
  assert (HT1 : this_size this1 = Some (Fin T))
    by (destruct F1 as (_ & _ & -> & _); exact HT).
  rewrite (@distributeEmptySpace_settled this1 T HT1 HS1).
  destruct sizing as [[|]|].
  - destruct (@distributeViewSizes_state this1 T HT1 Hb1)
      as (this2 & -> & F2 & Hb2 & HS2).
    + now rewrite B1.
    + now rewrite B2.
    + exact (same_frame_sashes F1 Hs).
    + exists this2. split; [reflexivity|].
      split; [exact (same_frame_trans F1 F2) | auto].
  - exists this1. auto.
  - exists this1. auto.
Qed.

(** [removeView] up to its settling: the item and, when items remain, a
    sash are gone. *)
Lemma removeView_spliced (this : SplitView) (index : Z)
    (sizing : option Sizing) :
  sash_invariant this -> (index < length_ this)%Z -> views this <> [] ->
  exists it this1,
    nth_error (views this) (splice_start (length (views this)) index)
    = Some it
    /\ removeView index sizing this = removeView_settle sizing (view it) this1
    /\ views this1
       = remove_at (splice_start (length (views this)) index) (views this)
    /\ this_size this1 = this_size this
    /\ sash_invariant this1.
Proof.
  intros Hinv Hi Hne. unfold sash_invariant, length_ in Hinv, Hi.
  assert (Hlen : (0 < length (views this))%nat)
    by (destruct (views this); [congruence | cbn [length]; lia]).
  set (k := splice_start (length (views this)) index).
  assert (Hk : (k < length (views this))%nat).
  { unfold k, splice_start. destruct (Z.ltb_spec index 0); lia. }
  destruct (nth_error (views this) k) as [it|] eqn:Hit;
    [|apply nth_error_None in Hit; lia].
  exists it. rewrite (removeView_unfold this index sizing Hit). fold k.
  set (rest := remove_at k (views this)).
  assert (Hrl : S (length rest) = length (views this)).
  { unfold rest, remove_at. rewrite length_app, length_firstn, length_skipn.
    lia. }
  destruct (Nat.leb_spec 1 (length rest)) as [H1|H1].
  - assert (Hks : (splice_start (length (sashes this)) (Z.max (index - 1) 0)
                   < length (sashes this))%nat).
    { unfold splice_start.
      destruct (Z.ltb_spec (Z.max (index - 1) 0) 0); lia. }
    destruct (splice_remove_some (sashes this) _ Hks) as (s & _ & -> & Hsl).
    remember (snd (splice_remove (sashes this) (Z.max (index - 1) 0)))
      as restS eqn:ErestS.
    exists (set_sashes restS (set_views rest this)).
    split; [reflexivity|]. split; [reflexivity|]. split; [reflexivity|].
    split; [reflexivity|]. unfold sash_invariant, length_.
    cbn [views sashes set_sashes set_views]. lia.
  - exists (set_views rest this).
    split; [reflexivity|]. split; [reflexivity|]. split; [reflexivity|].
    split; [reflexivity|]. unfold sash_invariant, length_.
    cbn [views sashes set_views]. lia.
Qed.

Lemma sash_invariant_enough (this : SplitView) :
  sash_invariant this ->
  (length (views this) - 1 <= length (sashes this))%nat.
Proof. unfold sash_invariant, length_. lia. Qed.

Lemma In_remove_at {A : Type} (k : nat) (a : list A) (x : A) :
  In x (remove_at k a) -> In x a.
Proof.
  unfold remove_at. intros H. apply in_app_or in H.
  rewrite <- (firstn_skipn k a). apply in_or_app.
  destruct H as [H|H]; [now left|right].
  rewrite <- (firstn_skipn 1 (skipn k a)), skipn_skipn.
  apply in_or_app. right. exact H.
Qed.

(** X17. [removeView] from a settled engine. On safe integers: with the
    sash count invariant, a position before the item count, items
    without snap size at integer sizes within their integer bounds, and
    an integer container size between the sum of the minimums and the sum
    of the maximums of the items that remain, [removeView] returns, the
    remaining contracts keep their order, the sizes of the remaining
    items sum to the container size, each within its bounds, and the sash
    count invariant holds again. *)
Theorem removeView_settles (this : SplitView) (total : num) (index : Z)
    (sizing : option Sizing) :
  sash_invariant this -> (index < length_ this)%Z -> views this <> [] ->
  this_size this = Some total ->
  safe_integer total = true ->
  safe_items (views this) = true ->
  let rest :=
    remove_at (splice_start (length (views this)) index) (views this) in
  (sum_minimums rest <=? total)%num = true ->
  (total <=? sum_maximums rest)%num = true ->
  exists v this',
    removeView index sizing this = Returns v this'
    /\ map view (views this') = map view rest
    /\ sum_sizes (views this') = total
    /\ forallb plain_in_bounds (views this') = true
    /\ sash_invariant this'.
Proof.
  intros Hinv Hi Hne HT Hsafe Hitems.
  destruct (safe_integer_fin total Hsafe) as [T ->].
  pose proof (safe_items_plain _ Hitems) as Hall.
  clear Hsafe Hitems.
  intros rest Hlo Hhi.
  destruct (@removeView_spliced this index sizing Hinv Hi Hne)
    as (it & this1 & _ & -> & Hv1 & HT1 & Hinv1).
  fold rest in Hv1.
  destruct (@removeView_settle_state this1 T sizing (view it))
    as (this' & E & F & Hb & HS).
  - congruence.
  - rewrite Hv1. apply forallb_forall. intros x Hx.
    rewrite forallb_forall in Hall. apply Hall.
    exact (In_remove_at _ _ _ Hx).
  - now rewrite Hv1.
  - now rewrite Hv1.
  - exact (sash_invariant_enough Hinv1).
  - exists (view it), this'. split; [exact E|].
    destruct F as (F1 & F2 & _). split; [now rewrite F1, Hv1|].
    split; [exact HS|]. split; [exact Hb|].
    unfold sash_invariant, length_ in *.
    now rewrite (same_views_length _ _ F1), F2.
Qed.

Lemma removeView_settles_witness :
  let this :=
    engine [item (numZ 50) PInf None (numZ 100);
            item (numZ 50) (numZ 150) None (numZ 60);
            item (numZ 20) (numZ 90) None (numZ 40)] (numZ 200) in
  exists v this',
    removeView 1 None this = Returns v this'
    /\ sum_sizes (views this') = numZ 200
    /\ forallb plain_in_bounds (views this') = true.
Proof.
  intros this.
  destruct (@removeView_settles this (numZ 200) 1 None)
    as (v & this' & E & _ & HS & Hb & _);
    [reflexivity | reflexivity | discriminate | reflexivity | reflexivity
    | reflexivity | reflexivity | reflexivity |].
  exists v, this'. auto.
Defined.

Lemma sum_of_firstn_skipn (f : IViewItem -> num) (k : nat)
    (a : list IViewItem) :
  sum_of f a = (sum_of f (firstn k a) + sum_of f (skipn k a))%num.
Proof. now rewrite <- sum_of_app, firstn_skipn. Qed.

Lemma sum_of_splice_insert (f : IViewItem -> num) (a : list IViewItem)
    (start : Z) (x : IViewItem) :
  sum_of f (splice_insert a start x) = (sum_of f a + f x)%num.
Proof.
  unfold splice_insert. set (k := splice_start (length a) start).
  rewrite sum_of_app, (sum_of_firstn_skipn f k a).
  unfold sum_of at 2. cbn [fold_right]. fold (sum_of f (skipn k a)).
  rewrite (num_add_comm (f x)), num_add_assoc. reflexivity.
Qed.

Lemma forallb_splice_insert {A : Type} (p : A -> bool) (a : list A)
    (start : Z) (x : A) :
  forallb p a = true -> p x = true ->
  forallb p (splice_insert a start x) = true.
Proof.
  intros Ha Hx. unfold splice_insert. rewrite forallb_forall in Ha.
  apply forallb_forall. intros y Hy. apply in_app_or in Hy.
  destruct Hy as [Hy|[<-|Hy]]; auto; apply Ha;
    rewrite <- (firstn_skipn (splice_start (length a) start) a);
    apply in_or_app; auto.
Qed.

Lemma addView_settle_state (this : SplitView) (T : Qc) (sz : SizeArg)
    (index : Z) :
  this_size this = Some (Fin T) ->
  forallb plain_in_bounds (views this) = true ->
  (sum_minimums (views this) <=? Fin T)%num = true ->
  (Fin T <=? sum_maximums (views this))%num = true ->
  (length (views this) - 1 <= length (sashes this))%nat ->
  exists this',
    addView_settle sz index false this = Returns tt this'
    /\ same_frame this this'
    /\ forallb plain_in_bounds (views this') = true
    /\ sum_sizes (views this') = Fin T.
Proof.
  intros HT Hall Hlo Hhi Hs. unfold addView_settle, bind, ret. cbn [negb].
  destruct (@relayout_state this T (Some [index]) None HT Hall Hlo Hhi Hs)
    as (this1 & -> & F1 & Hb1 & HS1).
  destruct (same_frame_bounds F1) as (B1 & B2 & B3).
  assert (HT1 : this_size this1 = Some (Fin T))
    by (destruct F1 as (_ & _ & -> & _); exact HT).
  destruct sz as [n|[|i]].
  - exists this1. auto.
  - destruct (@distributeViewSizes_state this1 T HT1 Hb1)
      as (this2 & -> & F2 & Hb2 & HS2).
    + now rewrite B1.
    + now rewrite B2.
    + exact (same_frame_sashes F1 Hs).
    + exists this2. split; [reflexivity|].
      split; [exact (same_frame_trans F1 F2) | auto].
  - exists this1. auto.
Qed.

(** X18. [addView] with layout. On safe integers: on an engine with the
    sash count invariant whose items have no snap size and are at
    integer sizes within their integer bounds, adding a contract of
    integer bounds whose initial size is an integer within them, when the
    integer container size lies between the sums of the minimums and of
    the maximums with the new contract counted, returns with the
    contract inserted at the position [splice] takes the index for, the
    sizes summing to the container size, every item within its bounds and
    the sash count invariant kept. *)
Theorem addView_settles (this : SplitView) (total : num) (v : IView)
    (sz : SizeArg) (index : option Z) :
  sash_invariant this ->
  this_size this = Some total ->
  safe_integer total = true ->
  safe_items (Build_IViewItem v (addView_viewSize v sz this) :: views this)
  = true ->
  (sum_minimums (views this) + minimumSize v <=? total)%num = true ->
  (total <=? sum_maximums (views this) + maximumSize v)%num = true ->
  exists this',
    addView v (Some sz) index false this = Returns tt this'
    /\ map view (views this')
       = splice_insert (map view (views this))
           (match index with Some i => i | None => length_ this end) v
    /\ sum_sizes (views this') = total
    /\ forallb plain_in_bounds (views this') = true
    /\ sash_invariant this'.
Proof.
  intros Hinv HT Hsafe Hitems.
  destruct (safe_integer_fin total Hsafe) as [T ->].
  pose proof (safe_items_plain _ Hitems) as Hall'.
  cbn [forallb] in Hall'. apply andb_prop in Hall' as [Hnew Hall].
  clear Hsafe Hitems.
  intros Hlo Hhi.
  rewrite addView_unfold.
  set (index' := match index with Some i => i | None => length_ this end).
  set (viewSize := addView_viewSize v sz this) in *.
  set (this1 := addView_inserted v viewSize index' this).
  destruct (addView_inserted_views v viewSize index' this) as (V1 & T1 & S1).
  fold this1 in V1, T1, S1.
  assert (L1 : length (views this1) = S (length (views this)))
    by (rewrite V1; apply splice_insert_length).
  assert (Hinv1 : sash_invariant this1).
  { unfold sash_invariant, length_ in *. rewrite L1, S1.
    destruct (Nat.ltb_spec 1 (S (length (views this)))); lia. }
  destruct (@addView_settle_state this1 T sz index')
    as (this' & E & F & Hb & HS).
  - congruence.
  - rewrite V1. now apply forallb_splice_insert.
  - unfold sum_minimums in *. rewrite V1, sum_of_splice_insert. exact Hlo.
  - unfold sum_maximums in *. rewrite V1, sum_of_splice_insert. exact Hhi.
  - exact (sash_invariant_enough Hinv1).
  - exists this'. split; [exact E|]. destruct F as (F1 & F2 & _).
    split; [rewrite F1, V1; apply splice_insert_map|].
    split; [exact HS|]. split; [exact Hb|].
    unfold sash_invariant, length_ in *.
    now rewrite (same_views_length _ _ F1), F2.
Qed.

Lemma addView_settles_witness :
  let this :=
    engine [item (numZ 50) PInf None (numZ 100);
            item (numZ 50) (numZ 150) None (numZ 100)] (numZ 200) in
  let v := {| minimumSize := numZ 30; maximumSize := numZ 300;
              snapSize := None |} in
  exists this',
    addView v (Some (size_sizing distribute)) None false this
    = Returns tt this'
    /\ sum_sizes (views this') = numZ 200
    /\ forallb plain_in_bounds (views this') = true.
Proof.
  intros this v.
  destruct (@addView_settles this (numZ 200) v (size_sizing distribute) None)
    as (this' & E & _ & HS & Hb & _);
    [reflexivity | reflexivity | reflexivity | reflexivity | reflexivity
    | reflexivity |].
  exists this'. auto.
Defined.

(** ** The drag of a sash *)

Lemma at_index_same_views (vs ws : list IViewItem) (i : Z) :
  map view vs = map view ws ->
  option_map view (at_index vs i) = option_map view (at_index ws i).
Proof.
  intros H. unfold at_index. destruct (i <? 0)%Z; auto.
  now rewrite <- !nth_error_map, H.
Qed.

Lemma agree_set_size (P : list Z) (vs ws : list IViewItem) (i : Z)
    (sz : num) :
  agree P vs ws -> agree (i :: P) (set_size i sz vs) (set_size i sz ws).
Proof.
  intros [Hv HP]. split; [now rewrite !set_size_views|].
  intros j Hj. rewrite !at_index_set_size.
  destruct (Z.eqb_spec i j) as [<-|Hne].
  - pose proof (@at_index_same_views vs ws i Hv) as E.
    destruct (at_index vs i), (at_index ws i); cbn in E |- *; congruence.
  - destruct Hj as [Hj|Hj]; [contradiction | now apply HP].
Qed.

Lemma agree_weaken (P Q : list Z) (vs ws : list IViewItem) :
  (forall i, In i Q -> In i P) -> agree P vs ws -> agree Q vs ws.
Proof. intros H [Hv HP]. split; auto. Qed.

(** The up pass reads the contracts and the baseline only: on lists with
    the same contracts it gives the same delta and the same items at
    every position it wrote. *)
Lemma resize_up_agree (idx : list Z) (sizes : list num) :
  forall (P : list Z) (vs ws : list IViewItem) (d a : num)
         (vs' : list IViewItem) (a1 : num),
  agree P vs ws ->
  resize_up idx sizes vs d a = Some (vs', a1) ->
  exists ws',
    resize_up idx sizes ws d a = Some (ws', a1)
    /\ agree (idx ++ P) vs' ws'.
Proof.
  induction idx as [|i rest IH]; intros P vs ws d a vs' a1 Hag Hup;
    cbn [resize_up] in *.
  - injection Hup as <- <-. exists ws. auto.
  - pose proof (@at_index_same_views vs ws i (proj1 Hag)) as E.
    destruct (at_index vs i) as [x|]; [|discriminate].
    destruct (at_index ws i) as [y|]; [|discriminate].
    cbn in E. injection E as E. rewrite <- E.
    destruct (@IH (i :: P) _ _ _ _ _ _
                (@agree_set_size P vs ws i _ Hag) Hup) as (ws' & Hw & Hag').
    exists ws'. split; [exact Hw|].
    apply (@agree_weaken (rest ++ i :: P) ((i :: rest) ++ P) vs' ws');
      [|exact Hag'].
    intros j Hj. cbn in Hj. apply in_or_app.
    destruct Hj as [<-|Hj]; [right; now left|].
    apply in_app_or in Hj. destruct Hj; [now left | right; now right].
Qed.

Lemma resize_down_agree (idx : list Z) (sizes : list num) :
  forall (P : list Z) (vs ws : list IViewItem) (a : num)
         (vs' : list IViewItem),
  agree P vs ws ->
  resize_down idx sizes vs a = Some vs' ->
  exists ws',
    resize_down idx sizes ws a = Some ws'
    /\ agree (idx ++ P) vs' ws'.
Proof.
  induction idx as [|i rest IH]; intros P vs ws a vs' Hag Hdn;
    cbn [resize_down] in *.
  - injection Hdn as <-. exists ws. auto.
  - pose proof (@at_index_same_views vs ws i (proj1 Hag)) as E.
    destruct (at_index vs i) as [x|]; [|discriminate].
    destruct (at_index ws i) as [y|]; [|discriminate].
    cbn in E. injection E as E. rewrite <- E.
    destruct (@IH (i :: P) _ _ _ _
                (@agree_set_size P vs ws i _ Hag) Hdn) as (ws' & Hw & Hag').
    exists ws'. split; [exact Hw|].
    apply (@agree_weaken (rest ++ i :: P) ((i :: rest) ++ P) vs' ws');
      [|exact Hag'].
    intros j Hj. cbn in Hj. apply in_or_app.
    destruct Hj as [<-|Hj]; [right; now left|].
    apply in_app_or in Hj. destruct Hj; [now left | right; now right].
Qed.

Lemma spec_clamped_delta_views (vs ws : list IViewItem) (sizes : list num)
    (index : Z) (delta : num) :
  map view vs = map view ws ->
  spec_clamped_delta vs sizes index delta
  = spec_clamped_delta ws sizes index delta.
Proof.
  intros H. pose proof (same_views_length _ _ H) as Hl.
  unfold spec_clamped_delta, spec_minDeltaUp, spec_maxDeltaUp,
    spec_minDeltaDown, spec_maxDeltaDown. rewrite Hl.
  repeat match goal with
  | |- context [sum_over ?l (item_term ?t vs sizes)] =>
      rewrite (@sum_over_ext l (item_term t vs sizes) (item_term t ws sizes))
        by (intros; now apply item_term_views)
  end.
  reflexivity.
Qed.

(** [resize] with a baseline writes every item from the contracts, the
    baseline and the delta: what the sizes were before does not matter. *)
Lemma resize_baseline (a b : SplitView) (index : Z) (delta : num)
    (sizes : list num) (low high : option (list Z)) :
  map view (views a) = map view (views b) ->
  (0 <= index < length_ a)%Z ->
  exists vs,
    resize index delta (Some sizes) low high a = Returns tt (set_views vs a)
    /\ resize index delta (Some sizes) low high b
       = Returns tt (set_views vs b)
    /\ map view vs = map view (views a).
Proof.
  intros Hv Hi.
  assert (Hl : length_ b = length_ a)
    by (unfold length_; now rewrite (same_views_length _ _ Hv)).
  assert (Hi' : (0 <= index < length_ b)%Z) by lia.
  unfold resize. rewrite Hl.
  destruct (Z.ltb_spec index 0); [lia|].
  destruct (Z.gtb_spec index (length_ a)); [lia|]. cbn [orb].
  rewrite (@resize_tentativeDelta_spec a index delta sizes low high Hi).
  rewrite (@resize_tentativeDelta_spec b index delta sizes low high Hi').
  rewrite (@spec_clamped_delta_views (views a) (views b) sizes index delta Hv).
  set (t := spec_clamped_delta (views b) sizes index delta).
  assert (Ed : resize_downIndexes index b low high
               = resize_downIndexes index a low high)
    by (unfold resize_downIndexes; now rewrite Hl).
  rewrite Ed.
  set (up := resize_upIndexes index low high).
  set (down := resize_downIndexes index a low high).
  pose proof (upIndexes_in_range a low high Hi) as Hu.
  pose proof (downIndexes_in_range a low high Hi) as Hd.
  fold up in Hu. fold down in Hd.
  unfold resize_apply.
  destruct (resize_up_returns sizes t zero Hu) as (va1 & a1 & Eu & Hva1).
  rewrite Eu.
  destruct (@resize_up_agree up sizes [] (views a) (views b) t zero va1 a1)
    as (vb1 & Eu' & Hag1); [split; [exact Hv | intros i []] | exact Eu |].
  rewrite Eu'.
  destruct (@resize_down_returns down sizes va1 a1) as (va2 & Edn & Hva2).
  { eapply Forall_impl; [|exact Hd]. intros j. now apply in_range_same_views. }
  rewrite Edn.
  destruct (@resize_down_agree down sizes _ va1 vb1 a1 va2 Hag1 Edn)
    as (vb2 & Edn' & Hag2).
  rewrite Edn'.
  assert (E : vb2 = va2).
  { apply at_index_ext. intros i. destruct Hag2 as [Hv2 HP].
    destruct (Z_lt_ge_dec i 0) as [Hneg|Hpos].
    { unfold at_index. destruct (Z.ltb_spec i 0); [reflexivity | lia]. }
    destruct (Z_lt_ge_dec i (length_ a)) as [Hlt|Hge].
    - symmetry. apply HP. apply in_or_app.
      destruct (Z_le_gt_dec i index).
      + right. apply in_or_app. left.
        apply (Permutation_in _ (prioritize_perm _ low high)).
        apply in_range_iff. lia.
      + left. apply (Permutation_in _ (prioritize_perm _ low high)).
        apply in_range_iff. lia.
    - pose proof (same_views_length _ _ Hv2) as L2.
      assert (L1 : length va2 = length (views a))
        by (apply same_views_length; congruence).
      unfold at_index. destruct (Z.ltb_spec i 0); [reflexivity|].
      rewrite (proj2 (nth_error_None vb2 _)),
        (proj2 (nth_error_None va2 _)); auto; unfold length_ in *; lia. }
  subst vb2. exists va2. split; [reflexivity|]. split; [reflexivity|].
  congruence.
Qed.

(** What a [mousemove] of a drag leaves: the sizes [resize] writes from
    the baseline, with the empty space distributed, and their sum as
    content size. *)
Lemma sash_mousemove_unfold (a b : SplitView) (index : Z)
    (sizes : list num) (delta : num) :
  map view (views a) = map view (views b) ->
  this_size a = this_size b ->
  (0 <= index < length_ a)%Z ->
  (length (views a) - 1 <= length (sashes a))%nat ->
  (length (views b) - 1 <= length (sashes b))%nat ->
  exists vs,
    sash_mousemove index sizes delta a
    = Returns tt (set_contentSize (sum_sizes vs) (set_views vs a))
    /\ sash_mousemove index sizes delta b
       = Returns tt (set_contentSize (sum_sizes vs) (set_views vs b))
    /\ map view vs = map view (views a).
Proof.
  intros Hv HT Hi Hsa Hsb.
  destruct (@resize_baseline a b index delta sizes None None Hv Hi)
    as (vs & Ea & Eb & Hvs).
  unfold sash_mousemove, bind. rewrite Ea, Eb. unfold distributeEmptySpace.
  cbn [views set_views this_size]. rewrite HT.
  set (vs' := distributeEmptySpace_loop (length vs) vs _).
  assert (Hvs' : map view vs' = map view vs)
    by apply distributeEmptySpace_loop_views.
  exists vs'.
  rewrite !layoutViews_returns.
  - cbn [views set_views]. split; [reflexivity|]. split; [reflexivity|].
    congruence.
  - cbn [views set_views sashes].
    pose proof (same_views_length _ _ Hv) as L.
    rewrite (same_views_length _ _ Hvs'), (same_views_length _ _ Hvs).
    lia.
  - cbn [views set_views sashes].
    now rewrite (same_views_length _ _ Hvs'), (same_views_length _ _ Hvs).
Qed.

(** X19. A drag has no memory. With the sash position and the baseline
    sizes captured at [mousedown], a [mousemove] leaves an engine that
    does not depend on the moves before it: moving by [d1] and then by
    [d2] ends in exactly the engine that moving by [d2] at once ends in,
    for any contracts, baseline and deltas. *)
Theorem sash_drag_memoryless (this : SplitView) (index : Z)
    (sizes : list num) (d1 d2 : num) :
  (0 <= index < length_ this)%Z ->
  (length (views this) - 1 <= length (sashes this))%nat ->
  exists this1 this2,
    sash_mousemove index sizes d1 this = Returns tt this1
    /\ sash_mousemove index sizes d2 this1 = Returns tt this2
    /\ sash_mousemove index sizes d2 this = Returns tt this2.
Proof.
  intros Hi Hs.
  destruct (@sash_mousemove_unfold this this index sizes d1
              eq_refl eq_refl Hi Hs Hs) as (v1 & E1 & _ & Hv1).
  set (this1 := set_contentSize (sum_sizes v1) (set_views v1 this)) in *.
  assert (Hi1 : (0 <= index < length_ this1)%Z).
  { unfold length_, this1. cbn [views set_contentSize set_views].
    rewrite (same_views_length _ _ Hv1). exact Hi. }
  assert (Hs1 : (length (views this1) - 1 <= length (sashes this1))%nat).
  { unfold this1. cbn [views sashes set_contentSize set_views].
    now rewrite (same_views_length _ _ Hv1). }
  destruct (@sash_mousemove_unfold this1 this index sizes d2)
    as (v2 & E2 & E2' & Hv2); auto.
  exists this1, (set_contentSize (sum_sizes v2) (set_views v2 this)).
  split; [exact E1|]. split; [|exact E2']. rewrite E2. reflexivity.
Qed.

Lemma sash_drag_memoryless_witness :
  let this :=
    engine [item (numZ 50) PInf None (numZ 100);
            item (numZ 50) (numZ 150) None (numZ 100);
            item (numZ 20) (numZ 90) None (numZ 80)] (numZ 280) in
  let sizes := sizes_of (views this) in
  exists this1 this2,
    sash_mousemove 0 sizes (numZ 70) this = Returns tt this1
    /\ sash_mousemove 0 sizes (numZ (-30)) this1 = Returns tt this2
    /\ sash_mousemove 0 sizes (numZ (-30)) this = Returns tt this2.
Proof.
  intros this sizes.
  apply (@sash_drag_memoryless this 0 sizes (numZ 70) (numZ (-30)));
    [vm_compute; split; [discriminate | reflexivity] | cbn; lia].
Defined.






(** X21. Every [mousemove] on a sash between two items keeps the engine
    settled. On safe integers: for items without snap size at integer
    sizes within their integer bounds that sum to the container size, a
    move by any integer delta returns with the contracts unchanged, every
    item within its bounds and the sizes still summing to the container
    size. *)
Theorem sash_mousemove_settled (this : SplitView) (index : Z)
    (delta : num) :
  safe_items (views this) = true ->
  safe_integer delta = true ->
  this_size this = Some (sum_sizes (views this)) ->
  (0 <= index < length_ this - 1)%Z ->
  (length (views this) - 1 <= length (sashes this))%nat ->
  exists this',
    sash_mousemove index (sizes_of (views this)) delta this
    = Returns tt this'
    /\ map view (views this') = map view (views this)
    /\ forallb plain_in_bounds (views this') = true
    /\ sum_sizes (views this') = sum_sizes (views this)
    /\ this_size this' = this_size this.
Proof.
  intros Hitems Hsafe.
  pose proof (safe_items_plain _ Hitems) as Hall.
  destruct (safe_integer_fin delta Hsafe) as [d ->].
  clear Hitems Hsafe.
  intros HT Hi Hs.
  destruct (@resize_plain this index d None None Hall)
    as (vs & t & S & _ & Hr & Hv & Hb & HS & HS'); [lia|].
  destruct (Z.eqb_spec index (length_ this - 1)) as [E|_]; [lia|].
  unfold sash_mousemove, bind.
  change (resize index (Fin d) (Some (sizes_of (views this))) None None this)
    with (resize index (Fin d) None None None this).
  rewrite Hr.
  rewrite (@distributeEmptySpace_settled (set_views vs this) S);
    [|cbn [this_size set_views]; congruence | exact HS'].
  rewrite layoutViews_returns
    by (cbn [views sashes set_views]; now rewrite (same_views_length _ _ Hv)).
  eexists. split; [reflexivity|].
  cbn [views this_size set_contentSize set_views].
  repeat split; auto. congruence.
Qed.

Lemma sash_mousemove_settled_witness :
  let this :=
    engine [item (numZ 50) PInf None (numZ 100);
            item (numZ 50) (numZ 150) None (numZ 100);
            item (numZ 20) (numZ 90) None (numZ 80)] (numZ 280) in
  exists this',
    sash_mousemove 1 (sizes_of (views this)) (numZ 500) this
    = Returns tt this'
    /\ forallb plain_in_bounds (views this') = true
    /\ sum_sizes (views this') = sum_sizes (views this).
Proof.
  intros this.
  destruct (@sash_mousemove_settled this 1 (numZ 500))
    as (this' & E & _ & Hb & HS & _);
    [reflexivity | reflexivity | reflexivity
    | vm_compute; split; [discriminate | reflexivity] | cbn; lia |].
  exists this'. auto.
Defined.

Local Close Scope num_scope.

(** ** Panes as items of the engine *)

(** X22. A collapsed pane is rigid, an expanded one is a contract the
    engine can settle. Whatever body bounds were assigned, the contract
    of a collapsed pane has minimum and maximum equal to the header size
    22, so [distributeViewSizes] does not count it as flexible and an
    item within its bounds has size 22 exactly. An expanded pane whose
    minimum body size is finite, not negative and at most its maximum
    body size has a finite minimum of at least 22 that is at most its
    maximum. *)
Theorem pane_contract_bounds (p : PaneviewPanel.t) (it : IViewItem) :
  pane_contract p (view it) ->
  (PaneviewPanel.isExpanded p = false ->
     flexible (view it) = false
     /\ (in_bounds it = true -> size it = numZ 22))
  /\ (forall m : Qc,
        PaneviewPanel.isExpanded p = true ->
        PaneviewPanel._minimumBodySize p = Fin m -> (Q2Qc 0 <= m)%Qc ->
        (Fin m <=? PaneviewPanel._maximumBodySize p)%num = true ->
        exists n,
          minimumSize (view it) = Fin n
          /\ (Q2Qc (inject_Z 22) <= n)%Qc
          /\ (Fin n <=? maximumSize (view it))%num = true).
Proof.
  intros [Hmin Hmax]. split.
  - intros Hc. unfold PaneviewPanel.minimumSize, PaneviewPanel.maximumSize in *.
    rewrite Hc in Hmin, Hmax. split.
    + unfold flexible. rewrite Hmin, Hmax. reflexivity.
    + intros Hb. destruct (in_bounds_inv it Hb) as (s & m & Es & Em & Hms & Hx).
      rewrite Hmax in Hx. rewrite Hmin in Em.
      unfold PaneviewPanel.headerSize in *.
      apply Fin_inj in Em. rewrite Es. num_prop. f_equal. qc_lra.
  - intros m He Hm Hm0 Hmx.
    unfold PaneviewPanel.minimumSize, PaneviewPanel.maximumSize in *.
    rewrite He in Hmin, Hmax. rewrite Hm in Hmin. rewrite Hmin, Hmax.
    unfold PaneviewPanel.headerSize.
    destruct (@max_cases m _ Hmx) as [->|(M & -> & HM)]; eexists;
      (split; [reflexivity|]); num_prop; split; try reflexivity; qc_lra.
Qed.

Lemma pane_contract_bounds_witness :
  let p := PaneviewPanel.set_minimumBodySize (Some (numZ 100))
             (PaneviewPanel.set_maximumBodySize None
                {| PaneviewPanel._orthogonalSize := zero;
                   PaneviewPanel._minimumBodySize := zero;
                   PaneviewPanel._maximumBodySize := PInf;
                   PaneviewPanel._isExpanded := false |}) in
  let it := item (numZ 22) (numZ 22) None (numZ 22) in
  flexible (view it) = false /\ size it = numZ 22.
Proof.
  intros p it.
  destruct (@pane_contract_bounds p it) as [H _];
    [split; reflexivity|].
  destruct (H eq_refl) as [Hf Hs]. split; [exact Hf | now apply Hs].
Defined.

(** ** Sizes the contracts allow *)

Local Open Scope num_scope.

Lemma clampView_valid (v : IView) (x : Qc) :
  contract_ok v = true ->
  exists n, clampView v (Fin x) = Fin n
            /\ valid_size (Build_IViewItem v (Fin n)) = true.
Proof.
  unfold contract_ok, clampView, valid_size, in_bounds. cbn [view size].
  destruct (minimumSize v) as [m| | |] eqn:Em; try discriminate.
  intros Hm.
  assert (Hc : exists n, clamp (Fin x) (Fin m) (maximumSize v) = Fin n
               /\ (Fin m <=? Fin n) && (Fin n <=? maximumSize v) = true).
  { destruct (@clamp_in_bounds x m _ Hm) as (n & E & H1 & H2).
    exists n. split; [exact E|]. rewrite H2.
    now rewrite (proj2 (num_leb_fin m n) H1). }
  destruct (snapSize v) as [sn|].
  - destruct (Fin x >=? Fin m).
    + destruct Hc as (n & -> & H). exists n. now rewrite H.
    + destruct (Fin x <? sn).
      * eexists. split; [reflexivity|]. apply orb_true_r.
      * exists m. split; [reflexivity|]. now rewrite num_leb_refl_fin, Hm.
  - destruct Hc as (n & -> & H). exists n. now rewrite H.
Qed.

Lemma contract_ok_at (vs : list IViewItem) (i : Z) (it : IViewItem) :
  forallb contract_ok (map view vs) = true -> at_index vs i = Some it ->
  contract_ok (view it) = true.
Proof.
  intros H E. rewrite forallb_forall in H. apply H, in_map.
  exact (@at_index_In _ vs i it E).
Qed.

Lemma valid_at_set_size (P : list Z) (vs : list IViewItem) (i : Z)
    (it : IViewItem) (n : num) :
  at_index vs i = Some it ->
  valid_size (Build_IViewItem (view it) n) = true ->
  valid_at P vs -> valid_at (i :: P) (set_size i n vs).
Proof.
  intros E Hn HP j Hj. rewrite at_index_set_size.
  destruct (Z.eqb_spec i j) as [<-|Hne].
  - rewrite E. cbn. eauto.
  - destruct Hj as [Hj|Hj]; [contradiction | now apply HP].
Qed.

Lemma valid_at_weaken (P Q : list Z) (vs : list IViewItem) :
  (forall i, In i Q -> In i P) -> valid_at P vs -> valid_at Q vs.
Proof. intros H HP j Hj. apply HP, H, Hj. Qed.

Lemma in_cons_app {A : Type} (i j : A) (rest P : list A) :
  In j ((i :: rest) ++ P) -> In j (rest ++ i :: P).
Proof.
  intros Hj. cbn in Hj. apply in_or_app.
  destruct Hj as [<-|Hj]; [right; now left|].
  apply in_app_or in Hj. destruct Hj; [now left | right; now right].
Qed.

(** The up pass on contracts it can honour, with a finite baseline and a
    finite delta: every position it writes gets a size its contract
    allows, and the deltas stay finite. *)
Lemma resize_up_valid (idx : list Z) (sizes : list num) :
  forall (P : list Z) (vs : list IViewItem) (d a : Qc),
  Forall (in_range vs) idx ->
  (forall i, In i idx -> exists s, toNumber (at_index sizes i) = Fin s) ->
  forallb contract_ok (map view vs) = true ->
  valid_at P vs ->
  exists vs' a',
    resize_up idx sizes vs (Fin d) (Fin a) = Some (vs', Fin a')
    /\ map view vs' = map view vs
    /\ valid_at (idx ++ P) vs'.
Proof.
  induction idx as [|i rest IH]; intros P vs d a Hr Hs Hok HP;
    cbn [resize_up].
  - exists vs, a. auto.
  - inversion Hr as [|? ? Hi Hrest]; subst.
    destruct (at_index_in_range Hi) as [it E]. rewrite E.
    destruct (Hs i (or_introl eq_refl)) as [s ->].
    change (Fin s + Fin d) with (Fin (s + d)).
    destruct (@clampView_valid (view it) (s + d)%Qc
                (@contract_ok_at vs i it Hok E)) as (n & -> & Hn).
    change (Fin n - Fin s) with (Fin (n - s)).
    change (Fin d - Fin (n - s)) with (Fin (d - (n - s))).
    change (Fin a + Fin (n - s)) with (Fin (a + (n - s))).
    destruct (IH (i :: P) (set_size i (Fin n) vs) (d - (n - s))%Qc
                (a + (n - s))%Qc) as (vs' & a' & E' & Hv & HP').
    + eapply Forall_impl; [|exact Hrest]. intros j. apply in_range_set_size.
    + intros j Hj. apply Hs. now right.
    + now rewrite set_size_views.
    + exact (@valid_at_set_size P vs i it (Fin n) E Hn HP).
    + exists vs', a'. split; [exact E'|].
      split; [now rewrite Hv, set_size_views|].
      apply (@valid_at_weaken (rest ++ i :: P)); [|exact HP'].
      intros j. apply in_cons_app.
Qed.

Lemma resize_down_valid (idx : list Z) (sizes : list num) :
  forall (P : list Z) (vs : list IViewItem) (a : Qc),
  Forall (in_range vs) idx ->
  (forall i, In i idx -> exists s, toNumber (at_index sizes i) = Fin s) ->
  forallb contract_ok (map view vs) = true ->
  valid_at P vs ->
  exists vs',
    resize_down idx sizes vs (Fin a) = Some vs'
    /\ map view vs' = map view vs
    /\ valid_at (idx ++ P) vs'.
Proof.
  induction idx as [|i rest IH]; intros P vs a Hr Hs Hok HP;
    cbn [resize_down].
  - exists vs. auto.
  - inversion Hr as [|? ? Hi Hrest]; subst.
    destruct (at_index_in_range Hi) as [it E]. rewrite E.
    destruct (Hs i (or_introl eq_refl)) as [s ->].
    change (Fin s - Fin a) with (Fin (s + - a)).
    destruct (@clampView_valid (view it) (s + - a)%Qc
                (@contract_ok_at vs i it Hok E)) as (n & -> & Hn).
    change (Fin n - Fin s) with (Fin (n - s)).
    change (Fin a + Fin (n - s)) with (Fin (a + (n - s))).
    destruct (IH (i :: P) (set_size i (Fin n) vs) (a + (n - s))%Qc)
      as (vs' & E' & Hv & HP').
    + eapply Forall_impl; [|exact Hrest]. intros j. apply in_range_set_size.
    + intros j Hj. apply Hs. now right.
    + now rewrite set_size_views.
    + exact (@valid_at_set_size P vs i it (Fin n) E Hn HP).
    + exists vs'. split; [exact E'|].
      split; [now rewrite Hv, set_size_views|].
      apply (@valid_at_weaken (rest ++ i :: P)); [|exact HP'].
      intros j. apply in_cons_app.
Qed.

Lemma sum_over_finite (l : list Z) (f : Z -> num) :
  (forall i, In i l -> exists q, f i = Fin q) ->
  exists q, sum_over l f = Fin q.
Proof.
  unfold sum_over. induction l as [|i rest IH]; intros H; cbn [fold_right].
  - eexists. reflexivity.
  - destruct (H i (or_introl eq_refl)) as [q ->].
    destruct IH as [r ->]; [intros; apply H; now right|].
    eexists. reflexivity.
Qed.

Lemma sum_over_above (l : list Z) (f : Z -> num) :
  (forall i, In i l -> f i = PInf \/ exists q, f i = Fin q) ->
  sum_over l f = PInf \/ exists q, sum_over l f = Fin q.
Proof.
  unfold sum_over. induction l as [|i rest IH]; intros H; cbn [fold_right].
  - right. eexists. reflexivity.
  - destruct IH as [->|[r ->]]; [intros; apply H; now right| |];
      destruct (H i (or_introl eq_refl)) as [->|[q ->]]; cbn; eauto.
Qed.

Lemma sum_over_below (l : list Z) (f : Z -> num) :
  (forall i, In i l -> f i = NInf \/ exists q, f i = Fin q) ->
  sum_over l f = NInf \/ exists q, sum_over l f = Fin q.
Proof.
  unfold sum_over. induction l as [|i rest IH]; intros H; cbn [fold_right].
  - right. eexists. reflexivity.
  - destruct IH as [->|[r ->]]; [intros; apply H; now right| |];
      destruct (H i (or_introl eq_refl)) as [->|[q ->]]; cbn; eauto.
Qed.

Lemma clamp_finite (d A : Qc) (B C D : num) :
  (B = NInf \/ exists q, B = Fin q) ->
  (C = PInf \/ exists q, C = Fin q) ->
  (D = PInf \/ exists q, D = Fin q) ->
  exists t, clamp (Fin d) (num_max (Fin A) B) (num_min C D) = Fin t.
Proof.
  intros [->|[b ->]] [->|[c ->]] [->|[e ->]];
    num_unfold; dec_cases; eexists; reflexivity.
Qed.

(** The four terms of an item with a contract the engine can honour and
    a finite baseline size. *)
Lemma contract_ok_terms (vs : list IViewItem) (sizes : list num) (i : Z) :
  forallb contract_ok (map view vs) = true -> in_range vs i ->
  (exists s, toNumber (at_index sizes i) = Fin s) ->
  (exists q, item_term (fun v s => effectiveMinimum v - s) vs sizes i = Fin q)
  /\ (item_term (fun v s => maximumSize v - s) vs sizes i = PInf
      \/ exists q, item_term (fun v s => maximumSize v - s) vs sizes i
                   = Fin q)
  /\ (item_term (fun v s => s - maximumSize v) vs sizes i = NInf
      \/ exists q, item_term (fun v s => s - maximumSize v) vs sizes i
                   = Fin q)
  /\ (exists q, item_term (fun v s => s - effectiveMinimum v) vs sizes i
                = Fin q).
Proof.
  intros Hok Hi [s Es]. destruct (at_index_in_range Hi) as [it E].
  pose proof (@contract_ok_at vs i it Hok E) as Hc.
  unfold item_term. rewrite E, Es. unfold contract_ok in Hc.
  unfold effectiveMinimum.
  destruct (minimumSize (view it)) as [m| | |]; try discriminate.
  destruct (@max_cases m _ Hc) as [->|(M & -> & _)];
    destruct (snapSize (view it)); cbn; repeat split; eauto.
Qed.

(** In the model, [resize] leaves every size one its contract allows:
    within the bounds or, under [clampView] as modelled, at 0 for an
    item that declares a snap size. *)
Lemma resize_valid_sizes (this : SplitView) (index : Z) (d : Qc)
    (sizes : list num) (low high : option (list Z)) :
  forallb contract_ok (map view (views this)) = true ->
  (forall i, in_range (views this) i ->
     exists s, toNumber (at_index sizes i) = Fin s) ->
  (0 <= index < length_ this)%Z ->
  exists vs,
    resize index (Fin d) (Some sizes) low high this
    = Returns tt (set_views vs this)
    /\ map view vs = map view (views this)
    /\ forallb valid_size vs = true.
Proof.
  intros Hok Hsz Hi. unfold resize.
  destruct (Z.ltb_spec index 0); [lia|].
  destruct (Z.gtb_spec index (length_ this)); [lia|]. cbn [orb].
  rewrite (@resize_tentativeDelta_spec this index (Fin d) sizes low high Hi).
  set (up := resize_upIndexes index low high).
  set (down := resize_downIndexes index this low high).
  pose proof (upIndexes_in_range this low high Hi) as Hu.
  pose proof (downIndexes_in_range this low high Hi) as Hd.
  fold up in Hu. fold down in Hd.
  assert (Hterm : forall i, (0 <= i < length_ this)%Z ->
            in_range (views this) i) by (intros i Hr; exact Hr).
  assert (U : forall i, In i (interval 0 index) -> in_range (views this) i)
    by (intros i Hin; apply in_interval_iff in Hin; apply Hterm; lia).
  assert (D : forall i, In i (interval (index + 1) (length_ this - 1)) ->
            in_range (views this) i)
    by (intros i Hin; apply in_interval_iff in Hin; apply Hterm; lia).
  assert (Et : exists t,
            spec_clamped_delta (views this) sizes index (Fin d) = Fin t).
  { unfold spec_clamped_delta, spec_minDeltaUp, spec_maxDeltaUp,
      spec_minDeltaDown, spec_maxDeltaDown. fold (length_ this).
    destruct (@sum_over_finite (interval 0 index)
                (item_term (fun v s => effectiveMinimum v - s)
                   (views this) sizes)) as [A ->].
    { intros i Hin.
      apply (@contract_ok_terms (views this) sizes i Hok (U i Hin)
               (Hsz i (U i Hin))). }
    apply clamp_finite.
    - destruct (index =? length_ this - 1)%Z; [now left|].
      apply sum_over_below. intros i Hin.
      apply (@contract_ok_terms (views this) sizes i Hok (D i Hin)
               (Hsz i (D i Hin))).
    - destruct (index =? length_ this - 1)%Z; [now left|].
      right. apply sum_over_finite. intros i Hin.
      apply (@contract_ok_terms (views this) sizes i Hok (D i Hin)
               (Hsz i (D i Hin))).
    - apply sum_over_above. intros i Hin.
      apply (@contract_ok_terms (views this) sizes i Hok (U i Hin)
               (Hsz i (U i Hin))). }
  destruct Et as [t ->]. unfold resize_apply.
  assert (Hfin : forall idx, Forall (in_range (views this)) idx ->
            forall i, In i idx ->
              exists s, toNumber (at_index sizes i) = Fin s).
  { intros idx Hr i Hin. rewrite Forall_forall in Hr. apply Hsz, Hr, Hin. }
  change zero with (Fin (Q2Qc 0)).
  destruct (@resize_up_valid up sizes [] (views this) t (Q2Qc 0) Hu
              (Hfin up Hu) Hok) as (vs1 & a1 & -> & Hv1 & HP1);
    [intros j []|].
  assert (Hd1 : Forall (in_range vs1) down).
  { eapply Forall_impl; [|exact Hd]. intros j.
    now apply in_range_same_views. }
  assert (Hok1 : forallb contract_ok (map view vs1) = true)
    by now rewrite Hv1.
  destruct (@resize_down_valid down sizes (up ++ []) vs1 a1 Hd1
              (Hfin down Hd) Hok1 HP1) as (vs2 & -> & Hv2 & HP2).
  exists vs2. split; [reflexivity|]. split; [congruence|].
  apply forallb_of_at_index. intros i x Ex.
  pose proof (at_index_Some_in_range _ _ Ex) as Hr. unfold in_range in Hr.
  rewrite (same_views_length _ _ Hv2), (same_views_length _ _ Hv1) in Hr.
  assert (Hr' : (0 <= i < length_ this)%Z) by exact Hr. clear Hr.
  destruct (HP2 i) as (it & Eit & Hval); [|congruence].
  apply in_or_app. destruct (Z_le_gt_dec i index).
  - right. apply in_or_app. left.
    apply (Permutation_in _ (prioritize_perm _ low high)).
    apply in_range_iff. lia.
  - left. apply (Permutation_in _ (prioritize_perm _ low high)).
    apply in_range_iff. lia.
Qed.

Lemma plain_contract_ok (v : IView) :
  plain_contract v = true -> contract_ok v = true /\ snapSize v = None.
Proof.
  unfold plain_contract, contract_ok.
  destruct (snapSize v); [discriminate|].
  destruct (minimumSize v); try discriminate. auto.
Qed.

(** X23. [resize] leaves every size within its bounds. For contracts
    without snap size whose minimum is at most the maximum, a baseline
    at every position, a position that holds an item, any priorities,
    and bounds, baseline and delta of a magnitude at which nothing
    overflows, [resize] returns and leaves every item within its bounds;
    the contracts are unchanged. The sizes the items had before do not
    matter, and neither the baseline nor the delta need be integers. *)
Theorem resize_leaves_valid_sizes (this : SplitView) (index : Z)
    (delta : num) (sizes : list num) (low high : option (list Z)) :
  forallb plain_contract (map view (views this)) = true ->
  forallb bounded_contract (map view (views this)) = true ->
  few (views this) = true ->
  (forall i, in_range (views this) i ->
     bounded (toNumber (at_index sizes i)) = true) ->
  bounded delta = true ->
  (0 <= index < length_ this)%Z ->
  exists vs,
    resize index delta (Some sizes) low high this
    = Returns tt (set_views vs this)
    /\ map view vs = map view (views this)
    /\ forallb plain_in_bounds vs = true.
Proof.
  intros Hplain _ _ Hsz Hd Hi.
  destruct (bounded_fin delta Hd) as [d ->].
  assert (Hok : forallb contract_ok (map view (views this)) = true).
  { apply forallb_forall. intros v Hv.
    apply plain_contract_ok.
    exact (proj1 (forallb_forall _ _) Hplain v Hv). }
  destruct (@resize_valid_sizes this index d sizes low high Hok) as
    (vs & E & Hv & Hval); [|exact Hi|].
  { intros i Hr. apply bounded_fin, Hsz, Hr. }
  exists vs. split; [exact E|]. split; [exact Hv|].
  apply forallb_forall. intros x Hx.
  assert (Hsn : snapSize (view x) = None).
  { apply plain_contract_ok.
    apply (proj1 (forallb_forall _ _) Hplain). rewrite <- Hv.
    apply in_map, Hx. }
  pose proof (proj1 (forallb_forall _ _) Hval x Hx) as Hx'.
  unfold valid_size in Hx'. rewrite Hsn, orb_false_r in Hx'.
  unfold plain_in_bounds, plain. now rewrite Hsn, Hx'.
Qed.

Lemma resize_leaves_valid_sizes_witness :
  let this :=
    engine [item (numZ 50) PInf None (numZ 100);
            item (numZ 50) (numZ 150) None (numZ 100)]
      (numZ 200) in
  exists vs,
    resize 0 (numZ 80) (Some [numZ 20; numZ 300]) None None this
    = Returns tt (set_views vs this)
    /\ forallb plain_in_bounds vs = true.
Proof.
  intros this.
  destruct (@resize_leaves_valid_sizes this 0 (numZ 80)
              [numZ 20; numZ 300] None None) as (vs & E & _ & Hb).
  - reflexivity.
  - reflexivity.
  - reflexivity.
  - intros i Hi. unfold in_range in Hi. cbn in Hi.
    assert (Hc : i = 0%Z \/ i = 1%Z) by lia.
    destruct Hc as [->| ->]; reflexivity.
  - reflexivity.
  - vm_compute. split; [discriminate | reflexivity].
  - exists vs. auto.
Defined.

Local Close Scope num_scope.

(** ** [distributeViewSizes] twice *)

Local Open Scope num_scope.

Lemma set_size_nat_app (pre rest : list IViewItem) (it : IViewItem)
    (sz : num) :
  set_size_nat (length pre) sz (pre ++ it :: rest)
  = pre ++ Build_IViewItem (view it) sz :: rest.
Proof.
  induction pre as [|x pre IH]; cbn [length app set_size_nat];
    [reflexivity | now rewrite IH].
Qed.

Lemma distribute_loop_apply_share (share : num) (vs : list IViewItem) :
  forall (pre : list IViewItem) (F : num),
  distribute_loop (fst (flexibleViewItems (length pre) vs F)) share
    (pre ++ vs)
  = pre ++ apply_share share vs.
Proof.
  induction vs as [|it rest IH]; intros pre F;
    cbn [flexibleViewItems apply_share map].
  - reflexivity.
  - fold (flexible (view it)). fold (apply_share share rest).
    destruct (flexible (view it)).
    + specialize (IH (pre ++ [Build_IViewItem (view it)
                                 (clamp share (minimumSize (view it))
                                    (maximumSize (view it)))])
                    (F + size it)).
      rewrite length_app, Nat.add_1_r, <- !app_assoc in IH. cbn [app] in IH.
      destruct (flexibleViewItems (S (length pre)) rest (F + size it))
        as [items total].
      cbn [fst distribute_loop] in *.
      rewrite nth_error_app2, Nat.sub_diag by lia. cbn [nth_error].
      rewrite set_size_nat_app. exact IH.
    + specialize (IH (pre ++ [it]) F).
      rewrite length_app, Nat.add_1_r, <- !app_assoc in IH. exact IH.
Qed.

Lemma IViewItem_eta (a b : IViewItem) :
  view a = view b -> size a = size b -> a = b.
Proof. destruct a, b. cbn. now intros -> ->. Qed.

(** A rigid item within its bounds sits at its minimum. *)
Lemma rigid_size (it : IViewItem) :
  plain_in_bounds it = true -> flexible (view it) = false ->
  size it = minimumSize (view it).
Proof.
  intros Hb Hf.
  destruct (plain_in_bounds_inv it Hb) as (s & m & _ & Es & Em & Hms & Hmx).
  unfold flexible in Hf. rewrite Em in Hf. rewrite Es, Em.
  destruct (@max_cases s _ Hmx) as [E|(M & E & HM)]; rewrite E in Hf.
  - discriminate.
  - assert (Hn : ~ (Q2Qc (inject_Z 0) < M - m)%Qc).
    { intros H. apply (proj2 (num_ltb_fin _ _)) in H.
      change (Fin M - Fin m >? zero)
        with (Fin (Q2Qc (inject_Z 0)) <? Fin (M - m)) in Hf.
      congruence. }
    f_equal. apply Qcnot_lt_le in Hn. qc_lra.
Qed.

(** On two lists with the same contracts whose items are within their
    bounds, the first loop of [distributeViewSizes] finds the same
    flexible positions, and what the sizes of the rigid items sum to is
    the same. *)
Lemma flexibleViewItems_agree (vs : list IViewItem) :
  forall (ws : list IViewItem) (i : nat) (F G Sv Sw : Qc),
  map view vs = map view ws ->
  forallb plain_in_bounds vs = true -> forallb plain_in_bounds ws = true ->
  sum_of size vs = Fin Sv -> sum_of size ws = Fin Sw ->
  exists items f g,
    flexibleViewItems i vs (Fin F) = (items, Fin (F + f))
    /\ flexibleViewItems i ws (Fin G) = (items, Fin (G + g))
    /\ (Sv - f = Sw - g)%Qc.
Proof.
  induction vs as [|x vs IH]; intros [|y ws] i F G Sv Sw Hv Hx Hy HSv HSw;
    try discriminate.
  - exists [], (Q2Qc 0), (Q2Qc 0). cbn [flexibleViewItems].
    cbn in HSv, HSw. apply Fin_inj in HSv, HSw. subst.
    split; [do 2 f_equal; qc_lra|]. split; [do 2 f_equal; qc_lra|].
    reflexivity.
  - cbn [map] in Hv. injection Hv as Hxy Hv.
    cbn [forallb] in Hx, Hy. apply andb_prop in Hx, Hy.
    destruct Hx as [Hx Hxs], Hy as [Hy Hys].
    unfold sum_of in HSv, HSw. cbn [fold_right] in HSv, HSw.
    fold (sum_of size vs) in HSv. fold (sum_of size ws) in HSw.
    destruct (plain_in_bounds_inv x Hx) as (sx & mx & _ & Esx & _).
    destruct (plain_in_bounds_inv y Hy) as (sy & my & _ & Esy & _).
    destruct (@sum_of_finite vs) as [Sv' ESv'].
    { intros it Hit. rewrite forallb_forall in Hxs.
      apply plain_in_bounds_finite, Hxs, Hit. }
    destruct (@sum_of_finite ws) as [Sw' ESw'].
    { intros it Hit. rewrite forallb_forall in Hys.
      apply plain_in_bounds_finite, Hys, Hit. }
    rewrite Esx, ESv' in HSv. rewrite Esy, ESw' in HSw.
    apply Fin_inj in HSv, HSw.
    cbn [flexibleViewItems]. fold (flexible (view x)). fold (flexible (view y)).
    rewrite <- Hxy. destruct (flexible (view x)) eqn:Hf.
    + rewrite Esx, Esy.
      destruct (IH ws (S i) (F + sx)%Qc (G + sy)%Qc Sv' Sw' Hv Hxs Hys
                  ESv' ESw') as (items & f & g & E1 & E2 & E3).
      change (Fin F + Fin sx) with (Fin (F + sx)).
      change (Fin G + Fin sy) with (Fin (G + sy)).
      rewrite E1, E2. exists (i :: items), (sx + f)%Qc, (sy + g)%Qc.
      split; [do 2 f_equal; qc_lra|]. split; [do 2 f_equal; qc_lra|].
      qc_lra.
    + destruct (IH ws (S i) F G Sv' Sw' Hv Hxs Hys ESv' ESw')
        as (items & f & g & E1 & E2 & E3).
      rewrite E1, E2. exists items, f, g.
      split; [reflexivity|]. split; [reflexivity|].
      pose proof (rigid_size x Hx Hf) as Rx.
      assert (Hf' : flexible (view y) = false) by now rewrite <- Hxy.
      pose proof (rigid_size y Hy Hf') as Ry.
      rewrite Esx in Rx. rewrite Esy, <- Hxy, <- Rx in Ry.
      apply Fin_inj in Ry. qc_lra.
Qed.

Lemma apply_share_agree (share : num) (vs : list IViewItem) :
  forall ws : list IViewItem,
  map view vs = map view ws ->
  forallb plain_in_bounds vs = true -> forallb plain_in_bounds ws = true ->
  apply_share share vs = apply_share share ws.
Proof.
  induction vs as [|x vs IH]; intros [|y ws] Hv Hx Hy; try discriminate;
    [reflexivity|].
  cbn [map] in Hv. injection Hv as Hxy Hv.
  cbn [forallb] in Hx, Hy. apply andb_prop in Hx, Hy.
  destruct Hx as [Hx Hxs], Hy as [Hy Hys].
  unfold apply_share. cbn [map]. fold (apply_share share vs).
  fold (apply_share share ws). rewrite (IH ws Hv Hxs Hys). f_equal.
  rewrite <- Hxy. destruct (flexible (view x)) eqn:Hf; [reflexivity|].
  apply IViewItem_eta; [exact Hxy|].
  rewrite (rigid_size x Hx Hf), (rigid_size y Hy); congruence.
Qed.

(** [relayout] on two engines with the same items and container size
    writes the same sizes. *)
Lemma relayout_same_views (a b : SplitView) (low high : option (list Z)) :
  views a = views b -> this_size a = this_size b ->
  (length (views a) - 1 <= length (sashes a))%nat ->
  (length (views b) - 1 <= length (sashes b))%nat ->
  exists vs,
    relayout low high a
    = saveProportions (set_contentSize (sum_sizes vs) (set_views vs a))
    /\ relayout low high b
       = saveProportions (set_contentSize (sum_sizes vs) (set_views vs b))
    /\ map view vs = map view (views a).
Proof.
  intros Hv HT Hsa Hsb.
  destruct (@relayout_unfold a low high Hsa) as (va & Ra & Hva & Ea).
  destruct (@relayout_unfold b low high Hsb) as (vb & Rb & Hvb & Eb).
  exists va. split; [exact Ea|]. split; [|exact Hva].
  assert (E : vb = va); [|now rewrite Eb, E].
  destruct (views a) as [|x rest] eqn:Eva.
  - rewrite <- Hv in Hvb. destruct va, vb; try discriminate. reflexivity.
  - assert (Hi : (0 <= length_ a - 1 < length_ a)%Z)
      by (unfold length_; rewrite Eva; cbn [length]; lia).
    assert (Hl : length_ b = length_ a) by (unfold length_; now rewrite <- Hv, Eva).
    rewrite <- Eva in *.
    destruct (@resize_baseline a b (length_ a - 1)
                (toNumber (this_size a) - sum_sizes (views a))
                (sizes_of (views a)) low high
                (f_equal (map view) Hv) Hi) as (vs & Ea' & Eb' & _).
    change (resize (length_ a - 1)
              (toNumber (this_size a) - sum_sizes (views a))
              (Some (sizes_of (views a))) low high a)
      with (resize (length_ a - 1)
              (toNumber (this_size a) - sum_sizes (views a))
              None low high a) in Ea'.
    rewrite Ea' in Ra. rewrite Hl, <- HT, <- Hv in Rb.
    change (resize (length_ a - 1)
              (toNumber (this_size a) - sum_sizes (views a)) None low high b)
      with (resize (length_ a - 1)
              (toNumber (this_size a) - sum_sizes (views a))
              (Some (sizes_of (views b))) low high b) in Rb.
    rewrite <- Hv, Eb' in Rb.
    apply (f_equal (@state_of unit)) in Ra, Rb.
    apply (f_equal views) in Ra, Rb. cbn in Ra, Rb. congruence.
Qed.

Lemma distributeViewSizes_share (this : SplitView) :
  distributeViewSizes this
  = relayout None None
      (set_views (apply_share (share_of (views this)) (views this)) this).
Proof.
  unfold distributeViewSizes, share_of, bind, get, modify.
  pose proof (@distribute_loop_apply_share
                (let '(items, flexibleSize) :=
                   flexibleViewItems 0 (views this) zero in
                 num_floor (flexibleSize / numZ (Z.of_nat (length items))))
                (views this) [] zero) as H.
  cbn [length app] in H.
  destruct (flexibleViewItems 0 (views this) zero) as [items F].
  cbn [fst] in H. now rewrite H.
Qed.

Lemma apply_share_views (share : num) (vs : list IViewItem) :
  map view (apply_share share vs) = map view vs.
Proof.
  unfold apply_share. rewrite map_map. apply map_ext. intros it.
  now destruct (flexible (view it)).
Qed.

Lemma apply_share_of_in_bounds (vs : list IViewItem) :
  forallb plain_in_bounds vs = true ->
  forallb plain_in_bounds (apply_share (share_of vs) vs) = true.
Proof.
  intros Hall. unfold share_of.
  pose proof (fun sh => @distribute_loop_apply_share sh vs [] zero) as H.
  cbn [length app] in H.
  destruct (@flexibleViewItems_finite vs 0 (Q2Qc 0)) as (items & F & E).
  { intros it Hit. rewrite forallb_forall in Hall.
    apply plain_in_bounds_finite, Hall, Hit. }
  change zero with (Fin (Q2Qc 0)) in *. rewrite E in *. cbn [fst] in H.
  rewrite <- H. destruct items as [|i rest]; [exact Hall|].
  assert (Hn : Q2Qc (inject_Z (Z.of_nat (length (i :: rest)))) <> Q2Qc 0).
  { intros H0. apply (f_equal Qcanon.this) in H0.
    cbn [Qcanon.this Q2Qc] in H0. apply Qred_eq_iff in H0.
    unfold Qeq, inject_Z in H0. cbn [Qnum Qden length] in H0. lia. }
  unfold numZ. rewrite (num_div_fin F Hn). cbn [num_floor]. unfold numZ.
  apply distribute_loop_in_bounds, Hall.
Qed.

Lemma share_of_agree (vs ws : list IViewItem) (T : Qc) :
  map view vs = map view ws ->
  forallb plain_in_bounds vs = true -> forallb plain_in_bounds ws = true ->
  sum_sizes vs = Fin T -> sum_sizes ws = Fin T ->
  share_of vs = share_of ws.
Proof.
  intros Hv Hx Hy HSv HSw. rewrite sum_sizes_sum_of in HSv, HSw.
  destruct (@flexibleViewItems_agree vs ws 0 (Q2Qc 0) (Q2Qc 0) T T
              Hv Hx Hy HSv HSw) as (items & f & g & E1 & E2 & E3).
  unfold share_of. change zero with (Fin (Q2Qc 0)). rewrite E1, E2.
  assert (E : f = g) by qc_lra. now rewrite E.
Qed.

(** Items within their bounds: the sum of the sizes lies between the sum
    of the minimums and the sum of the maximums. *)
Lemma in_bounds_feasible (vs : list IViewItem) (T : Qc) :
  forallb plain_in_bounds vs = true -> sum_sizes vs = Fin T ->
  (sum_minimums vs <=? Fin T) = true /\ (Fin T <=? sum_maximums vs) = true.
Proof.
  intros Hall HS. rewrite sum_sizes_sum_of in HS.
  assert (Hall' := proj1 (forallb_forall _ _) Hall).
  assert (Hfin : forall it, In it vs -> is_finite (size it) = true)
    by (intros it Hit; apply plain_in_bounds_finite, Hall', Hit).
  assert (L : (sum_of slack_below vs <=? zero) = true)
    by (apply sum_of_le0; intros it Hit;
        apply plain_in_bounds_slack, Hall', Hit).
  assert (U : (zero <=? sum_of slack_above vs) = true)
    by (apply sum_of_ge0; intros it Hit;
        apply plain_in_bounds_slack, Hall', Hit).
  unfold slack_below in L. unfold slack_above in U.
  rewrite (@sum_of_sub (fun it => minimumSize (view it)) vs Hfin) in L.
  rewrite (@sum_of_sub (fun it => maximumSize (view it)) vs Hfin) in U.
  rewrite HS in L, U. unfold sum_minimums, sum_maximums.
  split.
  - destruct (sum_of (fun it => minimumSize (view it)) vs); num_finish.
  - destruct (sum_of (fun it => maximumSize (view it)) vs); num_finish.
Qed.

(** C6, as the code has it. On a settled engine [distributeViewSizes]
    is idempotent: for items without snap size at integer sizes within
    their integer bounds, whose sizes sum to the container size, and
    enough sashes, the first call returns and a second call leaves the
    engine, sizes included, exactly as the first call left it. *)
Theorem distributeViewSizes_idempotent (this : SplitView) :
  safe_items (views this) = true ->
  this_size this = Some (sum_sizes (views this)) ->
  (length (views this) - 1 <= length (sashes this))%nat ->
  exists this1,
    distributeViewSizes this = Returns tt this1
    /\ distributeViewSizes this1 = Returns tt this1.
Proof.
  intros Hitems HT Hs.
  pose proof (safe_items_plain _ Hitems) as Hall.
  destruct (@sum_of_finite (views this)) as [T ES];
    [intros it Hit; apply plain_in_bounds_finite;
     exact (proj1 (forallb_forall _ _) Hall it Hit)|].
  assert (HS : sum_sizes (views this) = Fin T)
    by (rewrite (sum_sizes_sum_of (views this)); exact ES).
  rewrite HS in HT. clear Hitems ES.
  destruct (in_bounds_feasible _ Hall HS) as [Hlo Hhi].
  set (ds := apply_share (share_of (views this)) (views this)).
  assert (Hds : map view ds = map view (views this))
    by apply apply_share_views.
  assert (Hdb : forallb plain_in_bounds ds = true)
    by apply apply_share_of_in_bounds, Hall.
  set (a1 := set_views ds this).
  assert (F1 : same_frame this a1) by exact (@same_frame_set_views this ds Hds).
  destruct (same_frame_bounds F1) as (B1 & B2 & B3).
  assert (Hs1 : (length (views a1) - 1 <= length (sashes a1))%nat)
    by (cbn [views sashes set_views a1];
        rewrite (same_views_length _ _ Hds); exact Hs).
  (* the first call settles the engine *)
  destruct (@relayout_result a1 T None None HT Hdb)
    as (vs & E & Hv & Hb & HSv);
    [now rewrite B1 | now rewrite B2 | exact Hs1 |].
  destruct (saveProportions_returns
              (set_contentSize (Fin T) (set_views vs a1)))
    as (this1 & E1 & V1 & S1 & T1 & _).
  cbn [views sashes this_size set_contentSize set_views a1] in V1, S1, T1.
  exists this1. rewrite distributeViewSizes_share. fold ds a1.
  split; [now rewrite E|].
  (* the second call hands out the same share *)
  rewrite distributeViewSizes_share, V1.
  assert (Hvv : map view (views this) = map view vs)
    by (cbn [views set_views a1] in Hv; congruence).
  rewrite <- (@share_of_agree (views this) vs T Hvv Hall Hb HS HSv).
  rewrite <- (@apply_share_agree (share_of (views this)) (views this) vs
                Hvv Hall Hb).
  fold ds. set (a2 := set_views ds this1).
  destruct (@relayout_same_views a1 a2 None None eq_refl)
    as (vs' & Ea & Eb & _).
  - cbn [this_size set_views a1 a2]. congruence.
  - exact Hs1.
  - cbn [views sashes set_views a2]. rewrite S1.
    now rewrite (same_views_length _ _ Hds).
  - rewrite Eb. rewrite Ea in E.
    assert (Evs : vs' = vs).
    { destruct (saveProportions_returns
                  (set_contentSize (sum_sizes vs') (set_views vs' a1)))
        as (x & Ex & Vx & _).
      rewrite E, E1 in Ex. injection Ex as <-.
      cbn [views set_contentSize set_views] in Vx. congruence. }
    subst vs'. rewrite HSv in *. rewrite <- E1.
    unfold saveProportions in *.
    cbn [contentSize set_contentSize toNumber views set_views] in *.
    destruct (Fin T >? zero)%num; injection E1 as <-; reflexivity.
Qed.

Lemma distributeViewSizes_idempotent_witness :
  let this :=
    engine [item (numZ 50) PInf None (numZ 130);
            item (numZ 50) (numZ 100) None (numZ 71);
            item (numZ 40) (numZ 40) None (numZ 40)] (numZ 241) in
  exists this1,
    distributeViewSizes this = Returns tt this1
    /\ distributeViewSizes this1 = Returns tt this1.
Proof.
  intros this.
  apply (@distributeViewSizes_idempotent this);
    [reflexivity | reflexivity | cbn; lia].
Defined.

(** C6, as stated, fails on an engine that is not settled: two items
    without bounds above, both within their bounds at 50 and 50 in a
    container of 300. The first call leaves them at 50 and 250, the
    second at 150 and 150. *)
Lemma distributeViewSizes_twice_counterexample :
  let this :=
    engine [item zero PInf None (numZ 50); item zero PInf None (numZ 50)]
      (numZ 300) in
  forallb plain_in_bounds (views this) = true
  /\ exists this1 this2,
       distributeViewSizes this = Returns tt this1
       /\ distributeViewSizes this1 = Returns tt this2
       /\ sizes_of (views this1) = [numZ 50; numZ 250]
       /\ sizes_of (views this2) = [numZ 150; numZ 150].
Proof.
  intros this. split; [reflexivity|].
  exists (state_of (distributeViewSizes this)).
  exists (state_of
            (distributeViewSizes (state_of (distributeViewSizes this)))).
  split; [vm_compute; reflexivity|]. split; [vm_compute; reflexivity|].
  split; apply nums_eqb_eq; vm_compute; reflexivity.
Qed.

Local Close Scope num_scope.

(** ** [layout] after [layout] *)

Local Open Scope num_scope.

(** The loop of [layout] reads the contracts only. *)
Lemma layout_loop_contracts (vs : list IViewItem) :
  forall (ws : list IViewItem) (i : nat) (ps : list num) (total : num),
  map view vs = map view ws ->
  layout_loop i vs ps total = layout_loop i ws ps total.
Proof.
  induction vs as [|x vs IH]; intros [|y ws] i ps total Hv;
    try discriminate; [reflexivity|].
  cbn [map] in Hv. injection Hv as Hxy Hv. cbn [layout_loop].
  now rewrite Hxy, (IH ws (S i) ps total Hv).
Qed.

Lemma layout_outcome (this : SplitView) (total orthogonal : num)
    (ps : list num) :
  _proportions this = Some ps ->
  (length (views this) - 1 <= length (sashes this))%nat ->
  exists vs,
    layout total orthogonal this
    = Returns tt
        (set_contentSize (sum_sizes vs)
           (set_views vs
              (set_orthogonalSize orthogonal (set_this_size total this))))
    /\ map view vs = map view (views this)
    /\ vs = distributeEmptySpace_loop (length (views this))
              (layout_loop 0 (views this) ps total)
              (total - sum_sizes (layout_loop 0 (views this) ps total)).
Proof.
  intros Hp Hs. rewrite (@layout_unfold this total orthogonal ps Hp).
  unfold bind, distributeEmptySpace.
  cbn [views set_views this_size set_orthogonalSize set_this_size toNumber].
  set (vs1 := layout_loop 0 (views this) ps total).
  assert (Hv1 : map view vs1 = map view (views this))
    by apply layout_loop_views.
  rewrite (same_views_length _ _ Hv1).
  set (vs2 := distributeEmptySpace_loop _ vs1 _).
  assert (Hv2 : map view vs2 = map view vs1)
    by apply distributeEmptySpace_loop_views.
  rewrite layoutViews_returns
    by (cbn [views set_views sashes set_orthogonalSize set_this_size];
        rewrite (same_views_length _ _ Hv2), (same_views_length _ _ Hv1);
        exact Hs).
  exists vs2. split; [reflexivity|]. split; [congruence | reflexivity].
Qed.

(** X26. Resizing the container leaves no trace in the next layout:
    [layout] computes every size from the saved proportions, which it
    does not save again, so with proportions saved and enough sashes a
    [layout] at one size followed by a [layout] at another ends in
    exactly the engine that the second [layout] alone ends in, for any
    contracts, proportions and sizes. *)
Theorem layout_memoryless (this : SplitView) (ps : list num)
    (size1 orthogonal1 size2 orthogonal2 : num) :
  _proportions this = Some ps ->
  (length (views this) - 1 <= length (sashes this))%nat ->
  exists this1 this2,
    layout size1 orthogonal1 this = Returns tt this1
    /\ layout size2 orthogonal2 this1 = Returns tt this2
    /\ layout size2 orthogonal2 this = Returns tt this2.
Proof.
  intros Hp Hs.
  destruct (@layout_outcome this size1 orthogonal1 ps Hp Hs)
    as (v1 & E1 & Hv1 & _).
  set (this1 := set_contentSize (sum_sizes v1)
                  (set_views v1
                     (set_orthogonalSize orthogonal1
                        (set_this_size size1 this)))) in *.
  destruct (@layout_outcome this size2 orthogonal2 ps Hp Hs)
    as (v2 & E2 & Hv2 & D2).
  destruct (@layout_outcome this1 size2 orthogonal2 ps)
    as (v2' & E2' & Hv2' & D2').
  - exact Hp.
  - cbn [views sashes this1 set_contentSize set_views set_orthogonalSize
         set_this_size]. now rewrite (same_views_length _ _ Hv1).
  - exists this1, (set_contentSize (sum_sizes v2)
                     (set_views v2
                        (set_orthogonalSize orthogonal2
                           (set_this_size size2 this)))).
    split; [exact E1|]. split; [|exact E2].
    assert (E : v2' = v2).
    { rewrite D2, D2'.
      cbn [views this1 set_contentSize set_views set_orthogonalSize
           set_this_size].
      rewrite (same_views_length _ _ Hv1).
      now rewrite (@layout_loop_contracts v1 (views this) 0 ps size2 Hv1). }
    rewrite E2', E. reflexivity.
Qed.

Lemma layout_memoryless_witness :
  let this :=
    set_proportions [(numZ 1 / numZ 3)%num; (numZ 2 / numZ 3)%num]
      (engine [item (numZ 50) (numZ 150) None (numZ 100);
               item (numZ 50) PInf None (numZ 200)] (numZ 300)) in
  exists this1 this2,
    layout (numZ 120) (numZ 30) this = Returns tt this1
    /\ layout (numZ 300) (numZ 30) this1 = Returns tt this2
    /\ layout (numZ 300) (numZ 30) this = Returns tt this2.
Proof.
  intros this.
  apply (@layout_memoryless this
           [(numZ 1 / numZ 3)%num; (numZ 2 / numZ 3)%num]);
    [reflexivity | cbn; lia].
Defined.

Local Close Scope num_scope.

(** ** [layout] and the sum of the sizes *)

Local Open Scope num_scope.




Local Close Scope num_scope.
